(** * VeltEditor: search highlighting and line transformations

    A shallow embedding of the text-processing core of
    [src/src/core/VeltEditor.ts]: the custom search highlighting field,
    [find]/[countMatches]/[getCurrentMatchIndex], and the line-oriented
    commands ([toggleLineComment], [outdentSelection], the sorts, the
    line-ending conversions and [detectLineEnding]).

    JavaScript strings are sequences of UTF-16 code units; they are modelled
    as [list N].  A CodeMirror document is modelled either by its text
    ([doc.toString()], a [list N]) where the source works on that text, or by
    its list of lines (CodeMirror's [Text] keeps its lines, without line
    breaks) where the source addresses lines. *)

From Stdlib Require Import String Ascii.
From Stdlib Require Import List NArith ZArith Bool Lia.
From Stdlib Require Import Sorting.Permutation Sorting.Sorted Classes.RelationClasses.
Import ListNotations.

Open Scope N_scope.

(** ** JavaScript strings *)

Definition jsstr := list N.

(** ASCII string literal as UTF-16 code units. *)
Definition u (s : string) : jsstr :=
  map (fun a => N_of_ascii a) (list_ascii_of_string s).

Definition CR : N := 13.
Definition LF : N := 10.

(** [a.startsWith(p)] *)
Fixpoint startsWith (s p : jsstr) {struct p} : bool :=
  match p, s with
  | [], _ => true
  | c :: p', d :: s' => N.eqb c d && startsWith s' p'
  | _ :: _, [] => false
  end.

(** [s.includes(p)] *)
Fixpoint includes (s p : jsstr) : bool :=
  startsWith s p || match s with [] => false | _ :: s' => includes s' p end.

(** [s.indexOf(p, from)] with [from] already clamped to the string, as the
    offset of the first occurrence at or after [from]. *)
Fixpoint indexOf_from (s p : jsstr) (i : nat) : option nat :=
  match s with
  | [] => if startsWith [] p then Some i else None
  | _ :: s' => if startsWith s p then Some i else indexOf_from s' p (S i)
  end.

Definition indexOf (s p : jsstr) (from : nat) : option nat :=
  let from' := Nat.min from (length s) in
  indexOf_from (skipn from' s) p from'.

(** [s.substring(a, b)] for [a <= b]. *)
Definition substring (s : jsstr) (a b : nat) : jsstr := firstn (b - a) (skipn a s).

(** ECMAScript [WhiteSpace] and [LineTerminator] code units: the set of [\s]
    in a regular expression and of [String.prototype.trim]. *)
Definition isWS (c : N) : bool :=
  match c with
  | 9 | 10 | 11 | 12 | 13 | 32 | 160 | 5760 | 8232 | 8233 | 8239 | 8287
  | 12288 | 65279 => true
  | _ => (8192 <=? c) && (c <=? 8202)
  end.

Fixpoint dropWhile (f : N -> bool) (s : jsstr) : jsstr :=
  match s with
  | c :: s' => if f c then dropWhile f s' else s
  | [] => []
  end.

Fixpoint takeWhile (f : N -> bool) (s : jsstr) : jsstr :=
  match s with
  | c :: s' => if f c then c :: takeWhile f s' else []
  | [] => []
  end.

(** [s.trim()]: whitespace removed at both ends. *)
Definition trim (s : jsstr) : jsstr :=
  rev (dropWhile isWS (rev (dropWhile isWS s))).

(** [String.prototype.toLowerCase], per code unit.  The table is the part of
    Unicode's lowercase mapping used in this development: ASCII and Latin-1
    capitals, U+0130 (LATIN CAPITAL LETTER I WITH DOT ABOVE), whose
    lowercase form is the two code units U+0069 U+0307 (SpecialCasing.txt),
    and U+212A (KELVIN SIGN), lowercased to ASCII [k].  Every other code
    unit is left unchanged. *)
Definition lowerUnit (c : N) : jsstr :=
  if (65 <=? c) && (c <=? 90) then [c + 32]
  else if (192 <=? c) && (c <=? 222) && negb (c =? 215) then [c + 32]
  else if c =? 304 then [105; 775]
  else if c =? 8490 then [107]
  else [c].

Definition toLowerCase (s : jsstr) : jsstr := flat_map lowerUnit s.

(** ** Line endings: [detectLineEnding], [convertToLF], [convertToCRLF] *)

(** The counting loop of [detectLineEnding]: a [\r] followed by [\n]
    counts once as CRLF ([i++] skips the [\n]). *)
Fixpoint countLineEndings (s : jsstr) (crlf cr lf : nat) : nat * nat * nat :=
  match s with
  | [] => (crlf, cr, lf)
  | c :: rest =>
      if c =? CR then
        match rest with
        | d :: rest' => if d =? LF then countLineEndings rest' (S crlf) cr lf
                        else countLineEndings rest crlf (S cr) lf
        | [] => countLineEndings rest crlf (S cr) lf
        end
      else if c =? LF then countLineEndings rest crlf cr (S lf)
      else countLineEndings rest crlf cr lf
  end.

(** [(count / total) * 100 > 10], compared exactly: [10 * count > total].
    (The binary64 quotient [count / total] at the boundary [10 * count =
    total] is the double nearest 0.1, and [0.1 * 100] is exactly [10], so
    the floating-point comparison agrees with the exact one.) *)
Definition percentAbove10 (count total : nat) : bool := Nat.ltb total (10 * count).

Definition detectLineEnding (content : jsstr) : string :=
  let hasCRLF := includes content [CR; LF] in
  let hasCR := includes content [CR] && negb (includes content [CR; LF]) in
  let hasLF := includes content [LF] && negb (includes content [CR; LF]) in
  if negb hasCRLF && negb hasCR && negb hasLF then "LF"%string
  else
    let '(crlfCount, crCount, lfCount) := countLineEndings content 0 0 0 in
    let total := (crlfCount + crCount + lfCount)%nat in
    if Nat.eqb total 0 then "LF"%string
    else
      let typesPresent :=
        ((if Nat.ltb 0 crlfCount then 1 else 0) + (if Nat.ltb 0 crCount then 1 else 0)
         + (if Nat.ltb 0 lfCount then 1 else 0))%nat in
      (* Math.min(crlfPercent, crPercent, lfPercent) > 10 *)
      if Nat.ltb 1 typesPresent
         && percentAbove10 crlfCount total && percentAbove10 crCount total
         && percentAbove10 lfCount total
      then "MIXED"%string
      else if Nat.leb crCount crlfCount && Nat.leb lfCount crlfCount then "CRLF"%string
      else if Nat.leb lfCount crCount then "CR"%string
      else "LF"%string.

(** [content.replace(/\r\n/g, '\n')] *)
Fixpoint replaceCRLFbyLF (s : jsstr) : jsstr :=
  match s with
  | c :: rest =>
      if c =? CR then
        match rest with
        | d :: rest' => if d =? LF then LF :: replaceCRLFbyLF rest'
                        else c :: replaceCRLFbyLF rest
        | [] => [c]
        end
      else c :: replaceCRLFbyLF rest
  | [] => []
  end.

(** [.replace(/\r/g, '\n')] *)
Definition replaceCRbyLF (s : jsstr) : jsstr := map (fun c => if c =? CR then LF else c) s.

(** [.replace(/\n/g, '\r\n')] *)
Definition replaceLFbyCRLF (s : jsstr) : jsstr :=
  flat_map (fun c => if c =? LF then [CR; LF] else [c]) s.

(** A whole-document conversion: [None] when the content is unchanged and
    nothing is dispatched, [Some content'] for the replacing edit. *)
Definition convertToLF (content : jsstr) : option jsstr :=
  let convertedContent := replaceCRbyLF (replaceCRLFbyLF content) in
  if list_eq_dec N.eq_dec content convertedContent then None else Some convertedContent.

Definition convertToCRLF (content : jsstr) : option jsstr :=
  let normalizedContent := replaceCRbyLF (replaceCRLFbyLF content) in
  let convertedContent := replaceLFbyCRLF normalizedContent in
  if list_eq_dec N.eq_dec content convertedContent then None else Some convertedContent.

(** CodeMirror's [Text]: its lines, without line breaks, numbered from 1. *)
Definition lines := list jsstr.

(** [lines.join('\n')]; also [doc.toString()], which joins the lines of
    the document with [\n]. *)
Fixpoint join (ls : lines) : jsstr :=
  match ls with
  | [] => []
  | [l] => l
  | l :: rest => l ++ [LF] ++ join rest
  end.

(** CodeMirror's [state.toText(string)] with no [lineSeparator] facet (the
    editor sets none): [Text.of(string.split(/\r\n?|\n/))], the lines. *)
Fixpoint splitLines (s : jsstr) : lines :=
  match s with
  | [] => [[]]
  | c :: rest =>
      if c =? LF then [] :: splitLines rest
      else if c =? CR then
        match rest with
        | d :: rest' => if d =? LF then [] :: splitLines rest' else [] :: splitLines rest
        | [] => [[]; []]
        end
      else
        match splitLines rest with
        | l :: ls => (c :: l) :: ls
        | [] => [[c]]
        end
  end.

(** [doc.toString()] after [setContent(content)] (or after creating the
    editor with [content]): the text goes through [toText]. *)
Definition setContent (content : jsstr) : jsstr := join (splitLines content).

(** The document content after running a command: a replacing edit's text
    goes through [toText] as well, so the new [doc.toString()] is that text
    split into lines and joined with [\n]. *)
Definition runCommand (cmd : jsstr -> option jsstr) (content : jsstr) : jsstr :=
  match cmd content with Some c => setContent c | None => content end.

(** ** Search: [find], [countMatches], [getCurrentMatchIndex] and the
    custom highlight field *)

(** The options object of [find]; an absent option is [false]
    ([options?.caseSensitive || false]). *)
Record SearchOptions := {
  caseSensitive : bool;
  regexp : bool;
  wholeWord : bool
}.

(** CodeMirror's stored [SearchQuery] (its [search] text and flags). *)
Record CMSearchQuery := {
  sq_search : jsstr;
  sq_caseSensitive : bool;
  sq_regexp : bool;
  sq_wholeWord : bool
}.

(** [new SearchQuery({ search: '' })]. *)
Definition emptySearchQuery : CMSearchQuery :=
  {| sq_search := []; sq_caseSensitive := false; sq_regexp := false; sq_wholeWord := false |}.

(** The payload of the [setCustomSearch] effect. *)
Record CustomSearchQuery := {
  cs_search : jsstr;
  cs_caseSensitive : bool;
  cs_regexp : bool;
  cs_wholeWord : bool;
  cs_cursorPos : nat
}.

(** A mark decoration of [customSearchHighlight]: [from], [to], and whether
    it carries the [cm-searchMatch-selected] class. *)
Definition decoration := (nat * nat * bool)%type.

(** The part of the editor state the search code reads and writes: the
    document text, [selection.main.from], CodeMirror's search query and the
    decoration set of [customSearchHighlight]. *)
Record EditorSt := {
  doc : jsstr;
  selFrom : nat;
  searchQuery : CMSearchQuery;
  decorations : list decoration
}.

(** [escapeRegExp]: [string.replace(/[.*+?^${}()|[\]\\]/g, '\\$&')]. *)
Definition isRegExpSpecial (c : N) : bool :=
  match c with
  | 46 | 42 | 43 | 63 | 94 | 36 | 123 | 125 | 40 | 41 | 124 | 91 | 93 | 92 => true
  | _ => false
  end.

Definition escapeRegExp (s : jsstr) : jsstr :=
  flat_map (fun c => if isRegExpSpecial c then [92; c] else [c]) s.

(** [\b] as pattern text. *)
Definition wordBoundary : jsstr := [92; 98].

(** The literal scan of [countMatches] and [getCurrentMatchIndex]:
    [while ((pos = searchContent.indexOf(searchPattern, pos)) !== -1)
       { ...pos...; pos += searchPattern.length; }].
    [fuel] bounds the iterations; [None] means the loop has not ended. *)
Fixpoint indexOfScan (fuel : nat) (searchContent searchPattern : jsstr) (pos : nat)
  : option (list nat) :=
  match fuel with
  | O => None
  | S f =>
      match indexOf searchContent searchPattern pos with
      | None => Some []
      | Some p =>
          match indexOfScan f searchContent searchPattern (p + length searchPattern) with
          | Some ps => Some (p :: ps)
          | None => None
          end
      end
  end.

(** The content and pattern scanned: lowercased unless [caseSensitive]. *)
Definition literalScan (fuel : nat) (content searchText : jsstr) (cs : bool)
  : option (list nat) :=
  let searchContent := if cs then content else toLowerCase content in
  let searchPattern := if cs then searchText else toLowerCase searchText in
  indexOfScan fuel searchContent searchPattern 0.

(** The loop of [getCurrentMatchIndex] over the collected positions: the
    first match with [cursorPos >= matchPos && cursorPos <= matchEnd] or
    [cursorPos < matchPos], where [matchEnd = matchPos + searchText.length];
    past every match, [matchPositions.length]. *)
Fixpoint firstCurrentMatch (matchPositions : list nat) (len cursorPos i : nat) : option nat :=
  match matchPositions with
  | [] => None
  | matchPos :: rest =>
      let matchEnd := (matchPos + len)%nat in
      if Nat.leb matchPos cursorPos && Nat.leb cursorPos matchEnd then Some (S i)
      else if Nat.ltb cursorPos matchPos then Some (S i)
      else firstCurrentMatch rest len cursorPos (S i)
  end.

Definition matchIndexOf (matchPositions : list nat) (len cursorPos : nat) : nat :=
  match firstCurrentMatch matchPositions len cursorPos 0 with
  | Some k => k
  | None => length matchPositions
  end.

(** The largest length of an array, [2^32 - 1]: [push] onto an array of
    that length throws a [RangeError] ([Set(O, "length", 2^32)] fails in
    [ArraySetLength]). *)
Definition maxArrayLength : N := 4294967295.

(** How a loop that pushes onto an array ends: with the array, or with the
    [RangeError] of a [push] past [maxArrayLength]. *)
Inductive loopEnd (A : Type) :=
| LoopDone (xs : list A)
| PushRangeError.

Arguments LoopDone {A} xs.
Arguments PushRangeError {A}.

Section RegExpEngine.

(** The JavaScript [RegExp] built-in, taken as a parameter: [compile p ci]
    is [new RegExp(p, ci ? 'gi' : 'g')], [None] when the constructor throws
    a [SyntaxError]; [exec_at r s lastIndex] is the search of
    [RegExpBuiltinExec] for a global regexp: the first match at an index
    [>= lastIndex], as [(index, index + match[0].length)]. *)
Variable R : Type.
Variable compile : jsstr -> bool -> option R.
Variable exec_at : R -> jsstr -> nat -> option (nat * nat).

(** [while ((match = regex.exec(text)) !== null) { push(match) }]: the
    next [exec] starts at the [lastIndex] the previous one left, i.e. at
    the end of the previous match; [len] is the length of the array before
    the [push]. [None] when the fuel runs out. *)
Fixpoint execLoop (fuel : nat) (r : R) (text : jsstr) (lastIndex : nat) (len : N)
  : option (loopEnd (nat * nat)) :=
  match fuel with
  | O => None
  | S f =>
      match exec_at r text lastIndex with
      | None => Some (LoopDone [])
      | Some (i, e) =>
          if len =? maxArrayLength then Some PushRangeError
          else
            match execLoop f r text e (N.succ len) with
            | Some (LoopDone ms) => Some (LoopDone ((i, e) :: ms))
            | res => res
            end
      end
  end.

(** [content.match(regex)] for a global regexp ([RegExp.prototype[@@match]]):
    after an empty match [lastIndex] is advanced by one code unit
    ([AdvanceStringIndex]). *)
Fixpoint matchLoop (fuel : nat) (r : R) (text : jsstr) (lastIndex : nat)
  : option (list (nat * nat)) :=
  match fuel with
  | O => None
  | S f =>
      match exec_at r text lastIndex with
      | None => Some []
      | Some (i, e) =>
          match matchLoop f r text (if Nat.eqb e i then S e else e) with
          | Some ms => Some ((i, e) :: ms)
          | None => None
          end
      end
  end.

(** [countMatches]; the [catch] maps a throwing [new RegExp] to [0]. *)
Definition countMatches (fuel : nat) (content searchText : jsstr) (o : SearchOptions)
  : option nat :=
  if (length searchText =? 0)%nat then Some 0%nat
  else if regexp o then
    match compile searchText (negb (caseSensitive o)) with
    | None => Some 0%nat
    | Some r => option_map (@length _) (matchLoop fuel r content 0)
    end
  else
    let searchPattern := if caseSensitive o then searchText else toLowerCase searchText in
    if wholeWord o then
      match compile (wordBoundary ++ escapeRegExp searchPattern ++ wordBoundary)
                    (negb (caseSensitive o)) with
      | None => Some 0%nat
      | Some r => option_map (@length _) (matchLoop fuel r content 0)
      end
    else option_map (@length _) (literalScan fuel content searchText (caseSensitive o)).

(** The positions pushed by an [exec] loop of [getCurrentMatchIndex]:
    [inr 1] when a [push] throws (its [catch] returns [1]), [inl None] when
    the fuel runs out. *)
Definition execPositions (fuel : nat) (r : R) (content : jsstr) : option (list nat) + nat :=
  match execLoop fuel r content 0 0 with
  | None => inl None
  | Some PushRangeError => inr 1%nat
  | Some (LoopDone ms) => inl (Some (map fst ms))
  end.

(** [getCurrentMatchIndex]; its [catch] returns [1]. *)
Definition getCurrentMatchIndex (fuel : nat) (content : jsstr) (cursorPos : nat)
  (searchText : jsstr) (o : SearchOptions) : option nat :=
  if (length searchText =? 0)%nat then Some 0%nat
  else
    match countMatches fuel content searchText o with
    | None => None
    | Some 0%nat => Some 0%nat
    | Some _ =>
        let positions :=
          if regexp o then
            match compile searchText (negb (caseSensitive o)) with
            | None => inr 1%nat
            | Some r => execPositions fuel r content
            end
          else
            let searchPattern := if caseSensitive o then searchText else toLowerCase searchText in
            if wholeWord o then
              match compile (wordBoundary ++ escapeRegExp searchPattern ++ wordBoundary)
                            (negb (caseSensitive o)) with
              | None => inr 1%nat
              | Some r => execPositions fuel r content
              end
            else
              match literalScan fuel content searchText (caseSensitive o) with
              | None => inl None
              | Some ps =>
                  if N.of_nat (length ps) <=? maxArrayLength then inl (Some ps) else inr 1%nat
              end in
        match positions with
        | inr k => Some k
        | inl None => None
        | inl (Some matchPositions) =>
            Some (matchIndexOf matchPositions (length searchText) cursorPos)
        end
    end.

(** The [setCustomSearch] branch of [customSearchHighlight.update]: the new
    decoration set, [None] when the match loop does not end. *)
Definition customSearchHighlight (fuel : nat) (text : jsstr) (query : option CustomSearchQuery)
  : option (list decoration) :=
  match query with
  | None => Some []
  | Some q =>
      if (length (cs_search q) =? 0)%nat then Some []
      else
        let ci := negb (cs_caseSensitive q) in
        let regex :=
          if cs_regexp q then compile (cs_search q) ci
          else if cs_wholeWord q then
            compile (wordBoundary ++ escapeRegExp (cs_search q) ++ wordBoundary) ci
          else compile (escapeRegExp (cs_search q)) ci in
        match regex with
        | None => Some []
        | Some r =>
            match execLoop fuel r text 0 0 with
            | None => None
            | Some PushRangeError => Some []   (* the catch: Decoration.none *)
            | Some (LoopDone ms) =>
                Some (map (fun '(from, to) =>
                             (from, to, Nat.leb from (cs_cursorPos q) && Nat.leb (cs_cursorPos q) to))
                          ms)
            end
        end
  end.

(** [clearSearch]: both queries are reset in one transaction. *)
Definition clearSearch (st : EditorSt) : EditorSt :=
  {| doc := doc st; selFrom := selFrom st; searchQuery := emptySearchQuery;
     decorations := [] |}.

(** [find]: [None] when one of its loops does not end. *)
Definition find (fuel : nat) (st : EditorSt) (searchText : jsstr) (o : SearchOptions)
  : option (EditorSt * (nat * nat)) :=
  if (length searchText =? 0)%nat then Some (clearSearch st, (0%nat, 0%nat))
  else
    let query := {| sq_search := searchText; sq_caseSensitive := caseSensitive o;
                    sq_regexp := regexp o; sq_wholeWord := wholeWord o |} in
    let st1 := {| doc := doc st; selFrom := selFrom st; searchQuery := query;
                  decorations := decorations st |} in
    let cursorPos := selFrom st1 in
    match customSearchHighlight fuel (doc st1)
            (Some {| cs_search := searchText; cs_caseSensitive := caseSensitive o;
                     cs_regexp := regexp o; cs_wholeWord := wholeWord o;
                     cs_cursorPos := cursorPos |}) with
    | None => None
    | Some ds =>
        let st2 := {| doc := doc st1; selFrom := selFrom st1; searchQuery := query;
                      decorations := ds |} in
        match countMatches fuel (doc st2) searchText o,
              getCurrentMatchIndex fuel (doc st2) (selFrom st2) searchText o with
        | Some matches, Some currentIndex => Some (st2, (matches, currentIndex))
        | _, _ => None
        end
    end.

End RegExpEngine.

(** ** A concrete [RegExp] engine for a fragment of the pattern syntax

    Patterns made of literal characters, [\\] escapes of the syntax
    characters (what [escapeRegExp] produces), [\\b], groups [( )],
    alternatives [|] and the greedy star [*], matched with the backtracking
    semantics of ECMAScript (section 22.2.2), in non-unicode mode. *)
Module Frag.

Inductive regex :=
| REmpty
| RChar (c : N)
| RSeq (r1 r2 : regex)
| RAlt (r1 r2 : regex)
| RStar (r : regex)
| RWordB.

Inductive presult :=
| POk (r : regex) (rest : jsstr)
| PError      (* new RegExp throws a SyntaxError *)
| POutside.   (* syntax outside the fragment *)

(** Recursive descent; [n] bounds the depth and [4 * length + 4] is never
    exhausted. *)
Fixpoint parseAlt (n : nat) (s : jsstr) : presult :=
  match n with
  | O => POutside
  | S n' =>
      match parseSeq n' s REmpty with
      | POk r (124 :: rest) =>
          match parseAlt n' rest with
          | POk r2 rest2 => POk (RAlt r r2) rest2
          | e => e
          end
      | res => res
      end
  end
with parseSeq (n : nat) (s : jsstr) (acc : regex) : presult :=
  match n with
  | O => POutside
  | S n' =>
      match s with
      | [] => POk acc []
      | c :: _ =>
          if (c =? 124) || (c =? 41) then POk acc s
          else if c =? 42 then PError (* Nothing to repeat *)
          else
            match parseAtom n' s with
            | POk a (42 :: rest) => parseSeq n' rest (RSeq acc (RStar a))
            | POk a rest => parseSeq n' rest (RSeq acc a)
            | e => e
            end
      end
  end
with parseAtom (n : nat) (s : jsstr) : presult :=
  match n with
  | O => POutside
  | S n' =>
      match s with
      | [] => POutside
      | 40 :: s' =>
          match parseAlt n' s' with
          | POk r (41 :: rest) => POk r rest
          | POk _ _ => PError (* Unterminated group *)
          | e => e
          end
      | 92 :: s' =>
          match s' with
          | [] => PError (* \ at end of pattern *)
          | d :: rest =>
              if d =? 98 then POk RWordB rest
              else if isRegExpSpecial d then POk (RChar d) rest
              else POutside
          end
      | c :: s' => if isRegExpSpecial c then POutside else POk (RChar c) s'
      end
  end.

Definition parse (p : jsstr) : presult :=
  match parseAlt (4 * length p + 4) p with
  | POk r [] => POk r []
  | POk _ _ => PError (* Unmatched ')' *)
  | e => e
  end.

(** Canonicalize for [i] (non-unicode): the simple uppercase mapping of
    ASCII and Latin-1 letters. *)
Definition canonicalize (ci : bool) (c : N) : N :=
  if negb ci then c
  else if (97 <=? c) && (c <=? 122) then c - 32
  else if (224 <=? c) && (c <=? 254) && negb (c =? 247) then c - 32
  else if c =? 181 then 924
  else if c =? 255 then 376
  else c.

(** [IsWordChar]: [A-Za-z0-9_]. *)
Definition isWordChar (c : N) : bool :=
  ((48 <=? c) && (c <=? 57)) || ((65 <=? c) && (c <=? 90))
  || ((97 <=? c) && (c <=? 122)) || (c =? 95).

Definition wordAt (s : jsstr) (i : nat) : bool :=
  match nth_error s i with Some c => isWordChar c | None => false end.

(** The matcher with continuation [k]; the star rejects an iteration that
    matched the empty string (RepeatMatcher, step 2.b). *)
Fixpoint mt (ci : bool) (r : regex) (s : jsstr) (i : nat) (k : nat -> option nat)
  {struct r} : option nat :=
  match r with
  | REmpty => k i
  | RChar c =>
      match nth_error s i with
      | Some d => if canonicalize ci c =? canonicalize ci d then k (S i) else None
      | None => None
      end
  | RSeq r1 r2 => mt ci r1 s i (fun j => mt ci r2 s j k)
  | RAlt r1 r2 =>
      match mt ci r1 s i k with
      | Some e => Some e
      | None => mt ci r2 s i k
      end
  | RStar r1 =>
      (fix loop (n i : nat) : option nat :=
         match n with
         | O => k i
         | S n' =>
             match mt ci r1 s i (fun j => if Nat.eqb j i then None else loop n' j) with
             | Some e => Some e
             | None => k i
             end
         end) (S (length s - i)) i
  | RWordB =>
      let a := match i with O => false | S i' => wordAt s i' end in
      if xorb a (wordAt s i) then k i else None
  end.

Definition compiled := (regex * bool)%type.

(** [new RegExp(p, flags)]; a pattern outside the fragment is refused here
    too, and the development only applies this engine inside it. *)
Definition compile (p : jsstr) (ci : bool) : option compiled :=
  match parse p with
  | POk r _ => Some (r, ci)
  | _ => None
  end.

(** The search of [RegExpBuiltinExec]: fails when [lastIndex] is past the
    end, else tries each index from [lastIndex] on. *)
Definition exec_at (c : compiled) (s : jsstr) (lastIndex : nat) : option (nat * nat) :=
  let '(r, ci) := c in
  (fix search (n i : nat) : option (nat * nat) :=
     match n with
     | O => None
     | S n' =>
         match mt ci r s i (fun j => Some j) with
         | Some e => Some (i, e)
         | None => search n' (S i)
         end
     end) (S (length s) - lastIndex)%nat lastIndex.

End Frag.

(** ** Documents as lists of lines *)

(** [doc.line(n).text] *)
Definition lineText (ls : lines) (n : nat) : jsstr := nth (n - 1) ls [].

(** [doc.line(n).from]: the lengths of the lines before, plus one break each. *)
Fixpoint lineFrom (ls : lines) (n : nat) : nat :=
  match n, ls with
  | S (S n'), l :: rest => (length l + 1 + lineFrom rest (S n'))%nat
  | _, _ => 0%nat
  end.

(** [doc.line(n).to] *)
Definition lineTo (ls : lines) (n : nat) : nat := (lineFrom ls n + length (lineText ls n))%nat.

(** [doc.lineAt(pos).number]: the first line whose end is at or after [pos]
    (the last line for a position past the end). *)
Fixpoint lineAtAux (ls : lines) (pos num : nat) : nat :=
  match ls with
  | [] => num
  | [_] => num
  | l :: rest =>
      if Nat.leb pos (length l) then num
      else lineAtAux rest (pos - length l - 1) (S num)
  end.

Definition lineAt (ls : lines) (pos : nat) : nat := lineAtAux ls pos 1.

(** Replacing [[line(s).from, line(e).to)] by the join of [newLines] (lines
    without a line break): the lines before [s] and after [e] stay. *)
Definition replaceLines (ls : lines) (s e : nat) (newLines : lines) : lines :=
  firstn (s - 1) ls ++ newLines ++ skipn e ls.

(** [for (let i = startLine; i <= endLine; i++) lines.push(doc.line(i).text)] *)
Definition linesBetween (ls : lines) (s e : nat) : lines :=
  map (lineText ls) (seq s (S e - s)).

Definition jsstr_eqb (a b : jsstr) : bool :=
  if list_eq_dec N.eq_dec a b then true else false.

(** [lines.some((line, index) => line !== sortedLines[index])] is false. *)
Definition jsstr_list_eqb (a b : lines) : bool :=
  if list_eq_dec (list_eq_dec N.eq_dec) a b then true else false.

(** ** [toggleLineComment] and [getCommentSyntax] *)

Definition memberOf (x : jsstr) (names : list string) : bool :=
  existsb (fun n => jsstr_eqb x (u n)) names.

(** [getCommentSyntax], from [this.currentLanguage?.toLowerCase() || ''] *)
Definition getCommentSyntax (currentLanguage : option jsstr) : jsstr :=
  let lang := match currentLanguage with Some l => toLowerCase l | None => [] end in
  if memberOf lang ["javascript"; "typescript"; "jsx"; "tsx"; "c"; "cpp"; "java"; "rust";
                    "go"; "swift"; "kotlin"; "csharp"; "php"]%string then u "//"
  else if memberOf lang ["python"; "ruby"; "bash"; "shell"; "yaml"; "yml"; "perl"; "r"]%string
  then u "#"
  else if memberOf lang ["html"; "xml"]%string then u "<!--"
  else if memberOf lang ["css"; "scss"; "sass"; "less"]%string then u "/*"
  else if memberOf lang ["sql"]%string then u "--"
  else u "//".

(** [.replace(/^\s/, '')] *)
Definition dropOneLeadingWS (s : jsstr) : jsstr :=
  match s with
  | c :: rest => if isWS c then rest else s
  | [] => []
  end.

(** [lineText.indexOf(commentChar)] as a JavaScript number ([-1] if absent). *)
Definition indexOfZ (s p : jsstr) : Z :=
  match indexOf s p 0 with Some k => Z.of_nat k | None => (-1)%Z end.

(** [s.substring(a, b)] with JavaScript's clamping of negative or too large
    arguments and swapping of reversed ones. *)
Definition jsSubstring (s : jsstr) (a b : Z) : jsstr :=
  let clamp x := Z.to_nat (Z.max 0 (Z.min x (Z.of_nat (length s)))) in
  let a' := clamp a in
  let b' := clamp b in
  substring s (Nat.min a' b') (Nat.max a' b').

(** The new text of the line. *)
Definition toggledLine (commentChar lineText : jsstr) : jsstr :=
  let trimmed := trim lineText in
  if startsWith trimmed commentChar then
    let commentIndex := indexOfZ lineText commentChar in
    jsSubstring lineText 0 commentIndex
      ++ dropOneLeadingWS (jsSubstring lineText (commentIndex + Z.of_nat (length commentChar))
                             (Z.of_nat (length lineText)))
  else
    let indent := takeWhile isWS lineText in
    indent ++ commentChar ++ [32] ++ skipn (length indent) lineText.

(** What a command that may dispatch a transaction does: it returns
    without dispatching, or [view.dispatch] throws a [RangeError] (the
    state stays as it was), or the transaction is applied. *)
Inductive dispatchResult (A : Type) :=
| NoDispatch
| DispatchRangeError
| Dispatched (a : A).

Arguments NoDispatch {A}.
Arguments DispatchRangeError {A}.
Arguments Dispatched {A} a.

(** [view.dispatch({changes, selection: {anchor}})]: the selection is given
    in the coordinates of the new document, whose length is [newLength]; a
    negative anchor ([doc.lineAt] throws) or one past the end ("Selection
    points outside of document") is a [RangeError]. *)
Definition dispatchAnchor {A : Type} (a : A) (newLength : nat) (anchor : Z)
  : dispatchResult (A * nat) :=
  if (0 <=? anchor)%Z && (anchor <=? Z.of_nat newLength)%Z
  then Dispatched (a, Z.to_nat anchor)
  else DispatchRangeError.

(** [toggleLineComment]: the new lines and the new cursor ([anchor]). *)
Definition toggleLineComment (currentLanguage : option jsstr) (ls : lines) (selectionFrom : nat)
  : dispatchResult (lines * nat) :=
  let n := lineAt ls selectionFrom in
  let commentChar := getCommentSyntax currentLanguage in
  if (length commentChar =? 0)%nat then NoDispatch
  else
    let lineText := lineText ls n in
    let newText := toggledLine commentChar lineText in
    let anchor :=
      if startsWith (trim lineText) commentChar
      then (Z.of_nat selectionFrom - Z.of_nat (length commentChar) - 1)%Z
      else (Z.of_nat selectionFrom + Z.of_nat (length commentChar) + 1)%Z in
    let newLines := replaceLines ls n n [newText] in
    dispatchAnchor newLines (length (join newLines)) anchor.

(** ** [outdentSelection] *)

(** One line: two leading spaces, else a tab, else a space; with the number
    of code units removed. *)
Definition outdentLine (lineText : jsstr) : jsstr * nat :=
  if startsWith lineText [32; 32] then (skipn 2 lineText, 2%nat)
  else if startsWith lineText [9] then (skipn 1 lineText, 1%nat)
  else if startsWith lineText [32] then (skipn 1 lineText, 1%nat)
  else (lineText, 0%nat).

Definition totalRemoved (touched : lines) : nat :=
  fold_right (fun t acc => (snd (outdentLine t) + acc)%nat) 0%nat touched.

(** [outdentSelection] on the selection [(anchor, head)]: [None] when no
    line changes, else the new lines and the new [(anchor, head)]. *)
Definition outdentSelection (ls : lines) (anchor head : nat) : option (lines * (Z * Z)) :=
  let from := Nat.min anchor head in
  let to := Nat.max anchor head in
  let startLine := lineAt ls from in
  let endLine := lineAt ls to in
  let touched := linesBetween ls startLine endLine in
  let total := totalRemoved touched in
  if (total =? 0)%nat then None
  else
    Some (replaceLines ls startLine endLine (map (fun t => fst (outdentLine t)) touched),
          (Z.max (Z.of_nat (lineFrom ls startLine)) (Z.of_nat from - Z.of_nat total),
           (Z.of_nat to - Z.of_nat total)%Z)).

(** ** [sortLinesAscending] and [sortLinesDescending] *)

Section Sorting.

(** A JavaScript comparator ([(a, b) => a.localeCompare(b)]): negative,
    zero or positive. *)
Variable cmp : jsstr -> jsstr -> Z.

(** [Array.prototype.sort] with a consistent comparator is a stable sort;
    stable insertion sort computes the same permutation. *)
Fixpoint insertSorted (x : jsstr) (l : lines) : lines :=
  match l with
  | [] => [x]
  | y :: l' => if (cmp y x <=? 0)%Z then y :: insertSorted x l' else x :: l
  end.

Definition sortBy (l : lines) : lines := fold_left (fun acc x => insertSorted x acc) l [].

(** The shared body of the two sorts, over the selection [(anchor, head)]:
    [None] when the lines are already in order (no dispatch). *)
Definition sortLinesWith (ls : lines) (anchor head : nat) : option (lines * (nat * nat)) :=
  let from := Nat.min anchor head in
  let to := Nat.max anchor head in
  let '(startLine, endLine) :=
    if Nat.eqb anchor head then (1%nat, length ls) else (lineAt ls from, lineAt ls to) in
  let lines := linesBetween ls startLine endLine in
  let sortedLines := sortBy lines in
  if jsstr_list_eqb lines sortedLines then None
  else
    let fromPos := lineFrom ls startLine in
    let sortedText := join sortedLines in
    Some (replaceLines ls startLine endLine sortedLines,
          (fromPos, (fromPos + length sortedText)%nat)).

End Sorting.

Definition sortLinesAscending (localeCompare : jsstr -> jsstr -> Z) :=
  sortLinesWith (fun a b => localeCompare a b).

Definition sortLinesDescending (localeCompare : jsstr -> jsstr -> Z) :=
  sortLinesWith (fun a b => localeCompare b a).

(** A concrete comparator: lexicographic order of code units. *)
Fixpoint codeUnitCompare (a b : jsstr) : Z :=
  match a, b with
  | [], [] => 0
  | [], _ :: _ => -1
  | _ :: _, [] => 1
  | x :: a', y :: b' =>
      match N.compare x y with
      | Lt => -1
      | Gt => 1
      | Eq => codeUnitCompare a' b'
      end
  end.

(** A comment marker: non-empty, starting and ending with a character
    that is not whitespace. *)
Definition markerOk (m : jsstr) : Prop :=
  exists c0 rest cl init, m = c0 :: rest /\ m = init ++ [cl]
                          /\ isWS c0 = false /\ isWS cl = false.

(** The length of [ls] joined, with one break after each line. *)
Fixpoint sumlen (ls : lines) : nat :=
  match ls with
  | [] => 0%nat
  | l :: r => (length l + 1 + sumlen r)%nat
  end.

(** "Not after" for a comparator of [Array.prototype.sort]. *)
Definition notAfter (cmp : jsstr -> jsstr -> Z) (a b : jsstr) : Prop := (cmp a b <= 0)%Z.

(** ** Text changes of a transaction *)

(** A change [{ from, to, insert }]. *)
Definition change := (nat * nat * jsstr)%type.

(** One change applied to the document text. *)
Definition applyChange (T : jsstr) (c : change) : jsstr :=
  let '(from, to, ins) := c in firstn from T ++ ins ++ skipn to T.

(** The changes of one transaction address the document before it; the
    commands below list them in increasing, non-overlapping order, so they
    are applied from the last to the first. *)
Definition applyChanges (T : jsstr) (cs : list change) : jsstr :=
  fold_right (fun c acc => applyChange acc c) T cs.

(** ** Cursor and navigation: [goToLine], [getCursorPosition] *)

(** [goToLine(lineNumber)] for an integer [lineNumber]: [None] when it is
    refused ([lineNumber < 1 || lineNumber > doc.lines]), else the new
    cursor [line.from]. *)
Definition goToLine (ls : lines) (lineNumber : Z) : option nat :=
  if (lineNumber <? 1)%Z || (Z.of_nat (length ls) <? lineNumber)%Z then None
  else Some (lineFrom ls (Z.to_nat lineNumber)).

(** [getCursorPosition()] for the cursor [head]: [{ line, column }]. *)
Definition getCursorPosition (ls : lines) (head : nat) : nat * nat :=
  let line := lineAt ls head in
  (line, (head - lineFrom ls line + 1)%nat).

(** ** [duplicateLine], [deleteLine], [moveLineUp], [moveLineDown] *)

(** [duplicateLine()] on the selection [[from, to]]: the new text and the new
    [(anchor, head)]. *)
Definition duplicateLine (ls : lines) (from to : nat) : jsstr * (nat * nat) :=
  let T := join ls in
  let line := lineAt ls from in
  if Nat.eqb from to then
    let insertPos := lineTo ls line in
    let textToInsert := LF :: lineText ls line in
    let anchor := (insertPos + length textToInsert)%nat in
    (applyChange T (insertPos, insertPos, textToInsert), (anchor, anchor))
  else
    let selectedText := substring T from to in
    let insertPos := to in
    (applyChange T (insertPos, insertPos, selectedText),
     (insertPos, (insertPos + length selectedText)%nat)).

(** [deleteLine()]: the new text and the new cursor. *)
Definition deleteLine (ls : lines) (selFrom : nat) : jsstr * nat :=
  let T := join ls in
  let line := lineAt ls selFrom in
  let from := lineFrom ls line in
  let to := if Nat.ltb (lineTo ls line) (length T) then S (lineTo ls line) else lineTo ls line in
  (applyChange T (from, to, []), from).

(** [moveLineUp()]: nothing on the first line, else the new text and
    cursor. *)
Definition moveLineUp (ls : lines) (selFrom : nat) : dispatchResult (jsstr * nat) :=
  let current := lineAt ls selFrom in
  if Nat.eqb current 1 then NoDispatch
  else
    let prev := (current - 1)%nat in
    let newText := applyChanges (join ls)
                     [(lineFrom ls prev, lineTo ls prev, lineText ls current);
                      (lineFrom ls current, lineTo ls current, lineText ls prev)] in
    dispatchAnchor newText (length newText)
      (Z.of_nat (lineFrom ls prev + (selFrom - lineFrom ls current))).

(** [moveLineDown()]: nothing on the last line. The anchor is computed from
    [nextLine.from] in the document before the change. *)
Definition moveLineDown (ls : lines) (selFrom : nat) : dispatchResult (jsstr * nat) :=
  let current := lineAt ls selFrom in
  if Nat.eqb current (length ls) then NoDispatch
  else
    let next := S current in
    let newText := applyChanges (join ls)
                     [(lineFrom ls current, lineTo ls current, lineText ls next);
                      (lineFrom ls next, lineTo ls next, lineText ls current)] in
    dispatchAnchor newText (length newText)
      (Z.of_nat (lineFrom ls next + (selFrom - lineFrom ls current))).

(** ** [indentSelection] *)

(** [indentSelection()] on the selection [[from, to]]: the new text and the
    new [(anchor, head)]. *)
Definition indentSelection (ls : lines) (from to : nat) : jsstr * (nat * nat) :=
  let T := join ls in
  if Nat.eqb from to then
    (applyChange T (from, from, u "  "), ((from + 2)%nat, (from + 2)%nat))
  else
    let startLine := lineAt ls from in
    let endLine := lineAt ls to in
    let changes := map (fun i => (lineFrom ls i, lineFrom ls i, u "  "))
                       (seq startLine (S endLine - startLine)) in
    (applyChanges T changes, ((from + 2)%nat, (to + length changes * 2)%nat)).

(** ** [removeDuplicateLines], [trimTrailingSpaces], [removeBlankLines] *)

(** The lines a range command works on: all of them for an empty selection,
    else those of [selection.from] to [selection.to]. *)
Definition lineRange (ls : lines) (anchor head : nat) : nat * nat :=
  if Nat.eqb anchor head then (1%nat, length ls)
  else (lineAt ls (Nat.min anchor head), lineAt ls (Nat.max anchor head)).

(** The loop with [seen = new Set<string>()]: first occurrences, in order. *)
Fixpoint uniqueLinesAux (seen : lines) (ls : lines) : lines :=
  match ls with
  | [] => []
  | line :: rest =>
      if existsb (jsstr_eqb line) seen then uniqueLinesAux seen rest
      else line :: uniqueLinesAux (line :: seen) rest
  end.

Definition uniqueLines (ls : lines) : lines := uniqueLinesAux [] ls.

(** [removeDuplicateLines()]: [None] when no line is dropped, else the new
    lines and the new [(anchor, head)]. *)
Definition removeDuplicateLines (ls : lines) (anchor head : nat)
  : option (lines * (nat * nat)) :=
  let '(startLine, endLine) := lineRange ls anchor head in
  let lines := linesBetween ls startLine endLine in
  let unique := uniqueLines lines in
  if Nat.eqb (length unique) (length lines) then None
  else
    let fromPos := lineFrom ls startLine in
    let uniqueText := join unique in
    Some (replaceLines ls startLine endLine unique,
          (fromPos, (fromPos + length uniqueText)%nat)).

(** [originalLine.replace(/[ \t]+$/, '')]: the trailing run of spaces and
    tabs removed (a line holds no line break, so [$] is its end). *)
Definition isSpaceTab (c : N) : bool := (c =? 32) || (c =? 9).

Definition trimTrailing (s : jsstr) : jsstr := rev (dropWhile isSpaceTab (rev s)).

(** [trimTrailingSpaces()]. *)
Definition trimTrailingSpaces (ls : lines) (anchor head : nat)
  : option (lines * (nat * nat)) :=
  let '(startLine, endLine) := lineRange ls anchor head in
  let originals := linesBetween ls startLine endLine in
  let trimmed := map trimTrailing originals in
  let hasChanged := existsb (fun l => negb (jsstr_eqb l (trimTrailing l))) originals in
  if negb hasChanged then None
  else
    let fromPos := lineFrom ls startLine in
    let trimmedText := join trimmed in
    Some (replaceLines ls startLine endLine trimmed,
          (fromPos, (fromPos + length trimmedText)%nat)).

(** [lineText.trim() === ''] *)
Definition isBlank (s : jsstr) : bool := Nat.eqb (length (trim s)) 0.

(** [removeBlankLines()].  Inserting the join of no line is inserting the
    empty text, which leaves one empty line in place of the range. *)
Definition removeBlankLines (ls : lines) (anchor head : nat)
  : option (lines * (nat * nat)) :=
  let '(startLine, endLine) := lineRange ls anchor head in
  let originals := linesBetween ls startLine endLine in
  let kept := filter (fun l => negb (isBlank l)) originals in
  let hasChanged := existsb isBlank originals in
  if negb hasChanged then None
  else
    let fromPos := lineFrom ls startLine in
    let nonBlankText := join kept in
    Some (replaceLines ls startLine endLine (match kept with [] => [[]] | _ => kept end),
          (fromPos, (fromPos + length nonBlankText)%nat)).

(** ** [convertToCR] *)

(** [.replace(/\n/g, '\r')] *)
Definition replaceLFbyCR (s : jsstr) : jsstr := map (fun c => if c =? LF then CR else c) s.

Definition convertToCR (content : jsstr) : option jsstr :=
  let normalizedContent := replaceCRbyLF (replaceCRLFbyLF content) in
  let convertedContent := replaceLFbyCR normalizedContent in
  if list_eq_dec N.eq_dec content convertedContent then None else Some convertedContent.

(** ** [convertToTitleCase] *)

(** [char.toUpperCase()] of a [\w] character: ASCII letters only. *)
Definition upperWordChar (c : N) : N := if (97 <=? c) && (c <=? 122) then c - 32 else c.

(** [\b] at index [i] (the assertion of [Frag.mt]). *)
Definition boundaryAt (s : jsstr) (i : nat) : bool :=
  xorb (match i with O => false | S i' => Frag.wordAt s i' end) (Frag.wordAt s i).

(** [selectedText.replace(/\b\w/g, char => char.toUpperCase())]: every
    match of [\b\w] is one character, matched on the original text. *)
Definition titleCase (s : jsstr) : jsstr :=
  map (fun i => let c := nth i s 0 in
                if boundaryAt s i && Frag.isWordChar c then upperWordChar c else c)
      (seq 0 (length s)).

(** [convertToTitleCase()] on the selection [[from, to]]: [None] for an empty
    selection, else the new text and [(anchor, head)]. *)
Definition convertToTitleCase (T : jsstr) (from to : nat) : option (jsstr * (nat * nat)) :=
  if Nat.eqb from to then None
  else
    let selectedText := substring T from to in
    Some (applyChange T (from, to, titleCase selectedText), (from, to)).

(** ** Bookmarks *)

(** A [Set<number>]: its elements in insertion order. *)
Definition setHas (s : list nat) (x : nat) : bool := existsb (Nat.eqb x) s.

Definition setAdd (s : list nat) (x : nat) : list nat := if setHas s x then s else s ++ [x].

Definition setDelete (s : list nat) (x : nat) : list nat := filter (fun y => negb (Nat.eqb y x)) s.

Inductive bookmarkEffect :=
| ToggleBookmark (line : nat)
| ClearBookmarks
| OtherEffect.

(** The [for (let effect of tr.effects)] loop; [ClearBookmarks] returns. *)
Fixpoint applyBookmarkEffects (effects : list bookmarkEffect) (bookmarks : list nat) : list nat :=
  match effects with
  | [] => bookmarks
  | ToggleBookmark line :: rest =>
      applyBookmarkEffects rest
        (if setHas bookmarks line then setDelete bookmarks line else setAdd bookmarks line)
  | ClearBookmarks :: _ => []
  | OtherEffect :: rest => applyBookmarkEffects rest bookmarks
  end.

(** [bookmarkState.update(bookmarks, tr)], with [newDoc = tr.state.doc]. *)
Definition bookmarkUpdate (bookmarks : list nat) (newDoc : lines) (effects : list bookmarkEffect)
  : list nat :=
  let newBookmarks :=
    fold_left (fun acc line =>
                 let pos := lineFrom newDoc (Nat.min line (length newDoc)) in
                 setAdd acc (lineAt newDoc pos)) bookmarks [] in
  applyBookmarkEffects effects newBookmarks.

(** [toggleBookmark()]: the effect it dispatches, and the transaction (no
    document change). *)
Definition toggleBookmark (ls : lines) (bookmarks : list nat) (head : nat) : list nat :=
  bookmarkUpdate bookmarks ls [ToggleBookmark (lineAt ls head)].

(** [Array.from(bookmarks).sort(cmp)] for a numeric comparator: a stable
    insertion sort. *)
Fixpoint insertNum (cmp : nat -> nat -> Z) (x : nat) (l : list nat) : list nat :=
  match l with
  | [] => [x]
  | y :: l' => if (cmp y x <=? 0)%Z then y :: insertNum cmp x l' else x :: l
  end.

Definition sortNum (cmp : nat -> nat -> Z) (l : list nat) : list nat :=
  fold_left (fun acc x => insertNum cmp x acc) l [].

(** [nextBookmark()]: [None] without bookmarks, else the new cursor. *)
Definition nextBookmark (ls : lines) (bookmarks : list nat) (head : nat) : option nat :=
  let currentLine := lineAt ls head in
  match bookmarks with
  | [] => None
  | _ =>
      let sortedBookmarks := sortNum (fun a b => (Z.of_nat a - Z.of_nat b)%Z) bookmarks in
      let nextLine :=
        match List.find (fun line => Nat.ltb currentLine line) sortedBookmarks with
        | Some l => l
        | None => nth 0 sortedBookmarks 0%nat
        end in
      Some (lineFrom ls nextLine)
  end.

(** [previousBookmark()]. *)
Definition previousBookmark (ls : lines) (bookmarks : list nat) (head : nat) : option nat :=
  let currentLine := lineAt ls head in
  match bookmarks with
  | [] => None
  | _ =>
      let sortedBookmarks := sortNum (fun a b => (Z.of_nat b - Z.of_nat a)%Z) bookmarks in
      let prevLine :=
        match List.find (fun line => Nat.ltb line currentLine) sortedBookmarks with
        | Some l => l
        | None => nth 0 sortedBookmarks 0%nat
        end in
      Some (lineFrom ls prevLine)
  end.

(** ** Proof helpers on the line model *)

(** The text of lines each followed by a break, and each preceded by one. *)
Definition joinPre (ls : lines) : jsstr := flat_map (fun l => l ++ [LF]) ls.
Definition joinPost (ls : lines) : jsstr := flat_map (fun l => LF :: l) ls.

(** A line as [indentSelection] rewrites it: two spaces in front. *)
Definition indent2 (l : jsstr) : jsstr := u "  " ++ l.

(** The regular expression [escapeRegExp s] denotes: its characters in
    sequence. *)
Definition litChain (s : jsstr) (acc : Frag.regex) : Frag.regex :=
  fold_left (fun a c => Frag.RSeq a (Frag.RChar c)) s acc.

(** * Theorems *)

(** ** Line endings *)

(** [detectLineEnding] answers [MIXED] only when all three kinds of line
    break occur: [Math.min] also ranges over the percentages of the kinds
    that are absent, which are [0]. *)
Lemma detectLineEnding_mixed_needs_all_three (content : jsstr) :
  detectLineEnding content = "MIXED"%string ->
  let '(crlf, cr, lf) := countLineEndings content 0 0 0 in
  (0 < crlf /\ 0 < cr /\ 0 < lf)%nat.
Proof.
  unfold detectLineEnding.
  destruct (countLineEndings content 0 0 0) as [[crlf cr] lf].
  repeat match goal with
         | |- context [if ?b then _ else _] => destruct b eqn:?
         end; try discriminate.
  intros _. unfold percentAbove10 in *.
  repeat match goal with
         | H : (_ && _)%bool = true |- _ => apply andb_true_iff in H; destruct H
         end.
  rewrite Nat.ltb_lt in *. lia.
Qed.

(** On the raw string ["a\r\nb\r\nc\n"] (two CRLF, one LF: the minority LF
    is a third of the line breaks) the body of [detectLineEnding] would
    answer [CRLF], not [MIXED]. *)
Lemma detectLineEnding_raw_crlf_lf :
  detectLineEnding (u "a" ++ [CR; LF] ++ u "b" ++ [CR; LF] ++ u "c" ++ [LF]) = "CRLF"%string
  /\ countLineEndings (u "a" ++ [CR; LF] ++ u "b" ++ [CR; LF] ++ u "c" ++ [LF]) 0 0 0
     = (2, 0, 1)%nat.
Proof. split; reflexivity. Qed.

Lemma replaceCRLFbyLF_no_CR (s : jsstr) : ~ In CR s -> replaceCRLFbyLF s = s.
Proof.
  induction s as [|c s IH]; intros H; [reflexivity|].
  simpl in H. simpl.
  destruct (c =? CR) eqn:E.
  - apply N.eqb_eq in E. subst. exfalso. auto.
  - rewrite IH by auto. reflexivity.
Qed.

Lemma replaceCRbyLF_no_CR (s : jsstr) : ~ In CR s -> replaceCRbyLF s = s.
Proof.
  induction s as [|c s IH]; intros H; [reflexivity|].
  simpl in H. unfold replaceCRbyLF in *. simpl.
  destruct (c =? CR) eqn:E.
  - apply N.eqb_eq in E. subst. exfalso. auto.
  - rewrite IH by auto. reflexivity.
Qed.

(** Expanding every LF of a text without CR, then collapsing the CRLF pairs
    and the CRs, gives the text back. *)
Lemma normalize_replaceLFbyCRLF (s : jsstr) :
  ~ In CR s -> replaceCRbyLF (replaceCRLFbyLF (replaceLFbyCRLF s)) = s.
Proof.
  intros H. rewrite replaceCRbyLF_no_CR.
  - induction s as [|c s IH]; [reflexivity|].
    simpl in H. unfold replaceLFbyCRLF in *. simpl.
    destruct (c =? LF) eqn:E.
    + simpl. rewrite IH by auto. apply N.eqb_eq in E. subst. reflexivity.
    + simpl. destruct (c =? CR) eqn:E'.
      * apply N.eqb_eq in E'. subst. exfalso. auto.
      * rewrite IH by auto. reflexivity.
  - clear -H. induction s as [|c s IH]; [simpl; auto|].
    simpl in H. unfold replaceLFbyCRLF. simpl.
    destruct (c =? LF) eqn:E.
    + simpl. intros [Hc|Hin]; [discriminate|]. apply IH; auto.
    + simpl. destruct (c =? CR) eqn:E'.
      * apply N.eqb_eq in E'. subst. exfalso. auto.
      * intros [Hc|Hin]; [subst; auto|]. apply IH; auto.
Qed.

(** ** Search *)

(** C10: [find('')] runs [clearSearch]: it answers zero matches, clears
    CodeMirror's query and the custom decorations, and leaves the text. *)
Theorem find_empty_clears_search (R : Type) (compile : jsstr -> bool -> option R)
  (exec_at : R -> jsstr -> nat -> option (nat * nat)) (fuel : nat) (st : EditorSt)
  (o : SearchOptions) :
  find R compile exec_at fuel st [] o = Some (clearSearch st, (0, 0)%nat)
  /\ doc (clearSearch st) = doc st
  /\ searchQuery (clearSearch st) = emptySearchQuery
  /\ sq_search (searchQuery (clearSearch st)) = []
  /\ decorations (clearSearch st) = [].
Proof. repeat split. Qed.

(** C3: when [new RegExp] refuses the pattern, [find] in regexp mode answers
    zero matches with current index zero (no exception leaves it), and the
    highlight recomputation yields no decoration. *)
Theorem find_invalid_regexp_no_match (R : Type) (compile : jsstr -> bool -> option R)
  (exec_at : R -> jsstr -> nat -> option (nat * nat)) (fuel : nat) (st : EditorSt)
  (pattern : jsstr) (cs ww : bool) :
  compile pattern (negb cs) = None ->
  (exists st',
      find R compile exec_at fuel st pattern
           {| caseSensitive := cs; regexp := true; wholeWord := ww |} = Some (st', (0, 0)%nat)
      /\ decorations st' = [] /\ doc st' = doc st)
  /\ (forall cursorPos,
        customSearchHighlight R compile exec_at fuel (doc st)
          (Some {| cs_search := pattern; cs_caseSensitive := cs; cs_regexp := true;
                   cs_wholeWord := ww; cs_cursorPos := cursorPos |}) = Some []).
Proof.
  intros H. unfold find, customSearchHighlight, getCurrentMatchIndex, countMatches; simpl.
  destruct (length pattern =? 0)%nat; simpl.
  - split; [|reflexivity]. eexists. repeat split.
  - rewrite H. split; [|reflexivity]. eexists. repeat split.
Qed.

Lemma find_invalid_regexp_no_match_witness :
  Frag.compile (u "(") true = None
  /\ (exists st',
        find _ Frag.compile Frag.exec_at 10
             {| doc := u "a(b"; selFrom := 0; searchQuery := emptySearchQuery;
                decorations := [] |}
             (u "(") {| caseSensitive := false; regexp := true; wholeWord := false |}
        = Some (st', (0, 0)%nat)
        /\ decorations st' = []
        /\ doc st' = doc {| doc := u "a(b"; selFrom := 0; searchQuery := emptySearchQuery;
                            decorations := [] |})
  /\ (forall cursorPos,
        customSearchHighlight _ Frag.compile Frag.exec_at 10
          (doc {| doc := u "a(b"; selFrom := 0; searchQuery := emptySearchQuery;
                  decorations := [] |})
          (Some {| cs_search := u "("; cs_caseSensitive := false; cs_regexp := true;
                   cs_wholeWord := false; cs_cursorPos := cursorPos |}) = Some []).
Proof.
  split; [reflexivity|].
  apply (find_invalid_regexp_no_match _ Frag.compile Frag.exec_at 10
           {| doc := u "a(b"; selFrom := 0; searchQuery := emptySearchQuery;
              decorations := [] |} (u "(") false false).
  reflexivity.
Defined.

(** The pattern [a*] compiles to a star, which matches the empty string at
    offset 0 of ["b"]. *)
Lemma compile_a_star : Frag.compile (u "a*") true
  = Some (Frag.RSeq Frag.REmpty (Frag.RStar (Frag.RChar 97)), true).
Proof. reflexivity. Qed.

(** A match of the fragment's matcher ends at or after the index where it
    starts: [k] is called at such an index. *)
Lemma Frag_mt_progress (ci : bool) (r : Frag.regex) (s : jsstr) :
  forall i k e, Frag.mt ci r s i k = Some e -> exists j, (i <= j)%nat /\ k j = Some e.
Proof.
  induction r as [|c|r1 IH1 r2 IH2|r1 IH1 r2 IH2|r1 IH1|]; intros i k e H; cbn [Frag.mt] in H.
  - exists i. split; [lia|exact H].
  - destruct (nth_error s i); [|discriminate].
    destruct (_ =? _); [|discriminate]. exists (S i). split; [lia|exact H].
  - destruct (IH1 _ _ _ H) as (j1 & Hj1 & H1). destruct (IH2 _ _ _ H1) as (j2 & Hj2 & H2).
    exists j2. split; [lia|exact H2].
  - destruct (Frag.mt ci r1 s i k) as [e1|] eqn:E1.
    + injection H as <-. exact (IH1 _ _ _ E1).
    + exact (IH2 _ _ _ H).
  - assert (HF : forall n j e',
               (fix loop (n i : nat) {struct n} : option nat :=
                  match n with
                  | O => k i
                  | S n' =>
                      match Frag.mt ci r1 s i (fun j => if Nat.eqb j i then None else loop n' j) with
                      | Some e => Some e
                      | None => k i
                      end
                  end) n j = Some e' -> exists j', (j <= j')%nat /\ k j' = Some e').
    { induction n as [|n IHn]; intros j e' Hj; [exists j; split; [lia|exact Hj]|].
      simpl in Hj. destruct (Frag.mt ci r1 s j _) as [e1|] eqn:E1.
      - injection Hj as <-. destruct (IH1 _ _ _ E1) as (j1 & Hj1 & Hk).
        destruct (Nat.eqb j1 j) eqn:E; [discriminate|]. apply Nat.eqb_neq in E.
        destruct (IHn _ _ Hk) as (j2 & Hj2 & Hk2). exists j2. split; [lia|exact Hk2].
      - exists j. split; [lia|exact Hj]. }
    destruct (Frag.mt ci r1 s i _) as [e1|] eqn:E1.
    + injection H as <-. destruct (IH1 _ _ _ E1) as (j & Hj & Hk).
      destruct (Nat.eqb j i) eqn:E; [discriminate|]. apply Nat.eqb_neq in E.
      destruct (HF _ _ _ Hk) as (j' & Hj' & Hk'). exists j'. split; [lia|exact Hk'].
    + exists i. split; [lia|exact H].
  - destruct (xorb _ _); [|discriminate]. exists i. split; [lia|exact H].
Qed.

(** [Frag.exec_at] behaves as [RegExpBuiltinExec]: a match starts at or
    after [lastIndex] and ends at or after its start ... *)
Lemma Frag_exec_at_progress (c : Frag.compiled) (s : jsstr) (L i e : nat) :
  Frag.exec_at c s L = Some (i, e) -> (L <= i <= e)%nat.
Proof.
  destruct c as [r ci]. unfold Frag.exec_at.
  generalize (S (length s) - L)%nat as n. intros n. revert L.
  induction n as [|n IH]; intros L H; [discriminate|].
  destruct (Frag.mt ci r s L (fun j => Some j)) as [e1|] eqn:E.
  - injection H as <- <-. destruct (Frag_mt_progress _ _ _ _ _ _ E) as (j & Hj & Hk).
    injection Hk as <-. lia.
  - specialize (IH (S L) H). lia.
Qed.

(** ... and there is no match once [lastIndex] is past the end. *)
Lemma Frag_exec_at_end (c : Frag.compiled) (s : jsstr) (L : nat) :
  (length s < L)%nat -> Frag.exec_at c s L = None.
Proof.
  intros H. destruct c as [r ci]. unfold Frag.exec_at.
  replace (S (length s) - L)%nat with 0%nat by lia. reflexivity.
Qed.

Section Termination.

Variable R : Type.
Variable compile : jsstr -> bool -> option R.
Variable exec_at : R -> jsstr -> nat -> option (nat * nat).

(** The [exec] loop ends, at the latest with the [RangeError] of the
    [push] that would make the array longer than [maxArrayLength], whatever
    the matches. *)
Lemma execLoop_ends (r : R) (text : jsstr) :
  forall fuel L len, (len <= maxArrayLength)%N ->
  (N.to_nat (maxArrayLength - len) < fuel)%nat ->
  execLoop R exec_at fuel r text L len <> None.
Proof.
  induction fuel as [|fuel IH]; intros L len Hlen Hf; [lia|].
  cbn [execLoop]. destruct (exec_at r text L) as [[i e]|]; [|discriminate].
  destruct (len =? maxArrayLength) eqn:E; [discriminate|].
  apply N.eqb_neq in E.
  destruct (execLoop R exec_at fuel r text e (N.succ len)) as [res|] eqn:Er.
  - destruct res; discriminate.
  - exfalso. apply (IH e (N.succ len)); [lia|lia|exact Er].
Qed.

(** An empty match at [lastIndex] is met again by every [exec]: the loop
    pushes until the array is full, and the next [push] throws. *)
Lemma execLoop_empty_match_overflow (r : R) (text : jsstr) (L : nat) :
  exec_at r text L = Some (L, L) ->
  forall fuel len, (len <= maxArrayLength)%N ->
  (N.to_nat (maxArrayLength - len) < fuel)%nat ->
  execLoop R exec_at fuel r text L len = Some PushRangeError.
Proof.
  intros Hx. induction fuel as [|fuel IH]; intros len Hlen Hf; [lia|].
  cbn [execLoop]. rewrite Hx.
  destruct (len =? maxArrayLength) eqn:E; [reflexivity|].
  apply N.eqb_neq in E. rewrite (IH (N.succ len)) by lia. reflexivity.
Qed.

(** [String.prototype.match] ends: every match moves [lastIndex] forward,
    by one code unit after an empty match, until it is past the end. *)
Lemma matchLoop_ends (r : R) (text : jsstr)
  (Hprog : forall L i e, exec_at r text L = Some (i, e) -> (L <= i <= e)%nat)
  (Hend : forall L, (length text < L)%nat -> exec_at r text L = None) :
  forall fuel L, (S (length text) - L < fuel)%nat -> matchLoop R exec_at fuel r text L <> None.
Proof.
  induction fuel as [|fuel IH]; intros L Hf; [lia|].
  cbn [matchLoop]. destruct (exec_at r text L) as [[i e]|] eqn:Ex; [|discriminate].
  assert (HL : (L <= length text)%nat).
  { destruct (Nat.le_gt_cases L (length text)) as [Hle|Hgt]; [exact Hle|].
    rewrite Hend in Ex by exact Hgt. discriminate. }
  destruct (Hprog _ _ _ Ex) as [H1 H2].
  destruct (matchLoop R exec_at fuel r text (if Nat.eqb e i then S e else e)) eqn:Em;
    [discriminate|].
  exfalso. refine (IH _ _ Em).
  destruct (Nat.eqb e i) eqn:Eei; [apply Nat.eqb_eq in Eei|apply Nat.eqb_neq in Eei]; lia.
Qed.

End Termination.

(** C2: for every document text and every regular-expression query, the
    match enumerations of the highlight recomputation, of [countMatches] and
    of [getCurrentMatchIndex] (the two parts of [getSearchInfo]), and so
    [find], all end with a result. [RegExp] is any engine whose [exec]
    finds a match at or after [lastIndex], ending at or after its start,
    and nothing past the end of the text. The [exec] loops, which do not
    step over an empty match, end at the latest with the [RangeError] of
    the [push] past [maxArrayLength] elements, which the [catch] blocks
    turn into a result. The bound on the iterations is
    [maxArrayLength + length text + 2]. *)
Theorem find_regexp_empty_match_no_termination (R : Type) (compile : jsstr -> bool -> option R)
  (exec_at : R -> jsstr -> nat -> option (nat * nat)) (st : EditorSt) (searchText : jsstr)
  (cs ww : bool) (cursorPos fuel : nat)
  (Hprog : forall r L i e, exec_at r (doc st) L = Some (i, e) -> (L <= i <= e)%nat)
  (Hend : forall r L, (length (doc st) < L)%nat -> exec_at r (doc st) L = None)
  (Hfuel : (N.to_nat maxArrayLength + length (doc st) + 2 <= fuel)%nat) :
  customSearchHighlight R compile exec_at fuel (doc st)
    (Some {| cs_search := searchText; cs_caseSensitive := cs; cs_regexp := true;
             cs_wholeWord := ww; cs_cursorPos := cursorPos |}) <> None
  /\ countMatches R compile exec_at fuel (doc st) searchText
       {| caseSensitive := cs; regexp := true; wholeWord := ww |} <> None
  /\ getCurrentMatchIndex R compile exec_at fuel (doc st) cursorPos searchText
       {| caseSensitive := cs; regexp := true; wholeWord := ww |} <> None
  /\ find R compile exec_at fuel st searchText
       {| caseSensitive := cs; regexp := true; wholeWord := ww |} <> None.
Proof.
  assert (HE : forall r, execLoop R exec_at fuel r (doc st) 0 0 <> None).
  { intros r. apply execLoop_ends; lia. }
  assert (HC : forall c, customSearchHighlight R compile exec_at fuel (doc st)
                 (Some {| cs_search := searchText; cs_caseSensitive := cs; cs_regexp := true;
                          cs_wholeWord := ww; cs_cursorPos := c |}) <> None).
  { intros c. unfold customSearchHighlight. cbn [cs_search cs_caseSensitive cs_regexp].
    destruct (length searchText =? 0)%nat; [discriminate|].
    destruct (compile searchText (negb cs)) as [r|]; [|discriminate].
    specialize (HE r). destruct (execLoop R exec_at fuel r (doc st) 0 0) as [[ms|]|];
      [discriminate|discriminate|contradiction]. }
  set (o := {| caseSensitive := cs; regexp := true; wholeWord := ww |}).
  assert (HM : countMatches R compile exec_at fuel (doc st) searchText o <> None).
  { unfold countMatches. cbn [regexp o].
    destruct (length searchText =? 0)%nat; [discriminate|].
    destruct (compile searchText (negb (caseSensitive o))) as [r|]; [|discriminate].
    destruct (matchLoop R exec_at fuel r (doc st) 0) eqn:Em; [discriminate|].
    exfalso. refine (matchLoop_ends R exec_at r (doc st) (Hprog r) (Hend r) fuel 0 _ Em). lia. }
  assert (HG : forall c, getCurrentMatchIndex R compile exec_at fuel (doc st) c searchText o <> None).
  { intros c. unfold getCurrentMatchIndex.
    destruct (length searchText =? 0)%nat; [discriminate|].
    destruct (countMatches R compile exec_at fuel (doc st) searchText o) as [[|k]|];
      [discriminate| |contradiction].
    cbn [regexp o]. destruct (compile searchText _) as [r|]; [|discriminate].
    unfold execPositions. specialize (HE r).
    destruct (execLoop R exec_at fuel r (doc st) 0 0) as [[ms|]|];
      [discriminate|discriminate|contradiction]. }
  split; [apply HC|]. split; [exact HM|]. split; [apply HG|].
  unfold find. destruct (length searchText =? 0)%nat; [discriminate|].
  cbn [doc selFrom searchQuery decorations].
  destruct (customSearchHighlight R compile exec_at fuel (doc st) _) as [ds|] eqn:E1;
    [|exfalso; exact (HC _ E1)].
  cbn [doc selFrom].
  destruct (countMatches R compile exec_at fuel (doc st) searchText _) as [m|] eqn:E2;
    [|exfalso; exact (HM eq_refl)].
  destruct (getCurrentMatchIndex R compile exec_at fuel (doc st) _ searchText _) as [g|] eqn:E3;
    [discriminate|exfalso; exact (HG _ E3)].
Qed.

(** On the text ["b"] the pattern [a*] matches the empty string at 0 every
    time: with enough iterations the highlight [push] and the
    [getCurrentMatchIndex] [push] throw, so [find] answers 2 matches
    ([countMatches] steps over empty matches), current index 1 (the
    [catch]), and no decoration ([Decoration.none]). *)
Lemma find_a_star_b (fuel : nat) : (N.to_nat maxArrayLength + 3 <= fuel)%nat ->
  exists st',
    find _ Frag.compile Frag.exec_at fuel
      {| doc := u "b"; selFrom := 0; searchQuery := emptySearchQuery; decorations := [] |}
      (u "a*") {| caseSensitive := false; regexp := true; wholeWord := false |}
    = Some (st', (2, 1)%nat)
    /\ decorations st' = [].
Proof.
  intros Hf. destruct fuel as [|[|[|f]]]; [lia|lia|lia|].
  eexists. split.
  - unfold find, customSearchHighlight, getCurrentMatchIndex, execPositions.
    cbn -[execLoop].
    repeat match goal with
           | |- context [execLoop ?a ?b ?c ?d ?e ?g ?h] =>
               replace (execLoop a b c d e g h) with (Some (@PushRangeError (nat * nat)))
                 by (symmetry; apply execLoop_empty_match_overflow; [reflexivity|lia|lia])
           end.
    reflexivity.
  - reflexivity.
Qed.

(** C4: the case-insensitive literal scan runs over [content.toLowerCase()].
    On ["İx"] (two code units, lowercased to the three code units
    ["i̇x"]) with the query ["x"], it reports a match at offset 2: the
    span [[2, 3)] lies past the end of the document, whose ["x"] is at
    offset 1.  On ["İx x"] with the cursor on the second ["x"] (offset
    3), [find] answers current index 1 while the highlight, computed on the
    document itself, marks the second match as the current one. *)
Theorem literal_scan_lowercase_offsets :
  literalScan 3 ([304] ++ u "x") (u "x") false = Some [2%nat]
  /\ length ([304] ++ u "x") = 2%nat
  /\ substring ([304] ++ u "x") 2 3 = []
  /\ substring ([304] ++ u "x") 1 2 = u "x"
  /\ (exists st',
        find _ Frag.compile Frag.exec_at 10
          {| doc := [304] ++ u "x x"; selFrom := 3; searchQuery := emptySearchQuery;
             decorations := [] |}
          (u "x") {| caseSensitive := false; regexp := false; wholeWord := false |}
        = Some (st', (2, 1)%nat)
        /\ decorations st' = [(1, 2, false); (3, 4, true)]%nat).
Proof.
  split; [reflexivity|]. split; [reflexivity|]. split; [reflexivity|].
  split; [reflexivity|].
  eexists. split; reflexivity.
Qed.

(** ** [outdentSelection] *)

(** C6: on the document ["  x"] with the cursor at offset 0, the two
    leading spaces are removed and the anchor is clamped to the line start
    0, but the head becomes [0 - 2 = -2]: it is not clamped and precedes
    the start of the first affected line. *)
Theorem outdentSelection_head_unclamped :
  outdentSelection [u "  x"] 0 0 = Some ([u "x"], (0%Z, (-2)%Z))
  /\ lineFrom [u "  x"] (lineAt [u "  x"] 0) = 0%nat.
Proof. split; reflexivity. Qed.

(** ** [getCurrentMatchIndex]: the current index *)

(** The loop picks the first match whose end is at or after the cursor. *)
Lemma firstCurrentMatch_spec (ps : list nat) (len c i : nat) :
  firstCurrentMatch ps len c i =
  match ps with
  | [] => None
  | p :: rest => if Nat.leb c (p + len) then Some (S i) else firstCurrentMatch rest len c (S i)
  end.
Proof.
  destruct ps as [|p rest]; [reflexivity|]. simpl.
  destruct (Nat.leb p c) eqn:E1, (Nat.leb c (p + len)) eqn:E2, (Nat.ltb c p) eqn:E3;
    simpl; try reflexivity;
    rewrite ?Nat.leb_le, ?Nat.leb_gt, ?Nat.ltb_lt, ?Nat.ltb_ge in *; lia.
Qed.

Lemma firstCurrentMatch_bounds (ps : list nat) (len c i k : nat) :
  firstCurrentMatch ps len c i = Some k -> (S i <= k <= i + length ps)%nat.
Proof.
  revert i. induction ps as [|p rest IH]; intros i H; [discriminate|].
  rewrite firstCurrentMatch_spec in H.
  destruct (Nat.leb c (p + len)).
  - injection H as <-. simpl. lia.
  - apply IH in H. simpl. lia.
Qed.

Lemma firstCurrentMatch_mono (ps : list nat) (len c1 c2 i k2 : nat) :
  (c1 <= c2)%nat -> firstCurrentMatch ps len c2 i = Some k2 ->
  exists k1, firstCurrentMatch ps len c1 i = Some k1 /\ (k1 <= k2)%nat.
Proof.
  intros Hle. revert i. induction ps as [|p rest IH]; intros i H; [discriminate|].
  rewrite firstCurrentMatch_spec in H |- *.
  destruct (Nat.leb c2 (p + len)) eqn:E2.
  - injection H as <-. apply Nat.leb_le in E2.
    replace (Nat.leb c1 (p + len)) with true by (symmetry; apply Nat.leb_le; lia).
    eauto.
  - destruct (Nat.leb c1 (p + len)).
    + apply firstCurrentMatch_bounds in H. exists (S i). split; [reflexivity|lia].
    + apply IH in H. exact H.
Qed.

Lemma firstCurrentMatch_none (ps : list nat) (len c i : nat) :
  (forall p, In p ps -> (p + len < c)%nat) -> firstCurrentMatch ps len c i = None.
Proof.
  revert i. induction ps as [|p rest IH]; intros i H; [reflexivity|].
  rewrite firstCurrentMatch_spec.
  replace (Nat.leb c (p + len)) with false
    by (symmetry; apply Nat.leb_gt; apply H; left; reflexivity).
  apply IH. intros q Hq. apply H. right. exact Hq.
Qed.

(** C5: for a fixed list of match positions, moving the cursor strictly
    forward never lowers the 1-based current index; once the cursor is past
    the end of every match the index is the number of matches. *)
Theorem matchIndexOf_monotone (matchPositions : list nat) (len : nat) :
  (forall c1 c2, (c1 < c2)%nat ->
     (matchIndexOf matchPositions len c1 <= matchIndexOf matchPositions len c2)%nat)
  /\ (forall c, (forall p, In p matchPositions -> (p + len < c)%nat) ->
        matchIndexOf matchPositions len c = length matchPositions).
Proof.
  split.
  - intros c1 c2 Hlt. unfold matchIndexOf.
    destruct (firstCurrentMatch matchPositions len c2 0) as [k2|] eqn:E2.
    + destruct (firstCurrentMatch_mono matchPositions len c1 c2 0 k2) as [k1 [E1 Hk]];
        [lia|exact E2|].
      rewrite E1. exact Hk.
    + destruct (firstCurrentMatch matchPositions len c1 0) as [k1|] eqn:E1; [|lia].
      apply firstCurrentMatch_bounds in E1. lia.
  - intros c H. unfold matchIndexOf. rewrite firstCurrentMatch_none by exact H.
    reflexivity.
Qed.

Lemma matchIndexOf_monotone_witness :
  (3 < 6)%nat
  /\ (matchIndexOf [1; 5; 9]%nat 3 3 <= matchIndexOf [1; 5; 9]%nat 3 6)%nat
  /\ (forall p, In p [1; 5; 9]%nat -> (p + 3 < 13)%nat)
  /\ matchIndexOf [1; 5; 9]%nat 3 13 = length [1; 5; 9]%nat.
Proof.
  assert (Hp : forall p, In p [1; 5; 9]%nat -> (p + 3 < 13)%nat).
  { intros p [<-|[<-|[<-|[]]]]; lia. }
  split; [lia|]. split.
  - apply (proj1 (matchIndexOf_monotone [1; 5; 9]%nat 3%nat) 3%nat 6%nat). lia.
  - split; [exact Hp|].
    apply (proj2 (matchIndexOf_monotone [1; 5; 9]%nat 3%nat) 13%nat). exact Hp.
Defined.

(** ** [toggleLineComment] *)

Lemma takeWhile_dropWhile (f : N -> bool) (s : jsstr) : takeWhile f s ++ dropWhile f s = s.
Proof.
  induction s as [|c s IH]; [reflexivity|]. simpl.
  destruct (f c); simpl; [rewrite IH|]; reflexivity.
Qed.

Lemma takeWhile_all (f : N -> bool) (s : jsstr) : forallb f (takeWhile f s) = true.
Proof.
  induction s as [|c s IH]; [reflexivity|]. simpl.
  destruct (f c) eqn:E; simpl; [rewrite E, IH|]; reflexivity.
Qed.

Lemma dropWhile_head (f : N -> bool) (s : jsstr) :
  match dropWhile f s with [] => True | c :: _ => f c = false end.
Proof.
  induction s as [|c s IH]; [exact I|]. simpl.
  destruct (f c) eqn:E; [exact IH|exact E].
Qed.

Lemma dropWhile_app (f : N -> bool) (a b : jsstr) :
  dropWhile f (a ++ b) = if forallb f a then dropWhile f b else dropWhile f a ++ b.
Proof.
  induction a as [|c a IH]; [reflexivity|]. simpl.
  destruct (f c); simpl; [exact IH|reflexivity].
Qed.

Lemma dropWhile_stop (f : N -> bool) (c : N) (s : jsstr) :
  f c = false -> dropWhile f (c :: s) = c :: s.
Proof. intros H. simpl. rewrite H. reflexivity. Qed.

Lemma startsWith_app (s p : jsstr) : startsWith (p ++ s) p = true.
Proof.
  induction p as [|c p IH]; [reflexivity|]. simpl. rewrite N.eqb_refl. exact IH.
Qed.

Lemma startsWith_length (s p : jsstr) : startsWith s p = true -> (length p <= length s)%nat.
Proof.
  revert s. induction p as [|c p IH]; intros s H; simpl; [lia|].
  destruct s as [|d s]; [discriminate|]. simpl in H.
  apply andb_true_iff in H as [_ H]. apply IH in H. simpl. lia.
Qed.

Lemma startsWith_split (s p : jsstr) : startsWith s p = true -> exists w, s = p ++ w.
Proof.
  revert s. induction p as [|c p IH]; intros s H; [exists s; reflexivity|].
  destruct s as [|d s]; [discriminate|]. simpl in H.
  apply andb_true_iff in H as [Hc H]. apply N.eqb_eq in Hc. subst d.
  destruct (IH s H) as [w ->]. exists w. reflexivity.
Qed.

Lemma getCommentSyntax_markerOk (lang : option jsstr) : markerOk (getCommentSyntax lang).
Proof.
  unfold getCommentSyntax.
  repeat match goal with |- context [if ?b then _ else _] => destruct b end;
  [ exists 47, [47], 47, [47]
  | exists 35, [], 35, []
  | exists 60, [33; 45; 45], 45, [60; 33; 45]
  | exists 47, [42], 42, [47]
  | exists 45, [45], 45, [45]
  | exists 47, [47], 47, [47] ]; repeat split.
Qed.

Lemma markerOk_nonempty (m : jsstr) : markerOk m -> m <> [].
Proof. intros (c0 & rest & cl & init & -> & _). discriminate. Qed.

(** A whitespace prefix never starts an occurrence of a marker. *)
Lemma indexOf_from_ws_prefix (m I rest : jsstr) (i : nat) :
  markerOk m -> forallb isWS I = true ->
  indexOf_from (I ++ rest) m i = indexOf_from rest m (i + length I).
Proof.
  intros (c0 & mr & cl & init & Hm & _ & Hc0 & _).
  revert i. induction I as [|a I IH]; intros i HI.
  - simpl. rewrite Nat.add_0_r. reflexivity.
  - simpl in HI. apply andb_true_iff in HI as [Ha HI].
    simpl. rewrite Hm. simpl.
    replace (c0 =? a) with false
      by (symmetry; apply N.eqb_neq; intros ->; congruence).
    simpl. rewrite <- Hm. rewrite IH by exact HI. f_equal. lia.
Qed.

Lemma indexOf_from_at (m rest : jsstr) (i : nat) :
  m <> [] -> indexOf_from (m ++ rest) m i = Some i.
Proof.
  intros Hm. destruct m as [|c m]; [congruence|].
  simpl. rewrite N.eqb_refl, startsWith_app. reflexivity.
Qed.

Lemma indexOf_from_found (s p : jsstr) (i k : nat) :
  indexOf_from s p i = Some k -> (i <= k)%nat /\ startsWith (skipn (k - i) s) p = true.
Proof.
  revert i. induction s as [|c s IH]; intros i H.
  - simpl in H. destruct (startsWith [] p) eqn:E; [|discriminate].
    injection H as <-. rewrite Nat.sub_diag. split; [lia|exact E].
  - simpl in H. destruct (startsWith (c :: s) p) eqn:E.
    + injection H as <-. rewrite Nat.sub_diag. split; [lia|exact E].
    + apply IH in H as [Hle Hs]. split; [lia|].
      replace (k - i)%nat with (S (k - S i)) by lia. exact Hs.
Qed.

Lemma indexOf_from_exists (s p : jsstr) (i j : nat) :
  startsWith (skipn j s) p = true -> exists k, indexOf_from s p i = Some k.
Proof.
  revert i j. induction s as [|c s IH]; intros i j H.
  - simpl. rewrite skipn_nil in H. rewrite H. eauto.
  - simpl. destruct (startsWith (c :: s) p) eqn:E; [eauto|].
    destruct j as [|j]; [simpl in H; congruence|].
    simpl in H. exact (IH (S i) j H).
Qed.

(** [s.substring(a, b)] inside the string. *)
Lemma jsSubstring_nat (s : jsstr) (a b : nat) :
  (a <= b <= length s)%nat ->
  jsSubstring s (Z.of_nat a) (Z.of_nat b) = firstn (b - a) (skipn a s).
Proof.
  intros H. unfold jsSubstring, substring.
  rewrite Z.min_l by lia. rewrite Z.max_r by lia.
  rewrite Z.min_l by lia. rewrite Z.max_r by lia.
  rewrite !Nat2Z.id. rewrite Nat.min_l, Nat.max_r by lia. reflexivity.
Qed.

(** The trimmed line is a piece of the line. *)
Lemma trim_infix (s : jsstr) : exists a b, s = a ++ trim s ++ b.
Proof.
  exists (takeWhile isWS s), (rev (takeWhile isWS (rev (dropWhile isWS s)))).
  unfold trim. rewrite <- rev_app_distr, takeWhile_dropWhile, rev_involutive.
  symmetry. apply takeWhile_dropWhile.
Qed.

Lemma skipn_takeWhile (line : jsstr) :
  skipn (length (takeWhile isWS line)) line = dropWhile isWS line.
Proof.
  rewrite <- (takeWhile_dropWhile isWS line) at 2.
  rewrite skipn_app, Nat.sub_diag, skipn_all. reflexivity.
Qed.

(** Commenting: [marker + ' '] right after the leading indentation. *)
Lemma toggledLine_comment (m line : jsstr) :
  startsWith (trim line) m = false ->
  toggledLine m line = takeWhile isWS line ++ m ++ [32] ++ dropWhile isWS line.
Proof.
  intros H. unfold toggledLine. rewrite H. rewrite skipn_takeWhile. reflexivity.
Qed.

Lemma trim_commented (m I T : jsstr) :
  markerOk m -> forallb isWS I = true -> exists w, trim (I ++ m ++ [32] ++ T) = m ++ w.
Proof.
  intros (c0 & mr & cl & init & E1 & E2 & H0 & Hl) HI.
  unfold trim. rewrite dropWhile_app, HI.
  replace (dropWhile isWS (m ++ [32] ++ T)) with (m ++ [32] ++ T)
    by (rewrite E1; simpl; rewrite H0; reflexivity).
  rewrite (rev_app_distr m ([32] ++ T)), dropWhile_app.
  assert (Hrm : dropWhile isWS (rev m) = rev m).
  { rewrite E2, rev_app_distr. simpl. rewrite Hl. reflexivity. }
  destruct (forallb isWS (rev ([32] ++ T))).
  - rewrite Hrm, rev_involutive. exists []. rewrite app_nil_r. reflexivity.
  - rewrite rev_app_distr, rev_involutive. eexists. reflexivity.
Qed.

(** Commenting a line that is not commented, then toggling again, gives
    the line back. *)
Lemma toggledLine_roundtrip (m line : jsstr) :
  markerOk m -> startsWith (trim line) m = false ->
  toggledLine m (toggledLine m line) = line.
Proof.
  intros Hm H. rewrite (toggledLine_comment m line H).
  set (I := takeWhile isWS line). set (T := dropWhile isWS line).
  assert (HI : forallb isWS I = true) by apply takeWhile_all.
  assert (Hne : m <> []) by (apply markerOk_nonempty; exact Hm).
  unfold toggledLine at 1.
  destruct (trim_commented m I T Hm HI) as [w Hw].
  rewrite Hw, startsWith_app.
  assert (Hidx : indexOfZ (I ++ m ++ [32] ++ T) m = Z.of_nat (length I)).
  { unfold indexOfZ, indexOf. simpl Nat.min. simpl skipn.
    rewrite indexOf_from_ws_prefix by assumption.
    rewrite indexOf_from_at by assumption. reflexivity. }
  rewrite Hidx.
  change 0%Z with (Z.of_nat 0).
  rewrite <- Nat2Z.inj_add.
  rewrite !length_app. simpl length.
  rewrite jsSubstring_nat by (rewrite !length_app; simpl; lia).
  rewrite jsSubstring_nat by (rewrite !length_app; simpl; lia).
  rewrite Nat.sub_0_r. simpl skipn at 1.
  rewrite firstn_app, Nat.sub_diag, firstn_O, app_nil_r, firstn_all.
  rewrite (app_assoc I m), <- (length_app I m).
  rewrite skipn_app, skipn_all, Nat.sub_diag, skipn_O, app_nil_l.
  rewrite firstn_all2 by (simpl; rewrite length_app; lia).
  simpl. unfold I, T. apply takeWhile_dropWhile.
Qed.

(** Uncommenting: the first occurrence of the marker goes, with one
    whitespace character after it if there is one. *)
Lemma toggledLine_uncomment (m line : jsstr) :
  markerOk m -> startsWith (trim line) m = true ->
  exists k, indexOf line m 0 = Some k /\ (k + length m <= length line)%nat
            /\ toggledLine m line = firstn k line ++ dropOneLeadingWS (skipn (k + length m) line).
Proof.
  intros Hm H.
  assert (Hne : m <> []) by (apply markerOk_nonempty; exact Hm).
  destruct (trim_infix line) as (a & b & Hab).
  destruct (startsWith_split _ _ H) as [w Hw].
  assert (Hj : startsWith (skipn (length a) line) m = true).
  { rewrite Hab, Hw, skipn_app, Nat.sub_diag, skipn_all, app_nil_l, skipn_O.
    rewrite <- app_assoc. apply startsWith_app. }
  destruct (indexOf_from_exists line m 0 (length a) Hj) as [k Hk].
  pose proof (indexOf_from_found _ _ _ _ Hk) as [_ Hs].
  rewrite Nat.sub_0_r in Hs.
  assert (Hlen : (k + length m <= length line)%nat).
  { apply startsWith_length in Hs. rewrite length_skipn in Hs.
    destruct m; [congruence|]. simpl in Hs |- *. lia. }
  assert (Hidx : indexOf line m 0 = Some k) by exact Hk.
  exists k. split; [exact Hidx|]. split; [exact Hlen|].
  unfold toggledLine. rewrite H.
  unfold indexOfZ. rewrite Hidx.
  change 0%Z with (Z.of_nat 0).
  rewrite <- Nat2Z.inj_add.
  rewrite !jsSubstring_nat by lia.
  rewrite Nat.sub_0_r, skipn_O.
  rewrite (@firstn_all2 N (length line - (k + length m))%nat (skipn (k + length m) line)) by (rewrite length_skipn; lia).
  reflexivity.
Qed.

(** Uncommenting subtracts [marker.length + 1] from the cursor: with the
    cursor closer than that to the start of the document the anchor is
    negative and the dispatch throws. *)
Lemma toggleLineComment_uncomment_range_error (lang : option jsstr) (ls : lines) (from : nat) :
  startsWith (trim (lineText ls (lineAt ls from))) (getCommentSyntax lang) = true ->
  (from < length (getCommentSyntax lang) + 1)%nat ->
  toggleLineComment lang ls from = DispatchRangeError.
Proof.
  intros H Hlt. unfold toggleLineComment. cbv zeta.
  assert (Hne : getCommentSyntax lang <> []).
  { apply markerOk_nonempty, getCommentSyntax_markerOk. }
  destruct (length (getCommentSyntax lang) =? 0)%nat eqn:E.
  { apply Nat.eqb_eq, length_zero_iff_nil in E. contradiction. }
  rewrite H. unfold dispatchAnchor.
  replace (0 <=? Z.of_nat from - Z.of_nat (length (getCommentSyntax lang)) - 1)%Z with false
    by (symmetry; apply Z.leb_gt; lia).
  reflexivity.
Qed.

(** C7: with the language JavaScript, [toggleLineComment] turns the line
    ["  foo();"] into ["  // foo();"] and back, wherever the cursor is on
    it; for every language and line, commenting inserts the marker and a
    space right after the leading indentation, uncommenting removes the
    first occurrence of the marker and one whitespace character after it
    (if any), and commenting then toggling again gives the line back.
    But uncommenting moves the cursor back by [marker.length + 1]: with the
    cursor less than that from the start of the document, the new anchor is
    negative, [view.dispatch] throws a [RangeError] and the line stays
    commented, as on ["// a"] with the cursor at 0 (anchor [-3]). *)
Theorem toggleLineComment_example_and_shape :
  (forall c : nat, (c <= 8)%nat ->
      toggleLineComment (Some (u "JavaScript")) [u "  foo();"] c
      = Dispatched ([u "  // foo();"], (c + 3)%nat)
      /\ toggleLineComment (Some (u "JavaScript")) [u "  // foo();"] (c + 3)
         = Dispatched ([u "  foo();"], c))
  /\ (forall lang line,
        startsWith (trim line) (getCommentSyntax lang) = false ->
        toggledLine (getCommentSyntax lang) line
        = takeWhile isWS line ++ getCommentSyntax lang ++ [32] ++ dropWhile isWS line
        /\ toggledLine (getCommentSyntax lang) (toggledLine (getCommentSyntax lang) line)
           = line)
  /\ (forall lang line,
        startsWith (trim line) (getCommentSyntax lang) = true ->
        exists k, indexOf line (getCommentSyntax lang) 0 = Some k
          /\ toggledLine (getCommentSyntax lang) line
             = firstn k line
               ++ dropOneLeadingWS (skipn (k + length (getCommentSyntax lang)) line))
  /\ toggleLineComment (Some (u "JavaScript")) [u "// a"] 0 = DispatchRangeError
  /\ (forall lang ls from,
        startsWith (trim (lineText ls (lineAt ls from))) (getCommentSyntax lang) = true ->
        (from < length (getCommentSyntax lang) + 1)%nat ->
        toggleLineComment lang ls from = DispatchRangeError).
Proof.
  split; [|split; [|split; [|split]]].
  - intros c Hc. split.
    + unfold toggleLineComment, dispatchAnchor, lineAt. simpl.
      repeat match goal with
             | |- context [(?a <=? ?b)%Z] =>
                 replace (a <=? b)%Z with true by (symmetry; apply Z.leb_le; lia)
             end.
      simpl. f_equal. f_equal. lia.
    + unfold toggleLineComment, dispatchAnchor, lineAt. simpl.
      repeat match goal with
             | |- context [(?a <=? ?b)%Z] =>
                 replace (a <=? b)%Z with true by (symmetry; apply Z.leb_le; lia)
             end.
      simpl. f_equal. f_equal. lia.
  - intros lang line H. split.
    + apply toggledLine_comment. exact H.
    + apply toggledLine_roundtrip; [apply getCommentSyntax_markerOk|exact H].
  - intros lang line H.
    destruct (toggledLine_uncomment _ line (getCommentSyntax_markerOk lang) H)
      as (k & Hk & _ & Ht).
    exists k. split; assumption.
  - reflexivity.
  - exact toggleLineComment_uncomment_range_error.
Qed.

Lemma toggleLineComment_example_and_shape_witness :
  startsWith (trim (u "  x = 1")) (getCommentSyntax (Some (u "python"))) = false
  /\ toggledLine (getCommentSyntax (Some (u "python"))) (u "  x = 1")
     = takeWhile isWS (u "  x = 1") ++ getCommentSyntax (Some (u "python")) ++ [32]
       ++ dropWhile isWS (u "  x = 1")
  /\ toggledLine (getCommentSyntax (Some (u "python")))
       (toggledLine (getCommentSyntax (Some (u "python"))) (u "  x = 1")) = u "  x = 1".
Proof.
  assert (H : startsWith (trim (u "  x = 1")) (getCommentSyntax (Some (u "python"))) = false)
    by reflexivity.
  split; [exact H|].
  exact (proj1 (proj2 toggleLineComment_example_and_shape) (Some (u "python")) (u "  x = 1") H).
Defined.

(** ** Sorting lines *)

Section SortFacts.

Variable cmp : jsstr -> jsstr -> Z.

(** A consistent comparator ([Array.prototype.sort]'s requirement): "not
    after" is transitive and a positive answer is negative the other way. *)
Hypothesis cmp_trans : forall a b c, (cmp a b <= 0)%Z -> (cmp b c <= 0)%Z -> (cmp a c <= 0)%Z.
Hypothesis cmp_antisym : forall a b, (0 < cmp a b)%Z -> (cmp b a < 0)%Z.

Let notAfter := notAfter cmp.

Lemma notAfter_trans : Transitive notAfter.
Proof. intros a b c. apply cmp_trans. Qed.

Lemma insertSorted_perm (x : jsstr) (l : lines) : Permutation (insertSorted cmp x l) (x :: l).
Proof.
  induction l as [|y l IH]; [reflexivity|]. simpl.
  destruct (cmp y x <=? 0)%Z; [|reflexivity].
  transitivity (y :: x :: l); [constructor; exact IH|constructor].
Qed.

Lemma fold_insert_perm (l acc : lines) :
  Permutation (fold_left (fun acc x => insertSorted cmp x acc) l acc) (acc ++ l).
Proof.
  revert acc. induction l as [|x l IH]; intros acc; simpl.
  - rewrite app_nil_r. reflexivity.
  - rewrite IH. rewrite insertSorted_perm.
    simpl. apply Permutation_middle.
Qed.

Lemma sortBy_perm (l : lines) : Permutation (sortBy cmp l) l.
Proof. apply fold_insert_perm. Qed.

Lemma insertSorted_hd (y x : jsstr) (l : lines) :
  HdRel notAfter y l -> notAfter y x -> HdRel notAfter y (insertSorted cmp x l).
Proof.
  intros Hl Hx. destruct l as [|z l]; simpl.
  - constructor. exact Hx.
  - destruct (cmp z x <=? 0)%Z; constructor; [inversion Hl; assumption|exact Hx].
Qed.

Lemma insertSorted_sorted (x : jsstr) (l : lines) :
  Sorted notAfter l -> Sorted notAfter (insertSorted cmp x l).
Proof.
  induction 1 as [|y l Hs IH Hhd]; simpl.
  - repeat constructor.
  - destruct (cmp y x <=? 0)%Z eqn:E.
    + constructor; [exact IH|]. apply insertSorted_hd; [exact Hhd|].
      apply Z.leb_le. exact E.
    + constructor; [constructor; assumption|]. constructor.
      apply Z.leb_gt in E. apply Z.lt_le_incl. apply cmp_antisym. exact E.
Qed.

Lemma sortBy_sorted (l : lines) : Sorted notAfter (sortBy cmp l).
Proof.
  unfold sortBy. assert (H : Sorted notAfter (@nil jsstr)) by constructor.
  revert H. generalize (@nil jsstr). induction l as [|x l IH]; intros acc Hacc; simpl.
  - exact Hacc.
  - apply IH. apply insertSorted_sorted. exact Hacc.
Qed.

Lemma insertSorted_last (x : jsstr) (l : lines) :
  (forall y, In y l -> notAfter y x) -> insertSorted cmp x l = l ++ [x].
Proof.
  induction l as [|y l IH]; intros H; [reflexivity|]. simpl.
  replace (cmp y x <=? 0)%Z with true
    by (symmetry; apply Z.leb_le; apply H; left; reflexivity).
  rewrite IH; [reflexivity|]. intros z Hz. apply H. right. exact Hz.
Qed.

Lemma StronglySorted_app_before (acc l : lines) (x : jsstr) :
  StronglySorted notAfter (acc ++ x :: l) -> forall y, In y acc -> notAfter y x.
Proof.
  induction acc as [|a acc IH]; intros H y Hy; [destruct Hy|].
  apply StronglySorted_inv in H as [H Hf].
  destruct Hy as [<-|Hy].
  - rewrite Forall_forall in Hf. apply Hf. apply in_or_app. right. left. reflexivity.
  - exact (IH H y Hy).
Qed.

Lemma fold_insert_sorted_id (l acc : lines) :
  StronglySorted notAfter (acc ++ l) ->
  fold_left (fun acc x => insertSorted cmp x acc) l acc = acc ++ l.
Proof.
  revert acc. induction l as [|x l IH]; intros acc H; simpl.
  - rewrite app_nil_r. reflexivity.
  - rewrite insertSorted_last by (apply (StronglySorted_app_before acc l x H)).
    rewrite IH; [rewrite <- app_assoc; reflexivity|].
    rewrite <- app_assoc. exact H.
Qed.

(** Sorting sorted lines changes nothing. *)
Lemma sortBy_sorted_id (l : lines) : Sorted notAfter l -> sortBy cmp l = l.
Proof.
  intros H. apply Sorted_StronglySorted in H; [|exact notAfter_trans].
  apply (fold_insert_sorted_id l []). exact H.
Qed.

Lemma sortBy_idem (l : lines) : sortBy cmp (sortBy cmp l) = sortBy cmp l.
Proof. apply sortBy_sorted_id. apply sortBy_sorted. Qed.

Lemma sortBy_short (l : lines) : (length l <= 1)%nat -> sortBy cmp l = l.
Proof.
  intros H. destruct l as [|x [|y l]]; [reflexivity|reflexivity|simpl in H; lia].
Qed.

End SortFacts.

(** ** Positions of the line model *)

Lemma lineFrom_firstn (ls : lines) (n : nat) : lineFrom ls (S n) = sumlen (firstn n ls).
Proof.
  revert ls. induction n as [|n IH]; intros ls; [destruct ls; reflexivity|].
  destruct ls as [|l r]; [reflexivity|]. simpl. rewrite <- IH. reflexivity.
Qed.

Lemma lineAtAux_cons (l : jsstr) (rest : lines) (pos num : nat) : rest <> [] ->
  lineAtAux (l :: rest) pos num =
  if Nat.leb pos (length l) then num else lineAtAux rest (pos - length l - 1) (S num).
Proof. intros H. destruct rest; [congruence|reflexivity]. Qed.

Lemma lineAtAux_skip (pre rest : lines) (p num : nat) : rest <> [] ->
  lineAtAux (pre ++ rest) (sumlen pre + p) num = lineAtAux rest p (num + length pre).
Proof.
  intros Hr. revert num. induction pre as [|l pre IH]; intros num.
  - simpl. rewrite Nat.add_0_r. reflexivity.
  - rewrite <- app_comm_cons. cbn [sumlen length].
    rewrite lineAtAux_cons by (destruct pre; simpl; [exact Hr|discriminate]).
    replace (Nat.leb (length l + 1 + sumlen pre + p) (length l)) with false
      by (symmetry; apply Nat.leb_gt; lia).
    replace (length l + 1 + sumlen pre + p - length l - 1)%nat with (sumlen pre + p)%nat by lia.
    rewrite IH. f_equal. lia.
Qed.

Lemma lineAtAux_start (mid suf : lines) (num : nat) : mid <> [] ->
  lineAtAux (mid ++ suf) 0 num = num.
Proof.
  intros H. destruct mid as [|l mid]; [congruence|]. simpl.
  destruct (mid ++ suf); reflexivity.
Qed.

Lemma lineAtAux_end (mid suf : lines) (num : nat) : mid <> [] ->
  lineAtAux (mid ++ suf) (length (join mid)) num = (num + length mid - 1)%nat.
Proof.
  revert num. induction mid as [|l m IH]; intros num Hne; [congruence|].
  destruct m as [|l' m'].
  - simpl. destruct suf; [lia|]. rewrite Nat.leb_refl. lia.
  - change (join (l :: l' :: m')) with (l ++ [LF] ++ join (l' :: m')).
    rewrite <- app_comm_cons. rewrite lineAtAux_cons by discriminate.
    rewrite !length_app.
    replace (Nat.leb (length l + (length [LF] + length (join (l' :: m')))) (length l)) with false
      by (symmetry; apply Nat.leb_gt; simpl; lia).
    replace (length l + (length [LF] + length (join (l' :: m'))) - length l - 1)%nat
      with (length (join (l' :: m'))) by (simpl; lia).
    rewrite IH by discriminate. simpl. lia.
Qed.

Lemma lineAtAux_lower (ls : lines) (p num : nat) : (num <= lineAtAux ls p num)%nat.
Proof.
  revert p num. induction ls as [|l r IH]; intros p num; [simpl; lia|].
  destruct r as [|l' r']; [simpl; lia|].
  rewrite lineAtAux_cons by discriminate. destruct (Nat.leb p (length l)); [lia|].
  specialize (IH (p - length l - 1)%nat (S num)). lia.
Qed.

Lemma lineAtAux_range (ls : lines) (p num : nat) : ls <> [] ->
  (num <= lineAtAux ls p num <= num + length ls - 1)%nat.
Proof.
  revert p num. induction ls as [|l r IH]; intros p num Hne; [congruence|].
  destruct r as [|l' r']; [simpl; lia|].
  rewrite lineAtAux_cons by discriminate. destruct (Nat.leb p (length l)); [simpl; lia|].
  specialize (IH (p - length l - 1)%nat (S num) ltac:(discriminate)). simpl in *. lia.
Qed.

Lemma lineAt_range (ls : lines) (p : nat) : ls <> [] -> (1 <= lineAt ls p <= length ls)%nat.
Proof. intros H. pose proof (lineAtAux_range ls p 1 H). unfold lineAt. lia. Qed.

Lemma lineAtAux_mono (ls : lines) (p q num : nat) : (p <= q)%nat ->
  (lineAtAux ls p num <= lineAtAux ls q num)%nat.
Proof.
  revert p q num. induction ls as [|l r IH]; intros p q num Hpq; [simpl; lia|].
  destruct r as [|l' r']; [simpl; lia|].
  rewrite (lineAtAux_cons l _ p), (lineAtAux_cons l _ q) by discriminate.
  destruct (Nat.leb p (length l)) eqn:Ep, (Nat.leb q (length l)) eqn:Eq.
  - lia.
  - pose proof (lineAtAux_lower (l' :: r') (q - length l - 1) (S num)). lia.
  - apply Nat.leb_gt in Ep. apply Nat.leb_le in Eq. lia.
  - apply IH. lia.
Qed.

Lemma linesBetween_mid (pre mid suf : lines) :
  linesBetween (pre ++ mid ++ suf) (S (length pre)) (length pre + length mid) = mid.
Proof.
  unfold linesBetween.
  replace (S (length pre + length mid) - S (length pre))%nat with (length mid) by lia.
  revert pre. induction mid as [|a mid IH]; intros pre; [reflexivity|].
  simpl. f_equal.
  - unfold lineText. simpl. rewrite ?Nat.sub_0_r. apply nth_middle.
  - specialize (IH (pre ++ [a])). rewrite length_app in IH. simpl in IH.
    rewrite <- app_assoc in IH. simpl in IH.
    replace (length pre + 1)%nat with (S (length pre)) in IH by lia. exact IH.
Qed.

Lemma jsstr_list_eqb_refl (a : lines) : jsstr_list_eqb a a = true.
Proof. unfold jsstr_list_eqb. destruct (list_eq_dec (list_eq_dec N.eq_dec) a a); congruence. Qed.

Lemma join_two_lines (x y : jsstr) (r : lines) : (1 <= length (join (x :: y :: r)))%nat.
Proof. change (join (x :: y :: r)) with (x ++ [LF] ++ join (y :: r)). rewrite !length_app. simpl. lia. Qed.

Section SortLinesFacts.

Variable cmp : jsstr -> jsstr -> Z.
Hypothesis cmp_trans : forall a b c, (cmp a b <= 0)%Z -> (cmp b c <= 0)%Z -> (cmp a c <= 0)%Z.
Hypothesis cmp_antisym : forall a b, (0 < cmp a b)%Z -> (cmp b a < 0)%Z.

(** The range chosen by the first pass lies within the document. *)
Lemma sortLinesWith_range (ls : lines) (anchor head : nat) : ls <> [] ->
  exists s e,
    (if Nat.eqb anchor head then (1%nat, length ls)
     else (lineAt ls (Nat.min anchor head), lineAt ls (Nat.max anchor head))) = (s, e)
    /\ (1 <= s <= e)%nat /\ (e <= length ls)%nat.
Proof.
  intros Hne. destruct (Nat.eqb anchor head).
  - exists 1%nat, (length ls). split; [reflexivity|]. destruct ls; [congruence|simpl; lia].
  - eexists; eexists; split; [reflexivity|].
    pose proof (lineAt_range ls (Nat.min anchor head) Hne).
    pose proof (lineAt_range ls (Nat.max anchor head) Hne).
    assert (Hm : (Nat.min anchor head <= Nat.max anchor head)%nat) by lia.
    pose proof (lineAtAux_mono ls _ _ 1 Hm). unfold lineAt in *. lia.
Qed.

Lemma sortLinesWith_second_pass (ls : lines) (anchor head : nat) (ls' : lines) (a' h' : nat) :
  ls <> [] -> sortLinesWith cmp ls anchor head = Some (ls', (a', h')) ->
  sortLinesWith cmp ls' a' h' = None.
Proof.
  intros Hne H. unfold sortLinesWith in H. cbv zeta in H.
  destruct (sortLinesWith_range ls anchor head Hne) as (s & e & Hse & Hs & He).
  rewrite Hse in H. cbn beta iota in H.
  set (L := linesBetween ls s e) in H.
  destruct (jsstr_list_eqb L (sortBy cmp L)) eqn:Heq; [discriminate|].
  injection H as <- <- <-.
  set (srt := sortBy cmp L).
  assert (HL : length L = (S e - s)%nat) by (unfold L, linesBetween; rewrite length_map, length_seq; reflexivity).
  assert (Hsrt : length srt = length L) by (apply Permutation_length, sortBy_perm).
  assert (H2 : (2 <= length L)%nat).
  { destruct (Nat.le_gt_cases (length L) 1) as [Hle|Hgt]; [|lia].
    rewrite (sortBy_short cmp L Hle), jsstr_list_eqb_refl in Heq. discriminate. }
  assert (HJ : (1 <= length (join srt))%nat).
  { destruct srt as [|x [|y r]]; simpl in Hsrt; [lia|lia|apply join_two_lines]. }
  set (pre := firstn (s - 1) ls). set (suf := skipn e ls).
  assert (Hpre : length pre = (s - 1)%nat) by (unfold pre; rewrite length_firstn; lia).
  assert (Hfrom : lineFrom ls s = sumlen pre).
  { unfold pre. replace s with (S (s - 1)) at 1 by lia. apply lineFrom_firstn. }
  assert (Hne' : srt <> []) by (intros E; rewrite E in Hsrt; simpl in Hsrt; lia).
  assert (Hne'' : srt ++ suf <> []) by (destruct srt; [congruence|discriminate]).
  unfold replaceLines. fold pre suf.
  unfold sortLinesWith. cbv zeta.
  replace (Nat.eqb (lineFrom ls s) (lineFrom ls s + length (join srt))) with false
    by (symmetry; apply Nat.eqb_neq; lia).
  rewrite Nat.min_l, Nat.max_r by lia.
  assert (E1 : lineAt (pre ++ srt ++ suf) (lineFrom ls s) = s).
  { unfold lineAt. rewrite Hfrom, <- (Nat.add_0_r (sumlen pre)), lineAtAux_skip by exact Hne''.
    rewrite lineAtAux_start by exact Hne'. lia. }
  assert (E2 : lineAt (pre ++ srt ++ suf) (lineFrom ls s + length (join srt)) = e).
  { unfold lineAt. rewrite Hfrom, lineAtAux_skip by exact Hne''.
    rewrite lineAtAux_end by exact Hne'. lia. }
  rewrite E1, E2. cbn beta iota.
  assert (E3 : linesBetween (pre ++ srt ++ suf) s e = srt).
  { replace s with (S (length pre)) by lia.
    replace e with (length pre + length srt)%nat by lia. apply linesBetween_mid. }
  rewrite E3. unfold srt. rewrite sortBy_idem by assumption.
  rewrite jsstr_list_eqb_refl. reflexivity.
Qed.

End SortLinesFacts.

Lemma codeUnitCompare_cases (a b : jsstr) :
  codeUnitCompare a b = (-1)%Z \/ codeUnitCompare a b = 0%Z \/ codeUnitCompare a b = 1%Z.
Proof.
  revert b. induction a as [|x a IH]; intros [|y b]; simpl; auto.
  destruct (N.compare x y); auto.
Qed.

Lemma codeUnitCompare_trans (a b c : jsstr) :
  (codeUnitCompare a b <= 0)%Z -> (codeUnitCompare b c <= 0)%Z -> (codeUnitCompare a c <= 0)%Z.
Proof.
  revert b c. induction a as [|x a IH]; intros [|y b] [|z c]; simpl; try lia.
  destruct (N.compare_spec x y) as [E1|E1|E1]; destruct (N.compare_spec y z) as [E2|E2|E2];
    destruct (N.compare_spec x z) as [E3|E3|E3];
    intros Hab Hbc; try lia.
  apply (IH b c Hab Hbc).
Qed.

Lemma codeUnitCompare_antisym (a b : jsstr) :
  (0 < codeUnitCompare a b)%Z -> (codeUnitCompare b a < 0)%Z.
Proof.
  revert b. induction a as [|x a IH]; intros [|y b]; simpl; try lia.
  rewrite (N.compare_antisym x y).
  destruct (N.compare x y); simpl; intros H; try lia. exact (IH b H).
Qed.

(** Claim C8: for a consistent [localeCompare] ("not after" transitive, a
    positive comparison negative the other way round), [sortLinesAscending]
    and [sortLinesDescending] are idempotent. When a first pass dispatches
    (document [ls'], selection [(a', h')]), the same sort run again on that
    selection finds the lines in order and dispatches nothing ([None]). *)
Theorem sortLines_second_pass_noop (localeCompare : jsstr -> jsstr -> Z)
  (Htrans : forall a b c, (localeCompare a b <= 0)%Z -> (localeCompare b c <= 0)%Z ->
            (localeCompare a c <= 0)%Z)
  (Hanti : forall a b, (0 < localeCompare a b)%Z -> (localeCompare b a < 0)%Z) :
  (forall ls anchor head ls' a' h',
     sortLinesAscending localeCompare ls anchor head = Some (ls', (a', h')) ->
     sortLinesAscending localeCompare ls' a' h' = None)
  /\ (forall ls anchor head ls' a' h',
     sortLinesDescending localeCompare ls anchor head = Some (ls', (a', h')) ->
     sortLinesDescending localeCompare ls' a' h' = None).
Proof.
  split; intros ls anchor head ls' a' h' H;
    (destruct ls as [|l0 ls0];
     [unfold sortLinesAscending, sortLinesDescending, sortLinesWith in H;
      destruct (Nat.eqb anchor head); cbv in H; discriminate|]).
  - exact (sortLinesWith_second_pass _ Htrans Hanti (l0 :: ls0) anchor head ls' a' h'
             ltac:(discriminate) H).
  - refine (sortLinesWith_second_pass _ _ _ (l0 :: ls0) anchor head ls' a' h'
              ltac:(discriminate) H).
    + intros a b c Hab Hbc. exact (Htrans c b a Hbc Hab).
    + intros a b Hab. exact (Hanti b a Hab).
Qed.

Lemma sortLines_second_pass_noop_witness :
  sortLinesAscending codeUnitCompare [u "b"; u "a"; u "c"] 0%nat 0%nat
    = Some ([u "a"; u "b"; u "c"], (0%nat, 5%nat))
  /\ sortLinesAscending codeUnitCompare [u "a"; u "b"; u "c"] 0%nat 5%nat = None
  /\ sortLinesDescending codeUnitCompare [u "b"; u "a"; u "c"] 0%nat 0%nat
    = Some ([u "c"; u "b"; u "a"], (0%nat, 5%nat))
  /\ sortLinesDescending codeUnitCompare [u "c"; u "b"; u "a"] 0%nat 5%nat = None.
Proof.
  pose proof (sortLines_second_pass_noop codeUnitCompare codeUnitCompare_trans
                codeUnitCompare_antisym) as [Hasc Hdesc].
  split; [vm_compute; reflexivity|].
  split; [apply (Hasc [u "b"; u "a"; u "c"] 0%nat 0%nat); vm_compute; reflexivity|].
  split; [vm_compute; reflexivity|].
  apply (Hdesc [u "b"; u "a"; u "c"] 0%nat 0%nat); vm_compute; reflexivity.
Defined.

(** ** The text of the line model *)

Lemma join_cons (l : jsstr) (r : lines) : join (l :: r) = l ++ joinPost r.
Proof.
  revert l. induction r as [|l' r IH]; intros l.
  - simpl. rewrite app_nil_r. reflexivity.
  - change (join (l :: l' :: r)) with (l ++ [LF] ++ join (l' :: r)).
    rewrite IH. reflexivity.
Qed.

Lemma join_app_cons (pre : lines) (l : jsstr) (suf : lines) :
  join (pre ++ l :: suf) = joinPre pre ++ l ++ joinPost suf.
Proof.
  induction pre as [|a pre IH].
  - apply join_cons.
  - rewrite <- app_comm_cons.
    replace (join (a :: pre ++ l :: suf)) with (a ++ [LF] ++ join (pre ++ l :: suf))
      by (destruct pre; reflexivity).
    rewrite IH. simpl. rewrite <- !app_assoc. reflexivity.
Qed.

Lemma length_joinPre (pre : lines) : length (joinPre pre) = sumlen pre.
Proof.
  induction pre as [|a pre IH]; [reflexivity|].
  simpl. rewrite !length_app, IH. simpl. lia.
Qed.

Lemma sumlen_app (a b : lines) : sumlen (a ++ b) = (sumlen a + sumlen b)%nat.
Proof. induction a as [|x a IH]; simpl; [reflexivity|]. rewrite IH. lia. Qed.

Lemma length_joinPost (r : lines) : length (joinPost r) = sumlen r.
Proof.
  induction r as [|x r IH]; simpl; [reflexivity|]. rewrite length_app, IH. lia.
Qed.

Lemma length_join_cons (l : jsstr) (r : lines) :
  length (join (l :: r)) = (length l + sumlen r)%nat.
Proof. rewrite join_cons, length_app, length_joinPost. reflexivity. Qed.

Lemma length_join_app_cons (pre : lines) (l : jsstr) (suf : lines) :
  length (join (pre ++ l :: suf)) = (sumlen pre + length l + sumlen suf)%nat.
Proof.
  rewrite join_app_cons, !length_app, length_joinPre, length_joinPost. lia.
Qed.

Lemma firstn_app_len (A B : jsstr) (k : nat) :
  firstn (length A + k) (A ++ B) = A ++ firstn k B.
Proof.
  rewrite firstn_app, firstn_all2 by lia. f_equal. f_equal. lia.
Qed.

Lemma skipn_app_len (A B : jsstr) (k : nat) :
  skipn (length A + k) (A ++ B) = skipn k B.
Proof.
  rewrite skipn_app, skipn_all2 by lia. simpl. f_equal. lia.
Qed.

Lemma firstn_app_le (A B : jsstr) (k : nat) : (k <= length A)%nat ->
  firstn k (A ++ B) = firstn k A.
Proof.
  intros H. rewrite firstn_app. replace (k - length A)%nat with 0%nat by lia.
  simpl. apply app_nil_r.
Qed.

Lemma skipn_app_le (A B : jsstr) (k : nat) : (k <= length A)%nat ->
  skipn k (A ++ B) = skipn k A ++ B.
Proof.
  intros H. rewrite skipn_app. replace (k - length A)%nat with 0%nat by lia. reflexivity.
Qed.

(** A document split at line [n]. *)
Lemma lines_split (ls : lines) (n : nat) : (1 <= n <= length ls)%nat ->
  ls = firstn (n - 1) ls ++ lineText ls n :: skipn n ls.
Proof.
  intros H. unfold lineText.
  assert (Hk : (n - 1 < length ls)%nat) by lia.
  replace n with (S (n - 1)) at 3 by lia.
  generalize (n - 1)%nat Hk. clear n H Hk.
  induction ls as [|x ls IH]; intros k Hk; simpl in Hk; [lia|].
  destruct k as [|k]; [reflexivity|]. simpl. f_equal. apply IH. lia.
Qed.

Lemma length_firstn_le (ls : lines) (k : nat) : (k <= length ls)%nat -> length (firstn k ls) = k.
Proof. intros H. rewrite length_firstn. lia. Qed.

Lemma lineFrom_split (pre : lines) (l : jsstr) (suf : lines) :
  lineFrom (pre ++ l :: suf) (S (length pre)) = sumlen pre.
Proof.
  rewrite lineFrom_firstn, firstn_app, firstn_all2 by lia.
  replace (length pre - length pre)%nat with 0%nat by lia. simpl. rewrite app_nil_r. reflexivity.
Qed.

Lemma lineText_split (pre : lines) (l : jsstr) (suf : lines) :
  lineText (pre ++ l :: suf) (S (length pre)) = l.
Proof. unfold lineText. simpl. rewrite Nat.sub_0_r. apply nth_middle. Qed.

Lemma lineTo_split (pre : lines) (l : jsstr) (suf : lines) :
  lineTo (pre ++ l :: suf) (S (length pre)) = (sumlen pre + length l)%nat.
Proof. unfold lineTo. rewrite lineFrom_split, lineText_split. reflexivity. Qed.

(** A position within line [n] (from its start to its end) is on line [n]. *)
Lemma lineAt_split (pre : lines) (l : jsstr) (suf : lines) (c : nat) :
  (c <= length l)%nat -> lineAt (pre ++ l :: suf) (sumlen pre + c) = S (length pre).
Proof.
  intros Hc. unfold lineAt. rewrite lineAtAux_skip by discriminate.
  destruct suf as [|x suf]; simpl; [lia|].
  replace (c <=? length l)%nat with true by (symmetry; apply Nat.leb_le; exact Hc). lia.
Qed.

(** Where [lineAt] puts a position of the document. *)
Lemma lineAtAux_bounds (ls : lines) (p num : nat) : ls <> [] -> (p <= length (join ls))%nat ->
  exists i, lineAtAux ls p num = (num + i)%nat /\ (i < length ls)%nat
            /\ (sumlen (firstn i ls) <= p <= sumlen (firstn i ls) + length (nth i ls []))%nat.
Proof.
  revert p num. induction ls as [|l r IH]; intros p num Hne Hp; [congruence|].
  destruct r as [|l' r'].
  - exists 0%nat. simpl in *. lia.
  - rewrite lineAtAux_cons by discriminate.
    rewrite length_join_cons in Hp. simpl in Hp.
    destruct (p <=? length l)%nat eqn:E.
    + apply Nat.leb_le in E. exists 0%nat. simpl. lia.
    + apply Nat.leb_gt in E.
      destruct (IH (p - length l - 1)%nat (S num)) as (i & H1 & H2 & H3); [discriminate| |].
      * rewrite length_join_cons. simpl. lia.
      * exists (S i). rewrite H1. simpl in *. lia.
Qed.

Lemma lineAt_bounds (ls : lines) (p : nat) : ls <> [] -> (p <= length (join ls))%nat ->
  (1 <= lineAt ls p <= length ls)%nat
  /\ (lineFrom ls (lineAt ls p) <= p <= lineTo ls (lineAt ls p))%nat.
Proof.
  intros Hne Hp. destruct (lineAtAux_bounds ls p 1 Hne Hp) as (i & H1 & H2 & H3).
  unfold lineAt. rewrite H1. replace (1 + i)%nat with (S i) by lia.
  unfold lineTo, lineText. rewrite lineFrom_firstn. simpl. rewrite Nat.sub_0_r. lia.
Qed.

(** One change inside line [S (length pre)]. *)
Lemma applyChange_in_line (pre : lines) (l : jsstr) (suf : lines) (a b : nat) (ins : jsstr) :
  (a <= b <= length l)%nat ->
  applyChange (join (pre ++ l :: suf)) ((sumlen pre + a)%nat, (sumlen pre + b)%nat, ins)
  = join (pre ++ (firstn a l ++ ins ++ skipn b l) :: suf).
Proof.
  intros H. unfold applyChange. rewrite !join_app_cons, <- !length_joinPre.
  rewrite firstn_app_len, skipn_app_len, firstn_app_le, skipn_app_le by lia.
  rewrite <- !app_assoc. reflexivity.
Qed.

Lemma line_decomp (ls : lines) (n : nat) : (1 <= n <= length ls)%nat ->
  exists pre l suf, ls = pre ++ l :: suf /\ length pre = (n - 1)%nat.
Proof.
  intros H. exists (firstn (n - 1) ls), (lineText ls n), (skipn n ls).
  split; [apply lines_split; exact H|]. apply length_firstn_le. lia.
Qed.

Lemma firstn_pre (pre rest : lines) : firstn (length pre) (pre ++ rest) = pre.
Proof. rewrite firstn_app, firstn_all2, Nat.sub_diag by lia. simpl. apply app_nil_r. Qed.

Lemma skipn_pre (pre rest : lines) : skipn (length pre) (pre ++ rest) = rest.
Proof. rewrite skipn_app, skipn_all2, Nat.sub_diag by lia. reflexivity. Qed.

Lemma skipn_app_exact {A : Type} (a b : list A) (n : nat) : length a = n -> skipn n (a ++ b) = b.
Proof. intros <-. rewrite skipn_app, skipn_all, Nat.sub_diag. reflexivity. Qed.

Lemma firstn_app_exact {A : Type} (a b : list A) (n : nat) : length a = n -> firstn n (a ++ b) = a.
Proof. intros <-. rewrite firstn_app, firstn_all, Nat.sub_diag. simpl. apply app_nil_r. Qed.

Lemma joinPre_app (a b : lines) : joinPre (a ++ b) = joinPre a ++ joinPre b.
Proof. apply flat_map_app. Qed.

Lemma replace_whole_line (pre : lines) (l : jsstr) (suf : lines) (ins : jsstr) :
  applyChange (join (pre ++ l :: suf)) (sumlen pre, (sumlen pre + length l)%nat, ins)
  = join (pre ++ ins :: suf).
Proof.
  pose proof (applyChange_in_line pre l suf 0 (length l) ins ltac:(lia)) as H.
  rewrite Nat.add_0_r, skipn_all in H. simpl in H. rewrite app_nil_r in H. exact H.
Qed.

(** Two adjacent lines [a] (line [S (length pre)]) and [b]. *)
Lemma two_lines_positions (pre : lines) (a b : jsstr) (suf : lines) :
  let ls := pre ++ a :: b :: suf in
  lineFrom ls (S (length pre)) = sumlen pre
  /\ lineTo ls (S (length pre)) = (sumlen pre + length a)%nat
  /\ lineText ls (S (length pre)) = a
  /\ lineFrom ls (S (S (length pre))) = (sumlen pre + length a + 1)%nat
  /\ lineTo ls (S (S (length pre))) = (sumlen pre + length a + 1 + length b)%nat
  /\ lineText ls (S (S (length pre))) = b.
Proof.
  cbv zeta. rewrite lineFrom_split, lineTo_split, lineText_split.
  replace (pre ++ a :: b :: suf) with ((pre ++ [a]) ++ b :: suf) by (rewrite <- app_assoc; reflexivity).
  replace (S (S (length pre))) with (S (length (pre ++ [a]))) by (rewrite length_app; simpl; lia).
  rewrite lineFrom_split, lineTo_split, lineText_split, sumlen_app. simpl.
  repeat split; lia.
Qed.

(** The two changes of [moveLineUp] and [moveLineDown]: lines [a] and [b]
    replaced by [x] and [y]. *)
Lemma applyChanges_two_lines (pre : lines) (a b : jsstr) (suf : lines) (x y : jsstr) :
  applyChanges (join (pre ++ a :: b :: suf))
    [(sumlen pre, (sumlen pre + length a)%nat, x);
     ((sumlen pre + length a + 1)%nat, (sumlen pre + length a + 1 + length b)%nat, y)]
  = join (pre ++ x :: y :: suf).
Proof.
  unfold applyChanges. cbn [fold_right].
  replace (pre ++ a :: b :: suf) with ((pre ++ [a]) ++ b :: suf) by (rewrite <- app_assoc; reflexivity).
  replace (sumlen pre + length a + 1)%nat with (sumlen (pre ++ [a])) by (rewrite sumlen_app; simpl; lia).
  rewrite replace_whole_line, <- app_assoc. simpl app.
  apply replace_whole_line.
Qed.

(** ** Navigation *)

(** Extra: [goToLine] refuses line numbers outside [1 .. doc.lines]; for a
    valid one, [getCursorPosition] then reports that line, column 1. *)
Theorem goToLine_getCursorPosition (ls : lines) (n : Z) :
  (((n < 1)%Z \/ (Z.of_nat (length ls) < n)%Z) -> goToLine ls n = None)
  /\ ((1 <= n <= Z.of_nat (length ls))%Z ->
      exists pos, goToLine ls n = Some pos /\ getCursorPosition ls pos = (Z.to_nat n, 1%nat)).
Proof.
  split.
  - intros H. unfold goToLine.
    destruct H as [H|H]; [rewrite (proj2 (Z.ltb_lt _ _) H)|rewrite (proj2 (Z.ltb_lt _ _) H), orb_true_r];
      reflexivity.
  - intros H. unfold goToLine.
    rewrite (proj2 (Z.ltb_ge n 1)), (proj2 (Z.ltb_ge (Z.of_nat (length ls)) n)) by lia.
    simpl. eexists; split; [reflexivity|].
    destruct (line_decomp ls (Z.to_nat n)) as (pre & l & suf & -> & Hpre); [lia|].
    replace (Z.to_nat n) with (S (length pre)) by lia.
    unfold getCursorPosition. rewrite lineFrom_split.
    rewrite <- (Nat.add_0_r (sumlen pre)), lineAt_split by lia.
    rewrite lineFrom_split. f_equal. lia.
Qed.

(** Extra: for a position of the document, [getCursorPosition] gives a line
    of the document and a 1-based column within that line (at most its
    length plus one), from which the position is recovered. *)
Theorem getCursorPosition_in_line (ls : lines) (head : nat) :
  ls <> [] -> (head <= length (join ls))%nat ->
  let '(line, column) := getCursorPosition ls head in
  (1 <= line <= length ls)%nat /\ (1 <= column <= S (length (lineText ls line)))%nat
  /\ (lineFrom ls line + column - 1)%nat = head.
Proof.
  intros Hne Hh. destruct (lineAt_bounds ls head Hne Hh) as [H1 H2].
  unfold getCursorPosition, lineTo in *. lia.
Qed.

(** ** [duplicateLine] *)

(** Extra: with an empty selection, [duplicateLine] inserts a copy of the
    cursor's line right below it and puts the cursor at the end of the copy;
    with a selection [[from, to]], it inserts the selected text again right
    after it and selects the copy. *)
Theorem duplicateLine_spec (ls : lines) (from to : nat) :
  ls <> [] -> (from <= to <= length (join ls))%nat ->
  (from = to ->
   let n := lineAt ls from in
   let ls' := firstn n ls ++ lineText ls n :: skipn n ls in
   exists c, duplicateLine ls from to = (join ls', (c, c))
             /\ getCursorPosition ls' c = (S n, S (length (lineText ls n))))
  /\ ((from < to)%nat ->
      let T := join ls in
      let sel := substring T from to in
      exists T', duplicateLine ls from to = (T', (to, (to + length sel)%nat))
                 /\ T' = firstn to T ++ sel ++ skipn to T
                 /\ substring T' to (to + length sel) = sel).
Proof.
  intros Hne Hft. split.
  - intros <-. cbv zeta.
    destruct (lineAt_bounds ls from Hne ltac:(lia)) as [Hn _].
    remember (lineAt ls from) as n eqn:En.
    destruct (line_decomp ls n Hn) as (pre & l & suf & Hls & Hpre).
    unfold duplicateLine. rewrite Nat.eqb_refl, <- En.
    rewrite Hls. replace n with (S (length pre)) by lia.
    rewrite lineText_split, lineTo_split.
    replace (firstn (S (length pre)) (pre ++ l :: suf)) with (pre ++ [l])
      by (rewrite firstn_app, firstn_all2, Nat.sub_succ_l, Nat.sub_diag by lia; reflexivity).
    replace (skipn (S (length pre)) (pre ++ l :: suf)) with suf
      by (rewrite skipn_app, skipn_all2, Nat.sub_succ_l, Nat.sub_diag by lia; reflexivity).
    eexists; split.
    + f_equal.
      transitivity (join (pre ++ (firstn (length l) l ++ (LF :: l) ++ skipn (length l) l) :: suf));
        [apply applyChange_in_line; lia|].
      rewrite firstn_all, skipn_all, app_nil_r, <- app_assoc.
      rewrite (app_assoc pre [l]), !join_app_cons, joinPre_app. simpl.
      rewrite <- !app_assoc. reflexivity.
    + unfold getCursorPosition. simpl length.
      replace (sumlen pre + length l + S (length l))%nat
        with (sumlen (pre ++ [l]) + length l)%nat by (rewrite sumlen_app; simpl; lia).
      rewrite <- app_assoc. simpl app.
      replace (pre ++ l :: l :: suf) with ((pre ++ [l]) ++ l :: suf)
        by (rewrite <- app_assoc; reflexivity).
      rewrite lineAt_split by lia. rewrite lineFrom_split, length_app. simpl.
      f_equal; lia.
  - intros Hlt. cbv zeta. unfold duplicateLine.
    replace (Nat.eqb from to) with false by (symmetry; apply Nat.eqb_neq; lia).
    eexists; split; [reflexivity|]. split; [reflexivity|].
    unfold applyChange, substring.
    replace (to + length (firstn (to - from) (skipn from (join ls))) - to)%nat
      with (length (firstn (to - from) (skipn from (join ls)))) by lia.
    set (S := firstn (to - from) (skipn from (join ls))).
    assert (HA : length (firstn to (join ls)) = to) by (rewrite length_firstn; lia).
    rewrite (skipn_app_exact (firstn to (join ls))) by exact HA.
    rewrite firstn_app, Nat.sub_diag, firstn_all. simpl. apply app_nil_r.
Qed.

(** ** [deleteLine] *)

(** Extra: [deleteLine] removes the cursor's line with its line break and
    puts the cursor where the line started; on the last line there is no
    break after it, so the line is emptied and the document keeps its
    number of lines (a one-line document becomes empty). *)
Theorem deleteLine_spec (ls : lines) (from : nat) :
  ls <> [] -> (from <= length (join ls))%nat ->
  let n := lineAt ls from in
  ((n < length ls)%nat ->
   deleteLine ls from = (join (firstn (n - 1) ls ++ skipn n ls), lineFrom ls n))
  /\ (n = length ls ->
      deleteLine ls from = (join (firstn (n - 1) ls ++ [[]]), lineFrom ls n)).
Proof.
  intros Hne Hf. cbv zeta.
  destruct (lineAt_bounds ls from Hne Hf) as [Hn _].
  remember (lineAt ls from) as n eqn:En.
  destruct (line_decomp ls n Hn) as (pre & l & suf & Hls & Hpre).
  unfold deleteLine. rewrite <- En. rewrite Hls in *.
  replace n with (S (length pre)) in * by lia. rewrite Nat.sub_succ, Nat.sub_0_r.
  rewrite lineTo_split, lineFrom_split, firstn_pre.
  replace (skipn (S (length pre)) (pre ++ l :: suf)) with suf
    by (rewrite skipn_app, skipn_all2, Nat.sub_succ_l, Nat.sub_diag by lia; reflexivity).
  rewrite length_join_app_cons. rewrite length_app in Hn. simpl in Hn.
  split; intros Hlast.
  - destruct suf as [|s1 suf']; [simpl in Hlast; rewrite length_app in Hlast; simpl in Hlast; lia|].
    replace (sumlen pre + length l <? sumlen pre + length l + sumlen (s1 :: suf'))%nat with true
      by (symmetry; apply Nat.ltb_lt; simpl; lia).
    f_equal. unfold applyChange. rewrite !join_app_cons, <- length_joinPre.
    rewrite firstn_app, firstn_all2, Nat.sub_diag, app_nil_r by lia.
    replace (S (length (joinPre pre) + length l))%nat with (length (joinPre pre) + (length l + 1))%nat
      by lia.
    rewrite skipn_app_len, skipn_app, skipn_all2 by lia.
    replace (length l + 1 - length l)%nat with 1%nat by lia. reflexivity.
  - destruct suf as [|s1 suf']; [|rewrite length_app in Hlast; simpl in Hlast; lia].
    replace (sumlen pre + length l <? sumlen pre + length l + sumlen [])%nat with false
      by (symmetry; apply Nat.ltb_ge; simpl; lia).
    f_equal. unfold applyChange. rewrite !join_app_cons, <- length_joinPre.
    rewrite firstn_app, firstn_all2, Nat.sub_diag, app_nil_r by lia.
    rewrite skipn_app_len, (skipn_app_exact l) by reflexivity. reflexivity.
Qed.

(** ** [moveLineUp] and [moveLineDown] *)

Lemma skipn_two_lines (pre : lines) (a b : jsstr) (suf : lines) :
  skipn (S (S (length pre))) (pre ++ a :: b :: suf) = suf.
Proof.
  replace (pre ++ a :: b :: suf) with ((pre ++ [a; b]) ++ suf) by (rewrite <- app_assoc; reflexivity).
  apply skipn_app_exact. rewrite length_app. simpl. lia.
Qed.

Lemma length_join_swap (pre : lines) (a b : jsstr) (suf : lines) :
  length (join (pre ++ b :: a :: suf)) = length (join (pre ++ a :: b :: suf)).
Proof. rewrite !length_join_app_cons. cbn [sumlen]. lia. Qed.

Lemma dispatchAnchor_in {A : Type} (a : A) (n k : nat) :
  (k <= n)%nat -> dispatchAnchor a n (Z.of_nat k) = Dispatched (a, k).
Proof.
  intros H. unfold dispatchAnchor.
  replace ((0 <=? Z.of_nat k)%Z && (Z.of_nat k <=? Z.of_nat n)%Z) with true
    by (symmetry; apply andb_true_iff; split; apply Z.leb_le; lia).
  rewrite Nat2Z.id. reflexivity.
Qed.

Lemma dispatchAnchor_out {A : Type} (a : A) (n k : nat) :
  (n < k)%nat -> dispatchAnchor a n (Z.of_nat k) = DispatchRangeError.
Proof.
  intros H. unfold dispatchAnchor.
  replace (Z.of_nat k <=? Z.of_nat n)%Z with false by (symmetry; apply Z.leb_gt; lia).
  rewrite andb_false_r. reflexivity.
Qed.

(** Extra: [moveLineDown] does nothing on the last line; elsewhere it swaps
    the cursor's line [n] with line [n + 1].  The new cursor is
    [nextLine.from] of the document before the swap plus the column, so in
    the new document it is off the start of the moved line by the
    difference of the two lines' lengths: the cursor keeps its column on
    the moved line only when both lines have the same length.  When that
    cursor falls past the end of the document, [view.dispatch] throws a
    [RangeError] and nothing moves. *)
Theorem moveLineDown_spec (ls : lines) (from : nat) :
  ls <> [] -> (from <= length (join ls))%nat ->
  let n := lineAt ls from in
  (n = length ls -> moveLineDown ls from = NoDispatch)
  /\ ((n < length ls)%nat ->
      let ls' := firstn (n - 1) ls ++ lineText ls (S n) :: lineText ls n :: skipn (S n) ls in
      let column := (from - lineFrom ls n)%nat in
      let anchor := (lineFrom ls (S n) + column)%nat in
      ((anchor <= length (join ls))%nat ->
       moveLineDown ls from = Dispatched (join ls', anchor)
       /\ Z.of_nat anchor = (Z.of_nat (lineFrom ls' (S n)) + Z.of_nat column
                             + Z.of_nat (length (lineText ls n))
                             - Z.of_nat (length (lineText ls (S n))))%Z
       /\ (length (lineText ls n) = length (lineText ls (S n)) ->
           getCursorPosition ls' anchor = (S n, S column)))
      /\ ((length (join ls) < anchor)%nat -> moveLineDown ls from = DispatchRangeError)).
Proof.
  intros Hne Hf. cbv zeta.
  destruct (lineAt_bounds ls from Hne Hf) as [Hn Hb].
  remember (lineAt ls from) as n eqn:En.
  split.
  - intros Hl. unfold moveLineDown. rewrite <- En, Hl, Nat.eqb_refl. reflexivity.
  - intros Hlt.
    destruct (line_decomp ls n Hn) as (pre & a & rest & Hls & Hpre).
    destruct rest as [|b suf]; [rewrite Hls, length_app in Hlt; simpl in Hlt; lia|].
    replace n with (S (length pre)) in * by lia. clear Hpre.
    subst ls.
    destruct (two_lines_positions pre a b suf) as (F1 & T1 & X1 & F2 & T2 & X2).
    rewrite F1, T1 in Hb. rewrite F1, X1, X2.
    rewrite Nat.sub_succ, Nat.sub_0_r, firstn_pre, skipn_two_lines.
    destruct (two_lines_positions pre b a suf) as (G1 & _ & _ & G2 & _ & _).
    rewrite G2.
    unfold moveLineDown. rewrite <- En.
    replace (Nat.eqb (S (length pre)) (length (pre ++ a :: b :: suf))) with false
      by (symmetry; apply Nat.eqb_neq; rewrite length_app; simpl; lia).
    rewrite F1, T1, X1, X2, F2, T2, applyChanges_two_lines, length_join_swap.
    split.
    + intros Hin. rewrite dispatchAnchor_in by exact Hin.
      split; [reflexivity|]. split; [lia|].
      intros Hab. unfold getCursorPosition.
      replace (pre ++ b :: a :: suf) with ((pre ++ [b]) ++ a :: suf)
        by (rewrite <- app_assoc; reflexivity).
      replace (sumlen pre + length a + 1 + (from - sumlen pre))%nat
        with (sumlen (pre ++ [b]) + (from - sumlen pre))%nat by (rewrite sumlen_app; simpl; lia).
      rewrite lineAt_split by lia.
      replace (S (length (pre ++ [b]))) with (S (S (length pre))) by (rewrite length_app; simpl; lia).
      rewrite <- app_assoc. simpl app. rewrite G2, sumlen_app. simpl. f_equal. lia.
    + intros Hout. rewrite dispatchAnchor_out by exact Hout. reflexivity.
Qed.

(** Extra: [moveLineUp] does nothing on the first line; elsewhere it swaps
    the cursor's line [n] with line [n - 1] and leaves the cursor on the
    moved line at the same column; when that column is at most the length
    of the line now below it, [moveLineDown] from there swaps the two lines
    back. *)
Theorem moveLineUp_spec (ls : lines) (from : nat) :
  ls <> [] -> (from <= length (join ls))%nat ->
  let n := lineAt ls from in
  (n = 1%nat -> moveLineUp ls from = NoDispatch)
  /\ ((2 <= n)%nat ->
      let ls' := firstn (n - 2) ls ++ lineText ls n :: lineText ls (n - 1) :: skipn n ls in
      let column := (from - lineFrom ls n)%nat in
      exists c, moveLineUp ls from = Dispatched (join ls', c)
        /\ getCursorPosition ls' c = ((n - 1)%nat, S column)
        /\ ((column <= length (lineText ls (n - 1)))%nat ->
            exists c', moveLineDown ls' c = Dispatched (join ls, c'))).
Proof.
  intros Hne Hf. cbv zeta.
  destruct (lineAt_bounds ls from Hne Hf) as [Hn Hb].
  remember (lineAt ls from) as n eqn:En.
  split.
  - intros H1. unfold moveLineUp. rewrite <- En, H1. reflexivity.
  - intros H2.
    destruct (line_decomp ls (n - 1) ltac:(lia)) as (pre & a & rest & Hls & Hpre).
    destruct rest as [|b suf]; [rewrite Hls, length_app in Hn; simpl in Hn; lia|].
    replace n with (S (S (length pre))) in * by lia. clear Hpre.
    subst ls.
    destruct (two_lines_positions pre a b suf) as (F1 & T1 & X1 & F2 & T2 & X2).
    rewrite F2, T2 in Hb.
    replace (S (S (length pre)) - 2)%nat with (length pre) by lia.
    replace (S (S (length pre)) - 1)%nat with (S (length pre)) by lia.
    rewrite X1, X2, F2, firstn_pre, skipn_two_lines.
    unfold moveLineUp. rewrite <- En.
    replace (S (S (length pre)) - 1)%nat with (S (length pre)) by lia.
    simpl Nat.eqb. cbv beta iota.
    rewrite F1, T1, X1, X2, F2, T2, applyChanges_two_lines.
    rewrite dispatchAnchor_in by (rewrite length_join_app_cons; lia).
    eexists; split; [reflexivity|]. split.
    + unfold getCursorPosition.
      rewrite lineAt_split by lia. rewrite lineFrom_split. f_equal. lia.
    + intros Hcol.
      destruct (two_lines_positions pre b a suf) as (G1 & K1 & Y1 & G2 & K2 & Y2).
      unfold moveLineDown. rewrite lineAt_split by lia.
      replace (Nat.eqb (S (length pre)) (length (pre ++ b :: a :: suf))) with false
        by (symmetry; apply Nat.eqb_neq; rewrite length_app; simpl; lia).
      rewrite G1, K1, Y1, Y2, G2, K2, applyChanges_two_lines.
      rewrite dispatchAnchor_in by (rewrite length_join_app_cons; cbn [sumlen]; lia).
      eexists; reflexivity.
Qed.

(** ** [indentSelection] and [outdentSelection] *)

Lemma range_decomp (ls : lines) (s e : nat) : (1 <= s <= e)%nat -> (e <= length ls)%nat ->
  exists pre mid suf, ls = pre ++ mid ++ suf /\ length pre = (s - 1)%nat
                      /\ length mid = (S e - s)%nat.
Proof.
  intros Hs He.
  exists (firstn (s - 1) ls), (firstn (S e - s) (skipn (s - 1) ls)), (skipn (S e - s) (skipn (s - 1) ls)).
  split; [rewrite !firstn_skipn; reflexivity|].
  split; rewrite length_firstn; [lia|]. rewrite length_skipn. lia.
Qed.

Lemma sumlen_indent (l : lines) : sumlen (map indent2 l) = (sumlen l + 2 * length l)%nat.
Proof. induction l as [|x l IH]; simpl; [reflexivity|]. rewrite IH. lia. Qed.

Lemma applyChanges_cons (T : jsstr) (c : change) (cs : list change) :
  applyChanges T (c :: cs) = applyChange (applyChanges T cs) c.
Proof. reflexivity. Qed.

Lemma indent_changes (pre mid suf : lines) :
  applyChanges (join (pre ++ mid ++ suf))
    (map (fun i => (lineFrom (pre ++ mid ++ suf) i, lineFrom (pre ++ mid ++ suf) i, u "  "))
         (seq (S (length pre)) (length mid)))
  = join (pre ++ map indent2 mid ++ suf).
Proof.
  revert pre. induction mid as [|m mid IH]; intros pre; [reflexivity|].
  simpl length. cbn [seq map]. rewrite applyChanges_cons.
  assert (EL : pre ++ (m :: mid) ++ suf = (pre ++ [m]) ++ mid ++ suf)
    by (rewrite <- app_assoc; reflexivity).
  rewrite EL.
  replace (S (S (length pre))) with (S (length (pre ++ [m]))) by (rewrite length_app; simpl; lia).
  rewrite IH. rewrite <- !app_assoc. simpl app.
  rewrite lineFrom_split.
  transitivity (join (pre ++ (firstn 0 m ++ u "  " ++ skipn 0 m) :: map indent2 mid ++ suf)).
  - rewrite <- (Nat.add_0_r (sumlen pre)). apply applyChange_in_line. lia.
  - reflexivity.
Qed.

Lemma outdent_indent2 (l : jsstr) : outdentLine (indent2 l) = (l, 2%nat).
Proof. reflexivity. Qed.

Lemma totalRemoved_indent (l : lines) : totalRemoved (map indent2 l) = (2 * length l)%nat.
Proof. induction l as [|x l IH]; simpl; [reflexivity|]. rewrite IH. lia. Qed.

Lemma outdent_map_indent (l : lines) : map (fun t => fst (outdentLine t)) (map indent2 l) = l.
Proof. induction l as [|x l IH]; simpl; [reflexivity|]. rewrite IH. reflexivity. Qed.

(** Extra: indenting a non-empty selection puts two spaces before every line
    it touches; [outdentSelection] on the selection [indentSelection] leaves
    gives back the document, with the selection's head where it was. *)
Theorem indentSelection_outdent_roundtrip (ls : lines) (from to : nat) :
  ls <> [] -> (from < to <= length (join ls))%nat ->
  let startLine := lineAt ls from in
  let endLine := lineAt ls to in
  let ls' := firstn (startLine - 1) ls
             ++ map (fun l : jsstr => u "  " ++ l) (linesBetween ls startLine endLine)
             ++ skipn endLine ls in
  exists anchor head z,
    indentSelection ls from to = (join ls', (anchor, head))
    /\ outdentSelection ls' anchor head = Some (ls, (z, Z.of_nat to)).
Proof.
  intros Hne Hft. cbv zeta.
  destruct (lineAt_bounds ls from Hne ltac:(lia)) as [Hs Hbs].
  destruct (lineAt_bounds ls to Hne ltac:(lia)) as [He Hbe].
  assert (Hse : (lineAt ls from <= lineAt ls to)%nat)
    by (unfold lineAt; apply lineAtAux_mono; lia).
  remember (lineAt ls from) as s eqn:Es. remember (lineAt ls to) as e eqn:Ee.
  destruct (range_decomp ls s e ltac:(lia) ltac:(lia)) as (pre & mid & suf & Hls & Hpre & Hmid).
  assert (Hmid' : linesBetween ls s e = mid).
  { rewrite Hls. replace s with (S (length pre)) by lia.
    replace e with (length pre + length mid)%nat by lia. apply linesBetween_mid. }
  rewrite Hmid'.
  assert (Hf : firstn (s - 1) ls = pre) by (rewrite Hls, <- Hpre; apply firstn_pre).
  assert (Hsu : skipn e ls = suf).
  { rewrite Hls, app_assoc. apply skipn_app_exact. rewrite length_app. lia. }
  rewrite Hf, Hsu.
  destruct mid as [|m0 mid0]; [cbn [length] in Hmid; lia|].
  destruct (exists_last (l := m0 :: mid0) ltac:(discriminate)) as (midInit & mlast & Hlast).
  (* the selection's ends within their lines *)
  assert (Hfrom : (sumlen pre <= from <= sumlen pre + length m0)%nat).
  { rewrite Hls, <- app_comm_cons in Hbs. replace s with (S (length pre)) in Hbs by lia.
    rewrite lineFrom_split in Hbs. unfold lineTo in Hbs.
    rewrite lineFrom_split, lineText_split in Hbs. exact Hbs. }
  assert (Hlen : length (m0 :: mid0) = S (length midInit))
    by (rewrite Hlast, length_app; simpl; lia).
  assert (Hto : (sumlen pre + sumlen midInit <= to <= sumlen pre + sumlen midInit + length mlast)%nat).
  { assert (EL : pre ++ (midInit ++ [mlast]) ++ suf = (pre ++ midInit) ++ mlast :: suf)
      by (rewrite <- !app_assoc; reflexivity).
    rewrite Hls, Hlast, EL in Hbe.
    replace e with (S (length (pre ++ midInit))) in Hbe by (rewrite length_app; lia).
    unfold lineTo in Hbe. rewrite lineFrom_split, lineText_split, sumlen_app in Hbe. exact Hbe. }
  unfold indentSelection.
  replace (Nat.eqb from to) with false by (symmetry; apply Nat.eqb_neq; lia).
  rewrite <- Es, <- Ee.
  replace (seq s (S e - s)) with (seq (S (length pre)) (length (m0 :: mid0))) by (f_equal; lia).
  rewrite Hls, indent_changes.
  do 3 eexists. split; [reflexivity|].
  rewrite length_map, length_seq.
  unfold outdentSelection.
  rewrite Nat.min_l, Nat.max_r by lia.
  (* the two ends are still on the first and last touched lines *)
  assert (A1 : lineAt (pre ++ map indent2 (m0 :: mid0) ++ suf) (from + 2) = S (length pre)).
  { simpl map. simpl app.
    replace (from + 2)%nat with (sumlen pre + (from - sumlen pre + 2))%nat by lia.
    apply lineAt_split. unfold indent2. rewrite length_app. simpl. lia. }
  assert (A2 : lineAt (pre ++ map indent2 (m0 :: mid0) ++ suf) (to + length (m0 :: mid0) * 2)
               = (length pre + length (m0 :: mid0))%nat).
  { rewrite Hlast, map_app, <- app_assoc, app_assoc. simpl map. simpl app.
    replace (to + length (midInit ++ [mlast]) * 2)%nat
      with (sumlen (pre ++ map indent2 midInit) + (to - sumlen pre - sumlen midInit + 2))%nat
      by (rewrite sumlen_app, sumlen_indent, length_app; simpl; lia).
    rewrite lineAt_split; [rewrite !length_app, length_map; simpl; lia|].
    unfold indent2. rewrite length_app. simpl. lia. }
  change (map (fun l : jsstr => u "  " ++ l) (m0 :: mid0)) with (map indent2 (m0 :: mid0)).
  change (@app (list N)) with (@app jsstr).
  rewrite A1, A2.
  replace (length pre + length (m0 :: mid0))%nat
    with (length pre + length (map indent2 (m0 :: mid0)))%nat by (rewrite length_map; reflexivity).
  rewrite linesBetween_mid, totalRemoved_indent, length_map.
  replace (Nat.eqb (2 * length (m0 :: mid0)) 0) with false by (symmetry; apply Nat.eqb_neq; simpl; lia).
  rewrite outdent_map_indent. unfold replaceLines.
  rewrite Nat.sub_succ, Nat.sub_0_r, firstn_pre.
  rewrite (app_assoc pre (map indent2 (m0 :: mid0)) suf).
  rewrite skipn_app_exact by (rewrite length_app, length_map; reflexivity).
  f_equal. f_equal. f_equal. lia.
Qed.

(** ** The range commands *)

Lemma lineRange_bounds (ls : lines) (anchor head : nat) : ls <> [] ->
  exists s e, lineRange ls anchor head = (s, e) /\ (1 <= s <= e)%nat /\ (e <= length ls)%nat.
Proof. intros Hne. unfold lineRange. apply sortLinesWith_range. exact Hne. Qed.

Lemma length_linesBetween (ls : lines) (s e : nat) :
  length (linesBetween ls s e) = (S e - s)%nat.
Proof. unfold linesBetween. rewrite length_map, length_seq. reflexivity. Qed.

(** After a range command replaced lines [s..e] by [new] and selected the
    inserted text, a non-empty selection picks exactly those lines again. *)
Lemma range_after_replace (ls new : lines) (s e : nat) :
  (1 <= s <= e)%nat -> (e <= length ls)%nat -> (1 <= length (join new))%nat ->
  lineRange (replaceLines ls s e new) (lineFrom ls s) (lineFrom ls s + length (join new))
    = (s, (s - 1 + length new)%nat)
  /\ linesBetween (replaceLines ls s e new) s (s - 1 + length new) = new.
Proof.
  intros Hs He HJ.
  set (pre := firstn (s - 1) ls). set (suf := skipn e ls).
  assert (Hpre : length pre = (s - 1)%nat) by (unfold pre; rewrite length_firstn; lia).
  assert (Hfrom : lineFrom ls s = sumlen pre).
  { unfold pre. replace s with (S (s - 1)) at 1 by lia. apply lineFrom_firstn. }
  assert (Hne' : new <> []) by (intros E; rewrite E in HJ; simpl in HJ; lia).
  assert (Hne'' : new ++ suf <> []) by (destruct new; [congruence|discriminate]).
  unfold lineRange, replaceLines. fold pre suf.
  replace (Nat.eqb (lineFrom ls s) (lineFrom ls s + length (join new))) with false
    by (symmetry; apply Nat.eqb_neq; lia).
  rewrite Nat.min_l, Nat.max_r by lia.
  assert (E1 : lineAt (pre ++ new ++ suf) (lineFrom ls s) = s).
  { unfold lineAt. rewrite Hfrom, <- (Nat.add_0_r (sumlen pre)), lineAtAux_skip by exact Hne''.
    rewrite lineAtAux_start by exact Hne'. lia. }
  assert (E2 : lineAt (pre ++ new ++ suf) (lineFrom ls s + length (join new))
               = (s - 1 + length new)%nat).
  { unfold lineAt. rewrite Hfrom, lineAtAux_skip by exact Hne''.
    rewrite lineAtAux_end by exact Hne'. lia. }
  rewrite E1, E2. split; [reflexivity|].
  replace s with (S (length pre)) at 1 by lia. rewrite <- Hpre. apply linesBetween_mid.
Qed.

Lemma jsstr_eqb_spec (a b : jsstr) : jsstr_eqb a b = true <-> a = b.
Proof. unfold jsstr_eqb. destruct (list_eq_dec N.eq_dec a b); split; congruence. Qed.

Lemma existsb_eqb_In (x : jsstr) (l : lines) : existsb (jsstr_eqb x) l = true <-> In x l.
Proof.
  rewrite existsb_exists. split.
  - intros (y & Hy & E). apply jsstr_eqb_spec in E. subst. exact Hy.
  - intros H. exists x. split; [exact H|]. apply jsstr_eqb_spec. reflexivity.
Qed.

Lemma uniqueLinesAux_In (seen l : lines) (x : jsstr) :
  In x (uniqueLinesAux seen l) <-> In x l /\ ~ In x seen.
Proof.
  revert seen. induction l as [|y l IH]; intros seen; simpl; [tauto|].
  destruct (existsb (jsstr_eqb y) seen) eqn:E.
  - apply existsb_eqb_In in E. rewrite IH. split; [tauto|].
    intros [[<-|H] Hn]; [contradiction|tauto].
  - assert (Hy : ~ In y seen) by (intros Hi; apply existsb_eqb_In in Hi; congruence).
    simpl. rewrite IH. simpl. split.
    + intros [<-|[H Hn]]; [tauto|]. split; [tauto|]. tauto.
    + intros [[<-|H] Hn]; [tauto|].
      destruct (list_eq_dec N.eq_dec y x) as [<-|Hxy]; [tauto|]. right. split; [exact H|].
      intros [E'|E']; [congruence|contradiction].
Qed.

Lemma uniqueLinesAux_NoDup (seen l : lines) : NoDup (uniqueLinesAux seen l).
Proof.
  revert seen. induction l as [|y l IH]; intros seen; simpl; [constructor|].
  destruct (existsb (jsstr_eqb y) seen); [apply IH|].
  constructor; [|apply IH]. rewrite uniqueLinesAux_In. simpl. tauto.
Qed.

Lemma uniqueLinesAux_id (seen l : lines) :
  NoDup l -> (forall x, In x l -> ~ In x seen) -> uniqueLinesAux seen l = l.
Proof.
  revert seen. induction l as [|y l IH]; intros seen Hnd Hdis; simpl; [reflexivity|].
  inversion Hnd as [|? ? Hy Hnd']; subst.
  destruct (existsb (jsstr_eqb y) seen) eqn:E.
  - apply existsb_eqb_In in E. exfalso. apply (Hdis y); [left; reflexivity|exact E].
  - f_equal. apply IH; [exact Hnd'|].
    intros x Hx [<-|Hs]; [contradiction|]. apply (Hdis x); [right; exact Hx|exact Hs].
Qed.

Lemma uniqueLines_idem (l : lines) : uniqueLines (uniqueLines l) = uniqueLines l.
Proof. apply uniqueLinesAux_id; [apply uniqueLinesAux_NoDup|]. intros x _ []. Qed.

Lemma trimTrailing_idem (s : jsstr) : trimTrailing (trimTrailing s) = trimTrailing s.
Proof.
  unfold trimTrailing. rewrite rev_involutive. f_equal.
  induction (rev s) as [|c r IH]; simpl; [reflexivity|].
  destruct (isSpaceTab c) eqn:E; [exact IH|]. simpl. rewrite E. reflexivity.
Qed.

Lemma trimTrailing_last (s : jsstr) (c : N) (r : jsstr) :
  trimTrailing s = r ++ [c] -> isSpaceTab c = false.
Proof.
  unfold trimTrailing. intros H. apply (f_equal (@rev N)) in H.
  rewrite rev_involutive, rev_app_distr in H. simpl in H. revert H.
  induction (rev s) as [|d t IH]; simpl; [discriminate|].
  destruct (isSpaceTab d) eqn:E; [exact IH|]. intros Hd. injection Hd as -> _. exact E.
Qed.

Lemma existsb_trim_changed (l : lines) :
  existsb (fun x => negb (jsstr_eqb x (trimTrailing x))) (map trimTrailing l) = false.
Proof.
  induction l as [|x l IH]; simpl; [reflexivity|].
  rewrite trimTrailing_idem. replace (jsstr_eqb (trimTrailing x) (trimTrailing x)) with true
    by (symmetry; apply jsstr_eqb_spec; reflexivity). exact IH.
Qed.

Lemma existsb_blank_filter (l : lines) :
  existsb isBlank (filter (fun x => negb (isBlank x)) l) = false.
Proof.
  induction l as [|x l IH]; simpl; [reflexivity|].
  destruct (isBlank x) eqn:E; simpl; [exact IH|]. rewrite E. exact IH.
Qed.

Lemma length_uniqueLinesAux (seen l : lines) : (length (uniqueLinesAux seen l) <= length l)%nat.
Proof.
  revert seen. induction l as [|y l IH]; intros seen; simpl; [lia|].
  destruct (existsb (jsstr_eqb y) seen); simpl; [specialize (IH seen)|specialize (IH (y :: seen))]; lia.
Qed.

Lemma length_filter_drop (f : jsstr -> bool) (l : lines) :
  existsb f l = true -> (length (filter (fun x => negb (f x)) l) < length l)%nat.
Proof.
  induction l as [|x l IH]; simpl; [discriminate|].
  pose proof (filter_length_le (fun x => negb (f x)) l).
  destruct (f x); simpl; [lia|]. intros H'. specialize (IH H'). lia.
Qed.

(** Extra: [removeDuplicateLines] keeps the first occurrence of each line
    of its range: the new lines are pairwise distinct, are the same set of
    lines as before, and are fewer; on the lines and the non-empty selection
    it leaves, a second run does nothing. *)
Theorem removeDuplicateLines_spec (ls : lines) (anchor head : nat) (ls' : lines) (a' h' : nat) :
  ls <> [] -> removeDuplicateLines ls anchor head = Some (ls', (a', h')) ->
  exists s e U,
    lineRange ls anchor head = (s, e)
    /\ ls' = firstn (s - 1) ls ++ U ++ skipn e ls
    /\ NoDup U
    /\ (forall x, In x U <-> In x (linesBetween ls s e))
    /\ (length U < length (linesBetween ls s e))%nat
    /\ ((a' < h')%nat -> removeDuplicateLines ls' a' h' = None).
Proof.
  intros Hne H. destruct (lineRange_bounds ls anchor head Hne) as (s & e & Hr & Hs & He).
  unfold removeDuplicateLines in H. rewrite Hr in H. cbn beta iota zeta in H.
  set (L := linesBetween ls s e) in H.
  destruct (Nat.eqb (length (uniqueLines L)) (length L)) eqn:Eq; [discriminate|].
  injection H as <- <- <-.
  exists s, e, (uniqueLines L). split; [exact Hr|]. split; [reflexivity|].
  split; [apply uniqueLinesAux_NoDup|]. split.
  { intros x. unfold uniqueLines. rewrite uniqueLinesAux_In. simpl. tauto. }
  split.
  { fold L. pose proof (length_uniqueLinesAux [] L). apply Nat.eqb_neq in Eq. unfold uniqueLines in *. lia. }
  intros Hlt.
  destruct (range_after_replace ls (uniqueLines L) s e Hs He ltac:(lia)) as [R1 R2].
  unfold removeDuplicateLines. rewrite R1. cbn beta iota zeta. rewrite R2, uniqueLines_idem, Nat.eqb_refl.
  reflexivity.
Qed.

(** Extra: [trimTrailingSpaces] keeps the number of lines and the lines
    outside its range; afterwards no line of the range ends in a space or a
    tab, and on the lines and the non-empty selection it leaves, a second run
    does nothing. *)
Theorem trimTrailingSpaces_spec (ls : lines) (anchor head : nat) (ls' : lines) (a' h' : nat) :
  ls <> [] -> trimTrailingSpaces ls anchor head = Some (ls', (a', h')) ->
  exists s e,
    lineRange ls anchor head = (s, e)
    /\ ls' = firstn (s - 1) ls ++ map trimTrailing (linesBetween ls s e) ++ skipn e ls
    /\ length ls' = length ls
    /\ (forall l r c, In l (linesBetween ls' s e) -> l = r ++ [c] -> isSpaceTab c = false)
    /\ ((a' < h')%nat -> trimTrailingSpaces ls' a' h' = None).
Proof.
  intros Hne H. destruct (lineRange_bounds ls anchor head Hne) as (s & e & Hr & Hs & He).
  unfold trimTrailingSpaces in H. rewrite Hr in H. cbn beta iota zeta in H.
  set (L := linesBetween ls s e) in H.
  destruct (existsb (fun l => negb (jsstr_eqb l (trimTrailing l))) L) eqn:Ech; [|discriminate].
  injection H as <- <- <-.
  assert (HL : length L = (S e - s)%nat) by apply length_linesBetween.
  exists s, e. split; [exact Hr|]. split; [reflexivity|].
  assert (HB : linesBetween (replaceLines ls s e (map trimTrailing L)) s e = map trimTrailing L).
  { unfold replaceLines. set (pre := firstn (s - 1) ls). set (suf := skipn e ls).
    assert (Hpre : length pre = (s - 1)%nat) by (unfold pre; rewrite length_firstn; lia).
    replace s with (S (length pre)) by lia.
    replace e with (length pre + length (map trimTrailing L))%nat
      by (rewrite length_map; lia).
    apply linesBetween_mid. }
  split.
  { unfold replaceLines. rewrite !length_app, length_map, length_firstn, length_skipn. lia. }
  split.
  { rewrite HB. intros l r c Hl ->. apply in_map_iff in Hl as (x & Hx & _).
    apply (trimTrailing_last x c r). exact Hx. }
  intros Hlt.
  destruct (range_after_replace ls (map trimTrailing L) s e Hs He ltac:(lia)) as [R1 R2].
  unfold trimTrailingSpaces. rewrite R1. cbn beta iota zeta. rewrite R2, existsb_trim_changed.
  reflexivity.
Qed.

(** Extra: [removeBlankLines] drops the blank lines of its range and keeps
    the others in order; when every line of the range is blank, one empty
    line stays in its place and the new selection is empty.  On the lines and
    the non-empty selection it leaves, a second run does nothing. *)
Theorem removeBlankLines_spec (ls : lines) (anchor head : nat) (ls' : lines) (a' h' : nat) :
  ls <> [] -> removeBlankLines ls anchor head = Some (ls', (a', h')) ->
  exists s e,
    lineRange ls anchor head = (s, e)
    /\ let kept := filter (fun l => negb (isBlank l)) (linesBetween ls s e) in
       (kept <> [] -> ls' = firstn (s - 1) ls ++ kept ++ skipn e ls
                      /\ (length kept < length (linesBetween ls s e))%nat)
       /\ (kept = [] -> ls' = firstn (s - 1) ls ++ [[]] ++ skipn e ls /\ a' = h')
       /\ ((a' < h')%nat -> removeBlankLines ls' a' h' = None).
Proof.
  intros Hne H. destruct (lineRange_bounds ls anchor head Hne) as (s & e & Hr & Hs & He).
  unfold removeBlankLines in H. rewrite Hr in H. cbn beta iota zeta in H.
  set (L := linesBetween ls s e) in H.
  destruct (existsb isBlank L) eqn:Ech; [|discriminate].
  injection H as <- <- <-.
  exists s, e. split; [exact Hr|]. cbv zeta. fold L.
  remember (filter (fun l => negb (isBlank l)) L) as kept eqn:Ekept.
  assert (Hdrop : (length kept < length L)%nat) by (subst kept; apply length_filter_drop; exact Ech).
  assert (Hbl : existsb isBlank kept = false) by (subst kept; apply existsb_blank_filter).
  clear Ekept.
  split; [|split].
  - intros Hk. destruct kept as [|k0 kr]; [congruence|]. split; [reflexivity|exact Hdrop].
  - intros ->. split; [reflexivity|]. simpl. lia.
  - intros Hlt. destruct kept as [|k0 kr]; [simpl in Hlt; lia|].
    destruct (range_after_replace ls (k0 :: kr) s e Hs He ltac:(lia)) as [R1 R2].
    unfold removeBlankLines. rewrite R1. cbn beta iota zeta. rewrite R2, Hbl.
    reflexivity.
Qed.

(** ** Line-ending conversions *)

Lemma replaceCRbyLF_out (s : jsstr) : ~ In CR (replaceCRbyLF s).
Proof.
  unfold replaceCRbyLF. intros H. apply in_map_iff in H as (c & Hc & _).
  destruct (c =? CR) eqn:E; [discriminate|]. subst. rewrite N.eqb_refl in E. discriminate.
Qed.

Lemma replaceLFbyCR_out (s : jsstr) : ~ In LF (replaceLFbyCR s).
Proof.
  unfold replaceLFbyCR. intros H. apply in_map_iff in H as (c & Hc & _).
  destruct (c =? LF) eqn:E; [discriminate|]. subst. rewrite N.eqb_refl in E. discriminate.
Qed.

Lemma replaceCRLFbyLF_no_LF (s : jsstr) : ~ In LF s -> replaceCRLFbyLF s = s.
Proof.
  induction s as [|c s IH]; intros H; [reflexivity|].
  simpl in H. simpl.
  destruct (c =? CR); [|rewrite IH by auto; reflexivity].
  destruct s as [|d s']; [reflexivity|].
  destruct (d =? LF) eqn:E.
  - apply N.eqb_eq in E. subst. exfalso. simpl in H. auto.
  - rewrite IH by auto. reflexivity.
Qed.

Lemma replaceCRbyLF_replaceLFbyCR (s : jsstr) : ~ In CR s -> replaceCRbyLF (replaceLFbyCR s) = s.
Proof.
  induction s as [|c s IH]; intros H; [reflexivity|].
  simpl in H. unfold replaceCRbyLF, replaceLFbyCR in *. simpl.
  rewrite IH by auto. f_equal.
  destruct (c =? LF) eqn:E; [apply N.eqb_eq in E; subst; reflexivity|].
  destruct (c =? CR) eqn:E'; [apply N.eqb_eq in E'; subst; exfalso; auto|reflexivity].
Qed.

Lemma replaceLFbyCRLF_no_CR (s : jsstr) : ~ In CR s ->
  forall c, In c (replaceLFbyCRLF s) -> c = CR \/ In c s.
Proof.
  intros _ c H. unfold replaceLFbyCRLF in H. apply in_flat_map in H as (d & Hd & Hc).
  destruct (d =? LF) eqn:E.
  - apply N.eqb_eq in E. subst. destruct Hc as [<-|[<-|[]]]; [left; reflexivity|right; exact Hd].
  - destruct Hc as [<-|[]]. right. exact Hd.
Qed.

Lemma count_LF_only (s : jsstr) (a b c : nat) : ~ In CR s ->
  countLineEndings s a b c = (a, b, c + count_occ N.eq_dec s LF)%nat.
Proof.
  revert c. induction s as [|x s IH]; intros c H; simpl; [f_equal; lia|].
  simpl in H. destruct (x =? CR) eqn:E; [apply N.eqb_eq in E; subst; exfalso; auto|].
  destruct (x =? LF) eqn:E'.
  - apply N.eqb_eq in E'. subst. destruct (N.eq_dec LF LF) as [_|]; [|congruence].
    rewrite IH by auto. f_equal. lia.
  - destruct (N.eq_dec x LF) as [->|_]; [rewrite N.eqb_refl in E'; discriminate|]. apply IH. auto.
Qed.

Lemma count_CR_only (s : jsstr) (a b c : nat) : ~ In LF s ->
  countLineEndings s a b c = (a, b + count_occ N.eq_dec s CR, c)%nat.
Proof.
  revert b. induction s as [|x s IH]; intros b H; simpl; [f_equal; f_equal; lia|].
  simpl in H. destruct (x =? CR) eqn:E.
  - apply N.eqb_eq in E. subst. destruct (N.eq_dec CR CR) as [_|]; [|congruence].
    destruct s as [|d s'].
    + simpl. f_equal. f_equal. lia.
    + destruct (d =? LF) eqn:E'; [apply N.eqb_eq in E'; subst; exfalso; simpl in H; auto|].
      rewrite IH by auto. f_equal. f_equal. lia.
  - destruct (x =? LF) eqn:E'; [apply N.eqb_eq in E'; subst; exfalso; auto|].
    destruct (N.eq_dec x CR) as [->|_]; [rewrite N.eqb_refl in E; discriminate|]. apply IH. auto.
Qed.

Lemma count_CRLF_only (s : jsstr) (a b c : nat) : ~ In CR s ->
  countLineEndings (replaceLFbyCRLF s) a b c = (a + count_occ N.eq_dec s LF, b, c)%nat.
Proof.
  revert a. induction s as [|x s IH]; intros a H; simpl; [f_equal; f_equal; lia|].
  simpl in H. unfold replaceLFbyCRLF in *. simpl.
  destruct (x =? LF) eqn:E'.
  - apply N.eqb_eq in E'. subst. destruct (N.eq_dec LF LF) as [_|]; [|congruence].
    simpl. rewrite IH by auto. f_equal. f_equal. lia.
  - simpl. destruct (x =? CR) eqn:E; [apply N.eqb_eq in E; subst; exfalso; auto|].
    rewrite E'. destruct (N.eq_dec x LF) as [->|_]; [rewrite N.eqb_refl in E'; discriminate|].
    apply IH. auto.
Qed.

Lemma count_occ_replaceLFbyCR (s : jsstr) : ~ In CR s ->
  count_occ N.eq_dec (replaceLFbyCR s) CR = count_occ N.eq_dec s LF.
Proof.
  induction s as [|x s IH]; intros H; [reflexivity|].
  simpl in H. unfold replaceLFbyCR in *. simpl.
  destruct (x =? LF) eqn:E.
  - apply N.eqb_eq in E. subst. simpl. rewrite IH by auto. reflexivity.
  - destruct (N.eq_dec x CR) as [->|_]; [exfalso; auto|].
    destruct (N.eq_dec x LF) as [->|_]; [rewrite N.eqb_refl in E; discriminate|]. apply IH. auto.
Qed.

Lemma includes_single (s : jsstr) (x : N) : In x s -> includes s [x] = true.
Proof.
  induction s as [|c s IH]; intros H; [destruct H|].
  destruct H as [->|H]; simpl.
  - rewrite N.eqb_refl. reflexivity.
  - rewrite IH by exact H. apply orb_true_r.
Qed.

Lemma detect_first_branch (s : jsstr) : In CR s \/ In LF s ->
  negb (includes s [CR; LF]) && negb (includes s [CR] && negb (includes s [CR; LF]))
  && negb (includes s [LF] && negb (includes s [CR; LF])) = false.
Proof.
  intros [H|H]; rewrite (includes_single _ _ H);
    destruct (includes s [CR; LF]); simpl; try reflexivity;
    destruct (includes s _); reflexivity.
Qed.

Lemma replaceCRLFbyLF_breaks (n : nat) (s : jsstr) : (length s <= n)%nat ->
  In CR s \/ In LF s -> In CR (replaceCRLFbyLF s) \/ In LF (replaceCRLFbyLF s).
Proof.
  revert s. induction n as [|n IH]; intros s Hl H.
  { destruct s; [destruct H as [[]|[]]|simpl in Hl; lia]. }
  destruct s as [|c s']; [destruct H as [[]|[]]|].
  simpl. destruct (c =? CR) eqn:E.
  - apply N.eqb_eq in E. subst. destruct s' as [|d s''].
    + left. left. reflexivity.
    + destruct (d =? LF); [right; left; reflexivity|left; left; reflexivity].
  - destruct (c =? LF) eqn:E'.
    + apply N.eqb_eq in E'. subst. right. left. reflexivity.
    + assert (H' : In CR s' \/ In LF s').
      { destruct H as [[Hc|Hc]|[Hc|Hc]]; subst; auto;
          [rewrite N.eqb_refl in E|rewrite N.eqb_refl in E']; discriminate. }
      simpl in Hl. destruct (IH s' ltac:(lia) H') as [Hr|Hr]; [left|right]; right; exact Hr.
Qed.

Lemma normalize_has_LF (s : jsstr) : In CR s \/ In LF s ->
  (0 < count_occ N.eq_dec (replaceCRbyLF (replaceCRLFbyLF s)) LF)%nat.
Proof.
  intros H. apply count_occ_In. unfold replaceCRbyLF. apply in_map_iff.
  destruct (replaceCRLFbyLF_breaks (length s) s (le_n _) H) as [Hr|Hr].
  - exists CR. split; [reflexivity|exact Hr].
  - exists LF. split; [reflexivity|exact Hr].
Qed.

(** [splitLines] always gives at least one line. *)
Lemma splitLines_not_nil (s : jsstr) : splitLines s <> [].
Proof.
  destruct s as [|c rest]; simpl; [discriminate|].
  destruct (c =? LF); [discriminate|].
  destruct (c =? CR).
  - destruct rest as [|d rest']; [discriminate|]. destruct (d =? LF); discriminate.
  - destruct (splitLines rest); discriminate.
Qed.

Lemma join_cons_char (c : N) (l : jsstr) (ls : lines) :
  join ((c :: l) :: ls) = c :: join (l :: ls).
Proof. destruct ls; reflexivity. Qed.

Lemma join_nil_line (ls : lines) : ls <> [] -> join ([] :: ls) = LF :: join ls.
Proof. destruct ls; [congruence|reflexivity]. Qed.

(** The text of the document CodeMirror builds from [s]: each CRLF pair and
    each lone CR of [s] has become an LF, exactly as
    [s.replace(/\r\n/g, '\n').replace(/\r/g, '\n')]. *)
Lemma setContent_normalize (s : jsstr) : setContent s = replaceCRbyLF (replaceCRLFbyLF s).
Proof.
  unfold setContent.
  remember (length s) as n eqn:Hn. assert (Hl : (length s <= n)%nat) by lia. clear Hn.
  revert s Hl. induction n as [|n IH]; intros s Hl.
  { destruct s; [reflexivity|simpl in Hl; lia]. }
  destruct s as [|c rest]; [reflexivity|]. simpl in Hl.
  cbn [splitLines replaceCRLFbyLF].
  destruct (c =? LF) eqn:EL.
  - assert (ECR : (c =? CR) = false) by (apply N.eqb_eq in EL; subst; reflexivity).
    rewrite ECR, join_nil_line by apply splitLines_not_nil. rewrite IH by lia.
    unfold replaceCRbyLF. cbn [map]. rewrite ECR. apply N.eqb_eq in EL. subst. reflexivity.
  - destruct (c =? CR) eqn:ECR.
    + destruct rest as [|d rest'].
      * unfold replaceCRbyLF. cbn. rewrite ECR. reflexivity.
      * simpl in Hl. destruct (d =? LF) eqn:ED.
        -- rewrite join_nil_line by apply splitLines_not_nil. rewrite IH by lia.
           unfold replaceCRbyLF. cbn [map]. destruct (LF =? CR); reflexivity.
        -- rewrite join_nil_line by apply splitLines_not_nil. rewrite IH by (simpl; lia).
           unfold replaceCRbyLF. cbn [map]. rewrite ECR. reflexivity.
    + destruct (splitLines rest) as [|l ls] eqn:Es; [exfalso; exact (splitLines_not_nil rest Es)|].
      rewrite join_cons_char, <- Es, IH by lia.
      unfold replaceCRbyLF. cbn [map]. rewrite ECR. reflexivity.
Qed.

Lemma setContent_no_CR (s : jsstr) : ~ In CR (setContent s).
Proof. rewrite setContent_normalize. apply replaceCRbyLF_out. Qed.

Lemma setContent_id (s : jsstr) : ~ In CR s -> setContent s = s.
Proof.
  intros H. rewrite setContent_normalize, replaceCRLFbyLF_no_CR, replaceCRbyLF_no_CR by exact H.
  reflexivity.
Qed.

(** A text without CR makes [detectLineEnding] answer [LF]: all its line
    breaks count as LF. *)
Lemma detectLineEnding_no_CR (s : jsstr) : ~ In CR s -> detectLineEnding s = "LF"%string.
Proof.
  intros H. unfold detectLineEnding. rewrite count_LF_only by exact H.
  destruct (negb (includes s [CR; LF]) && _ && _); [reflexivity|].
  destruct (count_occ N.eq_dec s LF) as [|k]; reflexivity.
Qed.

Lemma runCommand_convertToLF (content : jsstr) :
  runCommand convertToLF content = replaceCRbyLF (replaceCRLFbyLF content).
Proof.
  unfold runCommand, convertToLF.
  destruct (list_eq_dec N.eq_dec content _) as [E|_]; [exact E|].
  apply setContent_id, replaceCRbyLF_out.
Qed.

Lemma runCommand_convertToCRLF_no_CR (d : jsstr) : ~ In CR d -> runCommand convertToCRLF d = d.
Proof.
  intros H. unfold runCommand, convertToCRLF.
  rewrite replaceCRLFbyLF_no_CR, replaceCRbyLF_no_CR by exact H.
  destruct (list_eq_dec N.eq_dec d _) as [_|_]; [reflexivity|].
  rewrite setContent_normalize. apply normalize_replaceLFbyCRLF. exact H.
Qed.

Lemma runCommand_convertToCR_no_CR (d : jsstr) : ~ In CR d -> runCommand convertToCR d = d.
Proof.
  intros H. unfold runCommand, convertToCR.
  rewrite replaceCRLFbyLF_no_CR, replaceCRbyLF_no_CR by exact H.
  destruct (list_eq_dec N.eq_dec d _) as [_|_]; [reflexivity|].
  rewrite setContent_normalize, replaceCRLFbyLF_no_LF by apply replaceLFbyCR_out.
  apply replaceCRbyLF_replaceLFbyCR. exact H.
Qed.

Lemma replaceLFbyCRLF_has_CR (d : jsstr) : In LF d -> In CR (replaceLFbyCRLF d).
Proof.
  intros H. unfold replaceLFbyCRLF. apply in_flat_map. exists LF.
  split; [exact H|]. simpl. left. reflexivity.
Qed.

(** C1: CodeMirror, with no [lineSeparator] configured, splits the loaded
    text at every CRLF, CR and LF, and [doc.toString()] joins the lines with
    LF. For the content ["a\r\nb\r\nc\n"] the document text is therefore
    ["a\nb\nc\n"] and [detectLineEnding] answers [LF], not [MIXED]. Whatever
    the content loaded, the document holds no CR and [detectLineEnding]
    answers [LF]. *)
Theorem detectLineEnding_crlf_lf_example :
  setContent (u "a" ++ [CR; LF] ++ u "b" ++ [CR; LF] ++ u "c" ++ [LF])
    = u "a" ++ [LF] ++ u "b" ++ [LF] ++ u "c" ++ [LF]
  /\ detectLineEnding (setContent (u "a" ++ [CR; LF] ++ u "b" ++ [CR; LF] ++ u "c" ++ [LF]))
     = "LF"%string
  /\ (forall content : jsstr,
        ~ In CR (setContent content) /\ detectLineEnding (setContent content) = "LF"%string).
Proof.
  split; [reflexivity|]. split; [reflexivity|].
  intros content. split; [apply setContent_no_CR|].
  apply detectLineEnding_no_CR, setContent_no_CR.
Qed.

(** C9: for a text whose line breaks are all LF, [convertToLF] dispatches
    nothing, and [convertToLF], [convertToCRLF], [convertToLF] in turn give
    the original text back. *)
Theorem convertToLF_CRLF_LF_roundtrip (content : jsstr) :
  ~ In CR content ->
  convertToLF content = None
  /\ runCommand convertToLF (runCommand convertToCRLF (runCommand convertToLF content))
     = content.
Proof.
  intros H.
  assert (HLF : convertToLF content = None).
  { unfold convertToLF.
    rewrite replaceCRLFbyLF_no_CR, replaceCRbyLF_no_CR by auto.
    destruct (list_eq_dec N.eq_dec content content); [reflexivity|congruence]. }
  split; [exact HLF|].
  assert (E1 : runCommand convertToLF content = content)
    by (unfold runCommand; rewrite HLF; reflexivity).
  rewrite E1, runCommand_convertToCRLF_no_CR by exact H. exact E1.
Qed.

Lemma convertToLF_CRLF_LF_roundtrip_witness :
  ~ In CR (u "a" ++ [LF] ++ u "b")
  /\ convertToLF (u "a" ++ [LF] ++ u "b") = None
  /\ runCommand convertToLF
       (runCommand convertToCRLF (runCommand convertToLF (u "a" ++ [LF] ++ u "b")))
     = u "a" ++ [LF] ++ u "b".
Proof.
  assert (H : ~ In CR (u "a" ++ [LF] ++ u "b")).
  { simpl. intros [H|[H|[H|H]]]; try discriminate; exact H. }
  split; [exact H|]. apply (convertToLF_CRLF_LF_roundtrip (u "a" ++ [LF] ++ u "b")). exact H.
Defined.

(** Extra: after [convertToLF] the document holds no CR; a second
    [convertToLF] dispatches nothing, and [detectLineEnding] answers [LF]. *)
Theorem convertToLF_result (content : jsstr) :
  let r := runCommand convertToLF content in
  ~ In CR r /\ convertToLF r = None /\ detectLineEnding r = "LF"%string.
Proof.
  cbv zeta. rewrite runCommand_convertToLF.
  set (r := replaceCRbyLF (replaceCRLFbyLF content)).
  assert (H : ~ In CR r) by apply replaceCRbyLF_out.
  split; [exact H|]. split.
  - unfold convertToLF. rewrite replaceCRLFbyLF_no_CR, replaceCRbyLF_no_CR by exact H.
    destruct (list_eq_dec N.eq_dec r r); [reflexivity|congruence].
  - unfold detectLineEnding. rewrite count_LF_only by exact H.
    destruct (negb (includes r [CR; LF]) && _ && _); [reflexivity|].
    destruct (count_occ N.eq_dec r LF) as [|k]; reflexivity.
Qed.

(** Extra: on the editor's document (the text of any content loaded by
    [setContent]), [convertToCRLF] dispatches a replacing edit as soon as the
    document has a line break, but the edit has no effect: CodeMirror splits
    the inserted text at its CRLF pairs again, so the document text stays the
    same and [detectLineEnding] still answers [LF]. *)
Theorem convertToCRLF_no_effect (content : jsstr) :
  let d := setContent content in
  (In LF d -> convertToCRLF d <> None)
  /\ runCommand convertToCRLF d = d
  /\ detectLineEnding (runCommand convertToCRLF d) = "LF"%string.
Proof.
  cbv zeta. pose proof (setContent_no_CR content) as H.
  set (d := setContent content) in *.
  split; [|split].
  - intros HL. unfold convertToCRLF.
    rewrite replaceCRLFbyLF_no_CR, replaceCRbyLF_no_CR by exact H.
    destruct (list_eq_dec N.eq_dec d _) as [E|_]; [|discriminate].
    exfalso. apply H. rewrite E. apply replaceLFbyCRLF_has_CR. exact HL.
  - apply runCommand_convertToCRLF_no_CR. exact H.
  - rewrite runCommand_convertToCRLF_no_CR by exact H. apply detectLineEnding_no_CR. exact H.
Qed.

(** Extra: on the editor's document, [convertToCR] dispatches a replacing
    edit as soon as the document has a line break, but the edit has no
    effect: CodeMirror splits the inserted text at its CRs again, so the
    document text stays the same and [detectLineEnding] still answers
    [LF]. *)
Theorem convertToCR_no_effect (content : jsstr) :
  let d := setContent content in
  (In LF d -> convertToCR d <> None)
  /\ runCommand convertToCR d = d
  /\ detectLineEnding (runCommand convertToCR d) = "LF"%string.
Proof.
  cbv zeta. pose proof (setContent_no_CR content) as H.
  set (d := setContent content) in *.
  split; [|split].
  - intros HL. unfold convertToCR.
    rewrite replaceCRLFbyLF_no_CR, replaceCRbyLF_no_CR by exact H.
    destruct (list_eq_dec N.eq_dec d _) as [E|_]; [|discriminate].
    exfalso. apply (replaceLFbyCR_out d). rewrite <- E. exact HL.
  - apply runCommand_convertToCR_no_CR. exact H.
  - rewrite runCommand_convertToCR_no_CR by exact H. apply detectLineEnding_no_CR. exact H.
Qed.

(** ** Bookmarks *)

Lemma lineAt_lineFrom (ls : lines) (k : nat) : (1 <= k <= length ls)%nat ->
  lineAt ls (lineFrom ls k) = k.
Proof.
  intros Hk. destruct (line_decomp ls k Hk) as (pre & l & suf & -> & Hpre).
  replace k with (S (length pre)) by lia.
  rewrite lineFrom_split, <- (Nat.add_0_r (sumlen pre)). apply lineAt_split. lia.
Qed.

Lemma setHas_In (s : list nat) (x : nat) : setHas s x = true <-> In x s.
Proof.
  unfold setHas. rewrite existsb_exists. split.
  - intros (y & Hy & E). apply Nat.eqb_eq in E. subst. exact Hy.
  - intros H. exists x. split; [exact H|apply Nat.eqb_refl].
Qed.

Lemma In_setAdd (s : list nat) (x y : nat) : In y (setAdd s x) <-> y = x \/ In y s.
Proof.
  unfold setAdd. destruct (setHas s x) eqn:E.
  - apply setHas_In in E. split; [tauto|]. intros [->|H]; assumption.
  - rewrite in_app_iff. simpl. split.
    + intros [H|[<-|[]]]; [right; exact H|left; reflexivity].
    + intros [->|H]; [right; left; reflexivity|left; exact H].
Qed.

Lemma In_setDelete (s : list nat) (x y : nat) : In y (setDelete s x) <-> In y s /\ y <> x.
Proof.
  unfold setDelete. rewrite filter_In. rewrite negb_true_iff, Nat.eqb_neq. tauto.
Qed.

Lemma NoDup_setAdd (s : list nat) (x : nat) : NoDup s -> NoDup (setAdd s x).
Proof.
  intros H. unfold setAdd. destruct (setHas s x) eqn:E; [exact H|].
  apply NoDup_app; [exact H|repeat constructor; simpl; tauto|].
  intros y Hy [->|[]]. assert (Hx : setHas s y = true) by (apply setHas_In; exact Hy). congruence.
Qed.

Lemma In_fold_setAdd (f : nat -> nat) (bs acc : list nat) (y : nat) :
  In y (fold_left (fun acc line => setAdd acc (f line)) bs acc)
  <-> In y acc \/ exists b, In b bs /\ y = f b.
Proof.
  revert acc. induction bs as [|b bs IH]; intros acc; simpl.
  - split; [tauto|]. intros [H|(b & [] & _)]. exact H.
  - rewrite IH, In_setAdd. split.
    + intros [[->|H]|(b' & Hb & ->)]; [right; exists b; tauto|left; exact H|right; exists b'; tauto].
    + intros [H|(b' & [<-|Hb] & ->)]; [left; right; exact H|left; left; reflexivity|right; exists b'; tauto].
Qed.

Lemma NoDup_fold_setAdd (f : nat -> nat) (bs acc : list nat) :
  NoDup acc -> NoDup (fold_left (fun acc line => setAdd acc (f line)) bs acc).
Proof.
  revert acc. induction bs as [|b bs IH]; intros acc H; simpl; [exact H|].
  apply IH, NoDup_setAdd, H.
Qed.

Lemma toggle_In (s : list nat) (L y : nat) :
  In y (if setHas s L then setDelete s L else setAdd s L)
  <-> (In y s /\ y <> L) \/ (y = L /\ ~ In L s).
Proof.
  destruct (setHas s L) eqn:E.
  - apply setHas_In in E. rewrite In_setDelete. split; [tauto|].
    intros [H|[-> H]]; [exact H|contradiction].
  - assert (Hn : ~ In L s) by (intros Hi; apply setHas_In in Hi; congruence).
    rewrite In_setAdd. split.
    + intros [->|H]; [right; tauto|left; split; [exact H|intros ->; contradiction]].
    + intros [[H _]|[-> _]]; [right; exact H|left; reflexivity].
Qed.

Lemma applyBookmarkEffects_inv (P : nat -> Prop) (effects : list bookmarkEffect) (bs : list nat) :
  NoDup bs -> (forall b, In b bs -> P b) ->
  (forall l, In (ToggleBookmark l) effects -> P l) ->
  NoDup (applyBookmarkEffects effects bs)
  /\ forall b, In b (applyBookmarkEffects effects bs) -> P b.
Proof.
  revert bs. induction effects as [|e effects IH]; intros bs Hnd Hp Ht; [split; assumption|].
  destruct e as [l| |]; simpl.
  - apply IH.
    + destruct (setHas bs l); [apply NoDup_filter, Hnd|apply NoDup_setAdd, Hnd].
    + intros b Hb. apply toggle_In in Hb as [[Hb _]|[-> _]]; [apply Hp, Hb|apply Ht; left; reflexivity].
    + intros l' Hl'. apply Ht. right. exact Hl'.
  - split; [constructor|intros _ []].
  - apply IH; [exact Hnd|exact Hp|]. intros l' Hl'. apply Ht. right. exact Hl'.
Qed.

(** The bookmarks after the mapping step of [bookmarkState.update]: each
    line number clamped to the last line of the new document. *)
Lemma bookmark_map_In (bookmarks : list nat) (newDoc : lines) (y : nat) :
  newDoc <> [] -> (forall b, In b bookmarks -> (1 <= b)%nat) ->
  In y (fold_left (fun acc line =>
                     let pos := lineFrom newDoc (Nat.min line (length newDoc)) in
                     setAdd acc (lineAt newDoc pos)) bookmarks [])
  <-> exists b, In b bookmarks /\ y = Nat.min b (length newDoc).
Proof.
  intros Hne Hb.
  assert (Hl : (1 <= length newDoc)%nat) by (destruct newDoc; [congruence|simpl; lia]).
  rewrite (In_fold_setAdd (fun line => lineAt newDoc (lineFrom newDoc (Nat.min line (length newDoc))))).
  split.
  - intros [[]|(b & Hin & ->)]. exists b. split; [exact Hin|].
    apply lineAt_lineFrom. specialize (Hb b Hin). lia.
  - intros (b & Hin & ->). right. exists b. split; [exact Hin|].
    symmetry. apply lineAt_lineFrom. specialize (Hb b Hin). lia.
Qed.

Section NumSort.

Variable cmp : nat -> nat -> Z.
Variable R : nat -> nat -> Prop.
Hypothesis cmp_R : forall a b, (cmp a b <=? 0)%Z = true <-> R a b.
Hypothesis R_total : forall a b, R a b \/ R b a.
Hypothesis R_trans : forall a b c, R a b -> R b c -> R a c.

Lemma insertNum_perm (x : nat) (l : list nat) : Permutation (insertNum cmp x l) (x :: l).
Proof.
  induction l as [|y l IH]; simpl; [reflexivity|].
  destruct (cmp y x <=? 0)%Z; [|reflexivity].
  rewrite IH. apply perm_swap.
Qed.

Lemma fold_insertNum_perm (l acc : list nat) :
  Permutation (fold_left (fun acc x => insertNum cmp x acc) l acc) (l ++ acc).
Proof.
  revert acc. induction l as [|x l IH]; intros acc; simpl; [reflexivity|].
  rewrite IH, insertNum_perm. symmetry. apply Permutation_middle.
Qed.

Lemma sortNum_perm (l : list nat) : Permutation (sortNum cmp l) l.
Proof. unfold sortNum. rewrite fold_insertNum_perm, app_nil_r. reflexivity. Qed.

Lemma insertNum_sorted (x : nat) (l : list nat) : Sorted R l -> Sorted R (insertNum cmp x l).
Proof.
  induction l as [|y l IH]; intros H; simpl; [repeat constructor|].
  destruct (cmp y x <=? 0)%Z eqn:E.
  - apply cmp_R in E. inversion H as [|? ? Hl Hhd]; subst.
    constructor; [apply IH, Hl|].
    destruct l as [|z l]; simpl; [constructor; exact E|].
    destruct (cmp z x <=? 0)%Z; constructor; [inversion Hhd; assumption|exact E].
  - assert (Hxy : R x y).
    { destruct (R_total y x) as [Hr|Hr]; [apply cmp_R in Hr; congruence|exact Hr]. }
    constructor; [exact H|constructor; exact Hxy].
Qed.

Lemma sortNum_sorted (l : list nat) : StronglySorted R (sortNum cmp l).
Proof.
  apply Sorted_StronglySorted; [intros a b c; apply R_trans|].
  unfold sortNum. assert (H : Sorted R (@nil nat)) by constructor. revert H.
  generalize (@nil nat). induction l as [|x l IH]; intros acc H; simpl; [exact H|].
  apply IH, insertNum_sorted, H.
Qed.

End NumSort.

Lemma find_sorted_first (R : nat -> nat -> Prop) (f : nat -> bool) (l : list nat) (t : nat) :
  StronglySorted R l -> List.find f l = Some t ->
  In t l /\ f t = true /\ forall b, In b l -> f b = true -> b = t \/ R t b.
Proof.
  induction l as [|x l IH]; intros Hs H; [discriminate|].
  inversion Hs as [|? ? Hs' Hall]; subst. simpl in H.
  destruct (f x) eqn:E.
  - injection H as <-. split; [left; reflexivity|]. split; [exact E|].
    intros b [<-|Hb] _; [left; reflexivity|]. right. rewrite Forall_forall in Hall. apply Hall, Hb.
  - destruct (IH Hs' H) as (Hin & Ht & Hmin). split; [right; exact Hin|]. split; [exact Ht|].
    intros b [<-|Hb] Hfb; [congruence|]. apply Hmin; assumption.
Qed.

Lemma nth0_sorted_first (R : nat -> nat -> Prop) (l : list nat) :
  l <> [] -> StronglySorted R l ->
  In (nth 0 l 0%nat) l /\ forall b, In b l -> b = nth 0 l 0%nat \/ R (nth 0 l 0%nat) b.
Proof.
  intros Hne Hs. destruct l as [|x l]; [congruence|]. simpl.
  inversion Hs as [|? ? _ Hall]; subst. split; [left; reflexivity|].
  intros b [<-|Hb]; [left; reflexivity|]. right. rewrite Forall_forall in Hall. apply Hall, Hb.
Qed.

(** Extra: the bookmark state stays a set of line numbers of the document:
    after any transaction whose toggles name lines of the new document, the
    bookmarks are distinct and each lies in [1 .. doc.lines]. *)
Theorem bookmarkUpdate_invariant (bookmarks : list nat) (newDoc : lines)
    (effects : list bookmarkEffect) :
  newDoc <> [] -> (forall b, In b bookmarks -> (1 <= b)%nat) ->
  (forall l, In (ToggleBookmark l) effects -> (1 <= l <= length newDoc)%nat) ->
  NoDup (bookmarkUpdate bookmarks newDoc effects)
  /\ forall b, In b (bookmarkUpdate bookmarks newDoc effects) -> (1 <= b <= length newDoc)%nat.
Proof.
  intros Hne Hb Ht. unfold bookmarkUpdate.
  apply (applyBookmarkEffects_inv (fun b => (1 <= b <= length newDoc)%nat)); [| |exact Ht].
  - apply NoDup_fold_setAdd. constructor.
  - intros y Hy. apply bookmark_map_In in Hy as (b & Hin & ->); [|exact Hne|exact Hb].
    specialize (Hb b Hin). destruct newDoc; [congruence|simpl; lia].
Qed.

(** Extra: a transaction without bookmark effects keeps every bookmark at
    its line number, clamped to the last line of the new document: the
    bookmarks do not move with the text inserted or deleted above them. *)
Theorem bookmarkUpdate_keeps_numbers (bookmarks : list nat) (newDoc : lines) (y : nat) :
  newDoc <> [] -> (forall b, In b bookmarks -> (1 <= b)%nat) ->
  In y (bookmarkUpdate bookmarks newDoc [])
  <-> exists b, In b bookmarks /\ y = Nat.min b (length newDoc).
Proof. intros Hne Hb. unfold bookmarkUpdate. simpl. apply bookmark_map_In; assumption. Qed.

(** Extra: [toggleBookmark] adds the cursor's line to the bookmarks when it
    is not bookmarked and removes it when it is; toggling twice gives back
    the same set of bookmarks. *)
Theorem toggleBookmark_twice (ls : lines) (bookmarks : list nat) (head : nat) :
  ls <> [] -> (forall b, In b bookmarks -> (1 <= b <= length ls)%nat) ->
  (In (lineAt ls head) (toggleBookmark ls bookmarks head) <-> ~ In (lineAt ls head) bookmarks)
  /\ forall y, In y (toggleBookmark ls (toggleBookmark ls bookmarks head) head) <-> In y bookmarks.
Proof.
  intros Hne Hb.
  assert (Hl : (1 <= lineAt ls head <= length ls)%nat) by (apply lineAt_range, Hne).
  assert (Hmap : forall bs y, (forall b, In b bs -> (1 <= b <= length ls)%nat) ->
            In y (toggleBookmark ls bs head)
            <-> (In y bs /\ y <> lineAt ls head) \/ (y = lineAt ls head /\ ~ In (lineAt ls head) bs)).
  { intros bs y Hbs. unfold toggleBookmark, bookmarkUpdate. simpl.
    rewrite toggle_In.
    assert (Hin : forall z, In z (fold_left (fun acc line =>
                     let pos := lineFrom ls (Nat.min line (length ls)) in
                     setAdd acc (lineAt ls pos)) bs []) <-> In z bs).
    { intros z. rewrite bookmark_map_In; [|exact Hne|intros b Hb'; apply Hbs, Hb'].
      split.
      - intros (b & Hb' & ->). rewrite Nat.min_l by (apply Hbs, Hb'). exact Hb'.
      - intros Hz. exists z. split; [exact Hz|]. rewrite Nat.min_l by (apply Hbs, Hz). reflexivity. }
    rewrite !Hin. tauto. }
  split.
  - rewrite Hmap by exact Hb. split; [intros [[_ H]|[_ H]]; [congruence|exact H]|intros H; right; tauto].
  - intros y.
    assert (Hb1 : forall b, In b (toggleBookmark ls bookmarks head) -> (1 <= b <= length ls)%nat).
    { intros b Hin. apply Hmap in Hin; [|exact Hb]. destruct Hin as [[H _]|[-> _]]; [apply Hb, H|exact Hl]. }
    rewrite (Hmap _ y Hb1), !(Hmap bookmarks _ Hb).
    destruct (Nat.eq_dec y (lineAt ls head)) as [->|Hy]; [|tauto].
    split; [|tauto]. intros [[_ H]|[_ H]]; [congruence|].
    destruct (in_dec Nat.eq_dec (lineAt ls head) bookmarks); tauto.
Qed.

Lemma sortNum_asc_sorted (l : list nat) :
  StronglySorted le (sortNum (fun a b => (Z.of_nat a - Z.of_nat b)%Z) l).
Proof.
  apply sortNum_sorted.
  - intros a b. rewrite Z.leb_le. lia.
  - intros a b. lia.
  - intros a b c. lia.
Qed.

Lemma sortNum_desc_sorted (l : list nat) :
  StronglySorted (fun a b => (b <= a)%nat) (sortNum (fun a b => (Z.of_nat b - Z.of_nat a)%Z) l).
Proof.
  apply sortNum_sorted.
  - intros a b. rewrite Z.leb_le. lia.
  - intros a b. lia.
  - intros a b c. lia.
Qed.

(** Extra: with bookmarks, [nextBookmark] moves the cursor to the start of
    the first bookmarked line after the cursor's line, and when there is
    none, wraps around to the first bookmarked line. *)
Theorem nextBookmark_target (ls : lines) (bookmarks : list nat) (head : nat) :
  bookmarks <> [] ->
  let cur := lineAt ls head in
  exists t, nextBookmark ls bookmarks head = Some (lineFrom ls t) /\ In t bookmarks
    /\ (forall b, In b bookmarks -> (cur < b)%nat -> (cur < t <= b)%nat)
    /\ ((forall b, In b bookmarks -> (b <= cur)%nat) -> forall b, In b bookmarks -> (t <= b)%nat).
Proof.
  intros Hne. cbv zeta. unfold nextBookmark.
  destruct bookmarks as [|b0 bs0]; [congruence|]. cbn iota zeta.
  set (bs := b0 :: bs0) in *.
  set (S := sortNum (fun a b => (Z.of_nat a - Z.of_nat b)%Z) bs).
  assert (Hperm : Permutation S bs) by apply sortNum_perm.
  assert (Hs : StronglySorted le S) by apply sortNum_asc_sorted.
  assert (HinS : forall b, In b bs <-> In b S)
    by (intros b; split; apply Permutation_in; [symmetry|]; exact Hperm).
  destruct (List.find (fun line => Nat.ltb (lineAt ls head) line) S) as [t|] eqn:Ef.
  - destruct (find_sorted_first le _ S t Hs Ef) as (Ht & Hlt & Hmin).
    apply Nat.ltb_lt in Hlt.
    exists t. split; [reflexivity|]. split; [apply HinS, Ht|]. split.
    + intros b Hb Hcb. apply HinS in Hb.
      destruct (Hmin b Hb ltac:(apply Nat.ltb_lt; exact Hcb)) as [->|Hle]; lia.
    + intros Hall. specialize (Hall t (proj2 (HinS t) Ht)). lia.
  - assert (HSne : S <> []).
    { intros E. rewrite E in Hperm. apply Permutation_nil in Hperm. discriminate. }
    destruct (nth0_sorted_first le S HSne Hs) as (Ht & Hmin).
    exists (nth 0 S 0%nat). split; [reflexivity|]. split; [apply HinS, Ht|]. split.
    + intros b Hb Hcb. apply HinS in Hb. pose proof (find_none _ _ Ef b Hb) as Hf.
      simpl in Hf. apply Nat.ltb_ge in Hf. lia.
    + intros _ b Hb. apply HinS in Hb. destruct (Hmin b Hb) as [->|Hle]; lia.
Qed.

(** Extra: with bookmarks, [previousBookmark] moves the cursor to the start
    of the last bookmarked line before the cursor's line, and when there is
    none, wraps around to the last bookmarked line. *)
Theorem previousBookmark_target (ls : lines) (bookmarks : list nat) (head : nat) :
  bookmarks <> [] ->
  let cur := lineAt ls head in
  exists t, previousBookmark ls bookmarks head = Some (lineFrom ls t) /\ In t bookmarks
    /\ (forall b, In b bookmarks -> (b < cur)%nat -> (b <= t < cur)%nat)
    /\ ((forall b, In b bookmarks -> (cur <= b)%nat) -> forall b, In b bookmarks -> (b <= t)%nat).
Proof.
  intros Hne. cbv zeta. unfold previousBookmark.
  destruct bookmarks as [|b0 bs0]; [congruence|]. cbn iota zeta.
  set (bs := b0 :: bs0) in *.
  set (S := sortNum (fun a b => (Z.of_nat b - Z.of_nat a)%Z) bs).
  assert (Hperm : Permutation S bs) by apply sortNum_perm.
  assert (Hs : StronglySorted (fun a b => (b <= a)%nat) S) by apply sortNum_desc_sorted.
  assert (HinS : forall b, In b bs <-> In b S)
    by (intros b; split; apply Permutation_in; [symmetry|]; exact Hperm).
  destruct (List.find (fun line => Nat.ltb line (lineAt ls head)) S) as [t|] eqn:Ef.
  - destruct (find_sorted_first _ _ S t Hs Ef) as (Ht & Hlt & Hmax).
    apply Nat.ltb_lt in Hlt.
    exists t. split; [reflexivity|]. split; [apply HinS, Ht|]. split.
    + intros b Hb Hcb. apply HinS in Hb.
      destruct (Hmax b Hb ltac:(apply Nat.ltb_lt; exact Hcb)) as [->|Hle]; lia.
    + intros Hall. specialize (Hall t (proj2 (HinS t) Ht)). lia.
  - assert (HSne : S <> []).
    { intros E. rewrite E in Hperm. apply Permutation_nil in Hperm. discriminate. }
    destruct (nth0_sorted_first _ S HSne Hs) as (Ht & Hmax).
    exists (nth 0 S 0%nat). split; [reflexivity|]. split; [apply HinS, Ht|]. split.
    + intros b Hb Hcb. apply HinS in Hb. pose proof (find_none _ _ Ef b Hb) as Hf.
      simpl in Hf. apply Nat.ltb_ge in Hf. lia.
    + intros _ b Hb. apply HinS in Hb. destruct (Hmax b Hb) as [->|Hle]; lia.
Qed.

(** ** [convertToTitleCase] *)

Lemma titleCase_nth_error (s : jsstr) (i : nat) :
  nth_error (titleCase s) i
  = match nth_error s i with
    | Some c => Some (if boundaryAt s i && Frag.isWordChar c then upperWordChar c else c)
    | None => None
    end.
Proof.
  unfold titleCase. rewrite nth_error_map, nth_error_seq.
  destruct (Nat.ltb i (length s)) eqn:E.
  - apply Nat.ltb_lt in E. rewrite (nth_error_nth' s 0 E). reflexivity.
  - apply Nat.ltb_ge in E. rewrite (proj2 (nth_error_None s i) E). reflexivity.
Qed.

Lemma length_titleCase (s : jsstr) : length (titleCase s) = length s.
Proof. unfold titleCase. rewrite length_map, length_seq. reflexivity. Qed.

Lemma upperWordChar_word (c : N) : Frag.isWordChar (upperWordChar c) = Frag.isWordChar c.
Proof.
  unfold upperWordChar. destruct ((97 <=? c) && (c <=? 122)) eqn:E; [|reflexivity].
  apply andb_prop in E as [E1 E2]. apply N.leb_le in E1, E2.
  unfold Frag.isWordChar.
  rewrite (proj2 (N.leb_le 97 c) E1), (proj2 (N.leb_le c 122) E2).
  rewrite (proj2 (N.leb_le 65 (c - 32))), (proj2 (N.leb_le (c - 32) 90)) by lia.
  rewrite !orb_true_r, orb_true_l. reflexivity.
Qed.

Lemma upperWordChar_idem (c : N) : upperWordChar (upperWordChar c) = upperWordChar c.
Proof.
  unfold upperWordChar. destruct ((97 <=? c) && (c <=? 122)) eqn:E.
  - apply andb_prop in E as [E1 E2]. apply N.leb_le in E1, E2.
    rewrite (proj2 (N.leb_gt 97 (c - 32))) by lia. reflexivity.
  - rewrite E. reflexivity.
Qed.

Lemma wordAt_titleCase (s : jsstr) (i : nat) : Frag.wordAt (titleCase s) i = Frag.wordAt s i.
Proof.
  unfold Frag.wordAt. rewrite titleCase_nth_error.
  destruct (nth_error s i) as [c|]; [|reflexivity].
  destruct (boundaryAt s i && Frag.isWordChar c); [apply upperWordChar_word|reflexivity].
Qed.

Lemma boundaryAt_titleCase (s : jsstr) (i : nat) : boundaryAt (titleCase s) i = boundaryAt s i.
Proof. unfold boundaryAt. destruct i; rewrite !wordAt_titleCase; reflexivity. Qed.

Lemma titleCase_idem (s : jsstr) : titleCase (titleCase s) = titleCase s.
Proof.
  apply nth_error_ext. intros i.
  rewrite (titleCase_nth_error (titleCase s)), boundaryAt_titleCase, titleCase_nth_error.
  destruct (nth_error s i) as [c|]; [|reflexivity].
  destruct (boundaryAt s i) eqn:B; simpl; [|reflexivity].
  destruct (Frag.isWordChar c) eqn:W.
  - rewrite upperWordChar_word, W, upperWordChar_idem. reflexivity.
  - rewrite W. reflexivity.
Qed.

(** Extra: [convertToTitleCase] on a non-empty selection keeps the length of
    the document and the text outside the selection, and the selection; a
    second run on the result inserts the same text again, so the document
    no longer changes. *)
Theorem convertToTitleCase_twice (T T' : jsstr) (from to a h : nat) :
  (from <= to <= length T)%nat ->
  convertToTitleCase T from to = Some (T', (a, h)) ->
  (a, h) = (from, to)
  /\ length T' = length T
  /\ firstn from T' = firstn from T /\ skipn to T' = skipn to T
  /\ convertToTitleCase T' from to = Some (T', (from, to)).
Proof.
  intros Hft H. unfold convertToTitleCase in H.
  destruct (Nat.eqb from to) eqn:E; [discriminate|]. injection H as <- <- <-.
  set (sel := substring T from to).
  assert (Hsel : length sel = (to - from)%nat)
    by (unfold sel, substring; rewrite length_firstn, length_skipn; lia).
  assert (HT : T = firstn from T ++ sel ++ skipn to T).
  { unfold sel, substring. rewrite <- (firstn_skipn from T) at 1. f_equal.
    rewrite <- (firstn_skipn (to - from) (skipn from T)) at 1. f_equal.
    rewrite skipn_skipn. f_equal. lia. }
  assert (Hpre : length (firstn from T) = from) by (rewrite length_firstn; lia).
  unfold applyChange.
  set (T1 := firstn from T ++ titleCase sel ++ skipn to T).
  assert (F1 : firstn from T1 = firstn from T) by (apply firstn_app_exact; exact Hpre).
  assert (S1 : skipn to T1 = skipn to T).
  { unfold T1. rewrite app_assoc. apply skipn_app_exact.
    rewrite length_app, length_titleCase. lia. }
  split; [reflexivity|]. split.
  { unfold T1. rewrite !length_app, length_titleCase, Hsel, Hpre, length_skipn. lia. }
  split; [exact F1|]. split; [exact S1|].
  unfold convertToTitleCase. rewrite E. unfold applyChange. rewrite F1, S1.
  assert (Sub : substring T1 from to = titleCase sel).
  { unfold substring, T1. rewrite skipn_app_exact by exact Hpre.
    apply firstn_app_exact. rewrite length_titleCase. lia. }
  rewrite Sub, titleCase_idem. reflexivity.
Qed.

(** ** Plain search *)

(** Case analysis on a code unit until the literal patterns in the goal
    are decided. *)
Ltac split_N :=
  repeat match goal with
  | |- context [match ?c with N0 => _ | Npos _ => _ end] => is_var c; destruct c
  | |- context [match ?p with xI _ => _ | xO _ => _ | xH => _ end] => is_var p; destruct p
  end.

Lemma parseAtom_plain (n : nat) (c : N) (s : jsstr) :
  isRegExpSpecial c = false -> Frag.parseAtom (S n) (c :: s) = Frag.POk (Frag.RChar c) s.
Proof.
  intros H. simpl. split_N; simpl in *. all: first [reflexivity | discriminate H | rewrite H; reflexivity].
Qed.

Lemma parseSeq_step_plain (n : nat) (c : N) (rest : jsstr) (acc : Frag.regex) :
  isRegExpSpecial c = false ->
  (rest = [] \/ exists d r, rest = d :: r /\ (d = 92 \/ isRegExpSpecial d = false)) ->
  Frag.parseSeq (S (S n)) (c :: rest) acc = Frag.parseSeq (S n) rest (Frag.RSeq acc (Frag.RChar c)).
Proof.
  intros Hc Hr.
  assert (N1 : (c =? 124) = false) by (apply N.eqb_neq; intros ->; discriminate Hc).
  assert (N2 : (c =? 41) = false) by (apply N.eqb_neq; intros ->; discriminate Hc).
  assert (N3 : (c =? 42) = false) by (apply N.eqb_neq; intros ->; discriminate Hc).
  cbn [Frag.parseSeq]. rewrite N1, N2, N3. simpl orb. cbv iota.
  rewrite parseAtom_plain by exact Hc.
  destruct Hr as [->|(d & r & -> & [->|Hd])]; [reflexivity|reflexivity|].
  split_N; simpl in Hd. all: first [reflexivity | discriminate Hd].
Qed.

Lemma parseSeq_step_escaped (n : nat) (c : N) (rest : jsstr) (acc : Frag.regex) :
  isRegExpSpecial c = true ->
  (rest = [] \/ exists d r, rest = d :: r /\ (d = 92 \/ isRegExpSpecial d = false)) ->
  Frag.parseSeq (S (S n)) (92 :: c :: rest) acc = Frag.parseSeq (S n) rest (Frag.RSeq acc (Frag.RChar c)).
Proof.
  intros Hc Hr.
  assert (N98 : (c =? 98) = false) by (apply N.eqb_neq; intros ->; discriminate Hc).
  cbn [Frag.parseSeq Frag.parseAtom N.eqb Pos.eqb orb]. rewrite N98, Hc.
  destruct Hr as [->|(d & r & -> & [->|Hd])]; [reflexivity|reflexivity|].
  split_N; simpl in Hd. all: first [reflexivity | discriminate Hd].
Qed.

Lemma escapeRegExp_cons (c : N) (s : jsstr) :
  escapeRegExp (c :: s) = (if isRegExpSpecial c then [92; c] else [c]) ++ escapeRegExp s.
Proof. reflexivity. Qed.

Lemma escapeRegExp_head (s : jsstr) :
  escapeRegExp s = [] \/
  exists d r, escapeRegExp s = d :: r /\ (d = 92 \/ isRegExpSpecial d = false).
Proof.
  destruct s as [|c s]; [left; reflexivity|right].
  rewrite escapeRegExp_cons. destruct (isRegExpSpecial c) eqn:Ec; simpl; eauto.
Qed.

Lemma length_escapeRegExp (s : jsstr) : (length s <= length (escapeRegExp s))%nat.
Proof.
  induction s as [|c s IH]; [simpl; lia|].
  rewrite escapeRegExp_cons, length_app. destruct (isRegExpSpecial c); simpl; lia.
Qed.

Lemma parseSeq_escapeRegExp (s : jsstr) (acc : Frag.regex) (n : nat) :
  (length s < n)%nat ->
  Frag.parseSeq n (escapeRegExp s) acc = Frag.POk (litChain s acc) [].
Proof.
  revert acc n. induction s as [|c s IH]; intros acc n Hn.
  - destruct n; [simpl in Hn; lia|reflexivity].
  - destruct n as [|[|n]]; simpl in Hn; try lia.
    rewrite escapeRegExp_cons. destruct (isRegExpSpecial c) eqn:Ec; simpl app.
    + rewrite parseSeq_step_escaped by (exact Ec || apply escapeRegExp_head).
      apply IH. lia.
    + rewrite parseSeq_step_plain by (exact Ec || apply escapeRegExp_head).
      apply IH. lia.
Qed.

Lemma compile_escapeRegExp (s : jsstr) (ci : bool) :
  Frag.compile (escapeRegExp s) ci = Some (litChain s Frag.REmpty, ci).
Proof.
  unfold Frag.compile, Frag.parse.
  pose proof (length_escapeRegExp s) as HL.
  replace (4 * length (escapeRegExp s) + 4)%nat with (S (4 * length (escapeRegExp s) + 3)) by lia.
  cbn [Frag.parseAlt]. rewrite parseSeq_escapeRegExp by lia. reflexivity.
Qed.

Lemma mt_ext (ci : bool) (r : Frag.regex) (s : jsstr) :
  forall i k1 k2, (forall j, k1 j = k2 j) -> Frag.mt ci r s i k1 = Frag.mt ci r s i k2.
Proof.
  induction r as [| c | r1 IH1 r2 IH2 | r1 IH1 r2 IH2 | r1 IH1 |]; intros i k1 k2 Hk; simpl.
  - apply Hk.
  - destruct (nth_error s i); [destruct (_ =? _); [apply Hk|reflexivity]|reflexivity].
  - apply IH1. intros j. apply IH2. exact Hk.
  - rewrite (IH1 i k1 k2 Hk), (IH2 i k1 k2 Hk). reflexivity.
  - generalize (length s - i)%nat as m. intros m. revert i.
    induction m as [|m IHm]; intros i.
    + match goal with
      | |- match Frag.mt _ _ _ _ ?K1 with _ => _ end = match Frag.mt _ _ _ _ ?K2 with _ => _ end =>
          rewrite (IH1 i K1 K2)
      end.
      * rewrite (Hk i). reflexivity.
      * intros j. destruct (Nat.eqb j i); [reflexivity|apply Hk].
    + match goal with
      | |- match Frag.mt _ _ _ _ ?K1 with _ => _ end = match Frag.mt _ _ _ _ ?K2 with _ => _ end =>
          rewrite (IH1 i K1 K2)
      end.
      * rewrite (Hk i). reflexivity.
      * intros j. destruct (Nat.eqb j i); [reflexivity|]. simpl. apply IHm.
  - destruct (xorb _ _); [apply Hk|reflexivity].
Qed.

Lemma skipn_nth_error (text : jsstr) (j : nat) :
  skipn j text = match nth_error text j with Some d => d :: skipn (S j) text | None => [] end.
Proof.
  revert text. induction j as [|j IH]; intros [|d text]; simpl; auto.
Qed.

Lemma mt_litChain (s text : jsstr) (acc : Frag.regex) (i : nat) (k : nat -> option nat) :
  Frag.mt false (litChain s acc) text i k =
  Frag.mt false acc text i
    (fun j => if startsWith (skipn j text) s then k (j + length s)%nat else None).
Proof.
  revert acc i k. induction s as [|c s IH]; intros acc i k.
  - apply mt_ext. intros j. simpl. rewrite Nat.add_0_r. reflexivity.
  - unfold litChain. simpl fold_left. fold (litChain s (Frag.RSeq acc (Frag.RChar c))).
    rewrite IH. cbn [Frag.mt]. apply mt_ext. intros j.
    rewrite (skipn_nth_error text j).
    destruct (nth_error text j) as [d|]; [|reflexivity].
    unfold Frag.canonicalize. cbn [negb startsWith andb length].
    destruct (c =? d); [|reflexivity].
    rewrite Nat.add_succ_r. reflexivity.
Qed.

Lemma exec_at_litChain (s text : jsstr) (L : nat) :
  s <> [] ->
  Frag.exec_at (litChain s Frag.REmpty, false) text L =
  option_map (fun p => (p, (p + length s)%nat)) (indexOf text s L).
Proof.
  intros Hs.
  assert (Hnil : startsWith [] s = false) by (destruct s; [congruence|reflexivity]).
  assert (Hsearch : forall n i, (S (length text) <= i + n)%nat ->
    (fix search (n i : nat) : option (nat * nat) :=
       match n with
       | O => None
       | S n' =>
           match Frag.mt false (litChain s Frag.REmpty) text i (fun j => Some j) with
           | Some e => Some (i, e)
           | None => search n' (S i)
           end
       end) n i = option_map (fun p => (p, (p + length s)%nat)) (indexOf_from (skipn i text) s i)).
  { induction n as [|n IHn]; intros i Hi.
    - rewrite skipn_all2 by lia. simpl. rewrite Hnil. reflexivity.
    - rewrite mt_litChain. simpl Frag.mt. rewrite IHn by lia.
      rewrite (skipn_nth_error text i).
      destruct (nth_error text i) as [d|] eqn:Ed.
      + cbn [indexOf_from]. destruct (startsWith (d :: skipn (S i) text) s); reflexivity.
      + rewrite Hnil. apply nth_error_None in Ed.
        rewrite skipn_all2 by lia. cbn [indexOf_from]. rewrite Hnil. reflexivity. }
  unfold Frag.exec_at. rewrite Hsearch by lia.
  unfold indexOf. destruct (Nat.le_gt_cases L (length text)) as [HL|HL].
  - rewrite Nat.min_l by exact HL. reflexivity.
  - rewrite Nat.min_r by lia. rewrite !skipn_all2 by lia. simpl. rewrite Hnil. reflexivity.
Qed.

(** An [exec] loop whose matches are those of the [indexOf] scan: it pushes
    the scan's matches, and throws when they do not fit in an array. *)
Lemma execLoop_indexOfScan (R : Type) (exec_at : R -> jsstr -> nat -> option (nat * nat))
  (r : R) (text s : jsstr) :
  (forall L, exec_at r text L = option_map (fun p => (p, (p + length s)%nat)) (indexOf text s L)) ->
  forall fuel L len ps, (len <= maxArrayLength)%N ->
  indexOfScan fuel text s L = Some ps ->
  execLoop R exec_at fuel r text L len =
    Some (if N.of_nat (length ps) + len <=? maxArrayLength
          then LoopDone (map (fun p => (p, (p + length s)%nat)) ps) else PushRangeError).
Proof.
  intros He fuel. induction fuel as [|fuel IH]; intros L len ps Hlen Hps; [discriminate|].
  cbn [indexOfScan] in Hps. cbn [execLoop]. rewrite He.
  destruct (indexOf text s L) as [p|]; cbn [option_map].
  - destruct (indexOfScan fuel text s (p + length s)) as [ps'|] eqn:Hs'; [|discriminate].
    injection Hps as <-.
    destruct (len =? maxArrayLength) eqn:E.
    + apply N.eqb_eq in E. subst len.
      replace (N.of_nat (length (p :: ps')) + maxArrayLength <=? maxArrayLength) with false
        by (symmetry; apply N.leb_gt; cbn [length]; lia).
      reflexivity.
    + apply N.eqb_neq in E. rewrite (IH _ (N.succ len) ps') by (lia || exact Hs').
      replace (N.of_nat (length (p :: ps')) + len) with (N.of_nat (length ps') + N.succ len)
        by (cbn [length]; lia).
      destruct (N.of_nat (length ps') + N.succ len <=? maxArrayLength); reflexivity.
  - injection Hps as <-. cbn [length N.of_nat]. rewrite N.add_0_l.
    apply N.leb_le in Hlen. rewrite Hlen. reflexivity.
Qed.

(** Extra: for a case-sensitive query that is neither a regular expression
    nor whole-word, [customSearchHighlight] marks exactly the positions the
    literal scan of [countMatches] finds, each [search.length] long, as long
    as they fit in an array ([maxArrayLength] of them at most; past that
    the [push] throws and the [catch] gives no decoration); so the number
    of decorations is then the count [countMatches] reports. *)
Theorem customSearchHighlight_plain (fuel : nat) (text s : jsstr) (cursorPos : nat)
  (ps : list nat) :
  s <> [] -> literalScan fuel text s true = Some ps ->
  customSearchHighlight _ Frag.compile Frag.exec_at fuel text
    (Some {| cs_search := s; cs_caseSensitive := true; cs_regexp := false;
             cs_wholeWord := false; cs_cursorPos := cursorPos |}) =
  Some (if N.of_nat (length ps) <=? maxArrayLength
        then map (fun p => (p, (p + length s)%nat,
                            Nat.leb p cursorPos && Nat.leb cursorPos (p + length s))) ps
        else [])
  /\ ((N.of_nat (length ps) <= maxArrayLength)%N ->
      option_map (@length _)
        (customSearchHighlight _ Frag.compile Frag.exec_at fuel text
          (Some {| cs_search := s; cs_caseSensitive := true; cs_regexp := false;
                   cs_wholeWord := false; cs_cursorPos := cursorPos |})) =
      countMatches _ Frag.compile Frag.exec_at fuel text s
        {| caseSensitive := true; regexp := false; wholeWord := false |}).
Proof.
  intros Hs Hps.
  assert (Hlen : (length s =? 0)%nat = false) by (destruct s; [congruence|reflexivity]).
  assert (Hex : execLoop _ Frag.exec_at fuel (litChain s Frag.REmpty, false) text 0 0 =
            Some (if N.of_nat (length ps) + 0 <=? maxArrayLength
                  then LoopDone (map (fun p => (p, (p + length s)%nat)) ps)
                  else PushRangeError)).
  { apply execLoop_indexOfScan; [|lia|exact Hps].
    intros L. apply exec_at_litChain. exact Hs. }
  rewrite N.add_0_r in Hex.
  unfold customSearchHighlight, countMatches.
  cbn [cs_search cs_caseSensitive cs_regexp cs_wholeWord cs_cursorPos
       caseSensitive regexp wholeWord negb].
  rewrite Hlen, compile_escapeRegExp, Hex, Hps.
  destruct (N.of_nat (length ps) <=? maxArrayLength) eqn:E.
  - rewrite map_map. split; [reflexivity|]. intros _. cbn [option_map].
    rewrite !length_map. reflexivity.
  - split; [reflexivity|]. intros H. apply N.leb_nle in E. contradiction.
Qed.

(** ** Instances of the hypotheses of the properties above *)

Lemma find_regexp_empty_match_no_termination_witness :
  (N.to_nat maxArrayLength
   + length (doc {| doc := u "b"; selFrom := 0; searchQuery := emptySearchQuery;
                    decorations := [] |}) + 2
   <= N.to_nat maxArrayLength + 3)%nat
  /\ find _ Frag.compile Frag.exec_at (N.to_nat maxArrayLength + 3)
       {| doc := u "b"; selFrom := 0; searchQuery := emptySearchQuery; decorations := [] |}
       (u "a*") {| caseSensitive := false; regexp := true; wholeWord := false |} <> None.
Proof.
  assert (Hf : (N.to_nat maxArrayLength
                + length (doc {| doc := u "b"; selFrom := 0; searchQuery := emptySearchQuery;
                                 decorations := [] |}) + 2
                <= N.to_nat maxArrayLength + 3)%nat).
  { change (length (doc {| doc := u "b"; selFrom := 0; searchQuery := emptySearchQuery;
                           decorations := [] |})) with 1%nat. lia. }
  split; [exact Hf|].
  exact (proj2 (proj2 (proj2
    (find_regexp_empty_match_no_termination _ Frag.compile Frag.exec_at
       {| doc := u "b"; selFrom := 0; searchQuery := emptySearchQuery; decorations := [] |}
       (u "a*") false false 0 (N.to_nat maxArrayLength + 3)
       (fun r L i e H => Frag_exec_at_progress r _ L i e H)
       (fun r L H => Frag_exec_at_end r _ L H) Hf)))).
Defined.

Lemma goToLine_getCursorPosition_witness :
  (1 <= 2 <= Z.of_nat (length [u "ab"; u "c"]))%Z
  /\ exists pos, goToLine [u "ab"; u "c"] 2 = Some pos
                 /\ getCursorPosition [u "ab"; u "c"] pos = (2%nat, 1%nat).
Proof.
  assert (H : (1 <= 2 <= Z.of_nat (length [u "ab"; u "c"]))%Z) by (simpl; lia).
  split; [exact H|]. exact (proj2 (goToLine_getCursorPosition [u "ab"; u "c"] 2) H).
Defined.

Lemma getCursorPosition_in_line_witness :
  [u "ab"; u "c"] <> [] /\ (3 <= length (join [u "ab"; u "c"]))%nat
  /\ let '(line, column) := getCursorPosition [u "ab"; u "c"] 3 in
     (1 <= line <= length [u "ab"; u "c"])%nat
     /\ (1 <= column <= S (length (lineText [u "ab"; u "c"] line)))%nat
     /\ (lineFrom [u "ab"; u "c"] line + column - 1)%nat = 3%nat.
Proof.
  assert (H1 : [u "ab"; u "c"] <> []) by discriminate.
  assert (H2 : (3 <= length (join [u "ab"; u "c"]))%nat) by (vm_compute; lia).
  split; [exact H1|]. split; [exact H2|].
  exact (getCursorPosition_in_line [u "ab"; u "c"] 3 H1 H2).
Defined.

Lemma duplicateLine_spec_witness :
  [u "ab"; u "c"] <> [] /\ (1 <= 3 <= length (join [u "ab"; u "c"]))%nat
  /\ (1 < 3)%nat
  /\ let T := join [u "ab"; u "c"] in
     let sel := substring T 1 3 in
     exists T', duplicateLine [u "ab"; u "c"] 1 3 = (T', (3%nat, (3 + length sel)%nat))
                /\ T' = firstn 3 T ++ sel ++ skipn 3 T
                /\ substring T' 3 (3 + length sel) = sel.
Proof.
  assert (H1 : [u "ab"; u "c"] <> []) by discriminate.
  assert (H2 : (1 <= 3 <= length (join [u "ab"; u "c"]))%nat) by (vm_compute; lia).
  assert (H3 : (1 < 3)%nat) by lia.
  split; [exact H1|]. split; [exact H2|]. split; [exact H3|].
  exact (proj2 (duplicateLine_spec [u "ab"; u "c"] 1 3 H1 H2) H3).
Defined.

Lemma deleteLine_spec_witness :
  [u "ab"; u "c"] <> [] /\ (1 <= length (join [u "ab"; u "c"]))%nat
  /\ (lineAt [u "ab"; u "c"] 1 < length [u "ab"; u "c"])%nat
  /\ deleteLine [u "ab"; u "c"] 1
     = (join (firstn (lineAt [u "ab"; u "c"] 1 - 1) [u "ab"; u "c"]
              ++ skipn (lineAt [u "ab"; u "c"] 1) [u "ab"; u "c"]),
        lineFrom [u "ab"; u "c"] (lineAt [u "ab"; u "c"] 1)).
Proof.
  assert (H1 : [u "ab"; u "c"] <> []) by discriminate.
  assert (H2 : (1 <= length (join [u "ab"; u "c"]))%nat) by (vm_compute; lia).
  assert (H3 : (lineAt [u "ab"; u "c"] 1 < length [u "ab"; u "c"])%nat) by (vm_compute; lia).
  split; [exact H1|]. split; [exact H2|]. split; [exact H3|].
  exact (proj1 (deleteLine_spec [u "ab"; u "c"] 1 H1 H2) H3).
Defined.

Lemma moveLineDown_spec_witness :
  [u "ab"; u "c"] <> [] /\ (1 <= length (join [u "ab"; u "c"]))%nat
  /\ (lineAt [u "ab"; u "c"] 1 < length [u "ab"; u "c"])%nat
  /\ (lineFrom [u "ab"; u "c"] (S (lineAt [u "ab"; u "c"] 1))
      + (1 - lineFrom [u "ab"; u "c"] (lineAt [u "ab"; u "c"] 1))
      <= length (join [u "ab"; u "c"]))%nat
  /\ moveLineDown [u "ab"; u "c"] 1 = Dispatched (join [u "c"; u "ab"], 4%nat)
  /\ (length (join [u "ab"; u "c"])
      < lineFrom [u "ab"; u "c"] (S (lineAt [u "ab"; u "c"] 2))
        + (2 - lineFrom [u "ab"; u "c"] (lineAt [u "ab"; u "c"] 2)))%nat
  /\ moveLineDown [u "ab"; u "c"] 2 = DispatchRangeError.
Proof.
  assert (H1 : [u "ab"; u "c"] <> []) by discriminate.
  assert (H2 : (1 <= length (join [u "ab"; u "c"]))%nat) by (vm_compute; lia).
  assert (H3 : (lineAt [u "ab"; u "c"] 1 < length [u "ab"; u "c"])%nat) by (vm_compute; lia).
  assert (H4 : (lineFrom [u "ab"; u "c"] (S (lineAt [u "ab"; u "c"] 1))
                + (1 - lineFrom [u "ab"; u "c"] (lineAt [u "ab"; u "c"] 1))
                <= length (join [u "ab"; u "c"]))%nat) by (vm_compute; lia).
  assert (H5 : (2 <= length (join [u "ab"; u "c"]))%nat) by (vm_compute; lia).
  assert (H6 : (lineAt [u "ab"; u "c"] 2 < length [u "ab"; u "c"])%nat) by (vm_compute; lia).
  assert (H7 : (length (join [u "ab"; u "c"])
                < lineFrom [u "ab"; u "c"] (S (lineAt [u "ab"; u "c"] 2))
                  + (2 - lineFrom [u "ab"; u "c"] (lineAt [u "ab"; u "c"] 2)))%nat)
    by (vm_compute; lia).
  split; [exact H1|]. split; [exact H2|]. split; [exact H3|]. split; [exact H4|].
  split; [exact (proj1 (proj1 (proj2 (moveLineDown_spec [u "ab"; u "c"] 1 H1 H2) H3) H4))|].
  split; [exact H7|].
  exact (proj2 (proj2 (moveLineDown_spec [u "ab"; u "c"] 2 H1 H5) H6) H7).
Defined.

Lemma moveLineUp_spec_witness :
  [u "ab"; u "c"] <> [] /\ (4 <= length (join [u "ab"; u "c"]))%nat
  /\ (2 <= lineAt [u "ab"; u "c"] 4)%nat
  /\ (4 - lineFrom [u "ab"; u "c"] (lineAt [u "ab"; u "c"] 4)
      <= length (lineText [u "ab"; u "c"] (lineAt [u "ab"; u "c"] 4 - 1)))%nat
  /\ exists c, moveLineUp [u "ab"; u "c"] 4 = Dispatched (join [u "c"; u "ab"], c)
               /\ exists c', moveLineDown [u "c"; u "ab"] c = Dispatched (join [u "ab"; u "c"], c').
Proof.
  assert (H1 : [u "ab"; u "c"] <> []) by discriminate.
  assert (H2 : (4 <= length (join [u "ab"; u "c"]))%nat) by (vm_compute; lia).
  assert (H3 : (2 <= lineAt [u "ab"; u "c"] 4)%nat) by (vm_compute; lia).
  assert (H4 : (4 - lineFrom [u "ab"; u "c"] (lineAt [u "ab"; u "c"] 4)
                <= length (lineText [u "ab"; u "c"] (lineAt [u "ab"; u "c"] 4 - 1)))%nat)
    by (vm_compute; lia).
  split; [exact H1|]. split; [exact H2|]. split; [exact H3|]. split; [exact H4|].
  destruct (proj2 (moveLineUp_spec [u "ab"; u "c"] 4 H1 H2) H3) as (c & Hc & _ & Hd).
  exists c. split; [exact Hc|exact (Hd H4)].
Defined.

Lemma indentSelection_outdent_roundtrip_witness :
  [u "ab"; u "c"] <> [] /\ (0 < 4 <= length (join [u "ab"; u "c"]))%nat
  /\ exists anchor head z,
       indentSelection [u "ab"; u "c"] 0 4 = (join [u "  ab"; u "  c"], (anchor, head))
       /\ outdentSelection [u "  ab"; u "  c"] anchor head
          = Some ([u "ab"; u "c"], (z, Z.of_nat 4)).
Proof.
  assert (H1 : [u "ab"; u "c"] <> []) by discriminate.
  assert (H2 : (0 < 4 <= length (join [u "ab"; u "c"]))%nat) by (vm_compute; lia).
  split; [exact H1|]. split; [exact H2|].
  exact (indentSelection_outdent_roundtrip [u "ab"; u "c"] 0 4 H1 H2).
Defined.

Lemma removeDuplicateLines_spec_witness :
  [u "a"; u "a"; u "b"] <> []
  /\ removeDuplicateLines [u "a"; u "a"; u "b"] 0 5 = Some ([u "a"; u "b"], (0%nat, 3%nat))
  /\ exists s e U,
       lineRange [u "a"; u "a"; u "b"] 0 5 = (s, e)
       /\ [u "a"; u "b"] = firstn (s - 1) [u "a"; u "a"; u "b"] ++ U ++ skipn e [u "a"; u "a"; u "b"]
       /\ NoDup U
       /\ (forall x, In x U <-> In x (linesBetween [u "a"; u "a"; u "b"] s e))
       /\ (length U < length (linesBetween [u "a"; u "a"; u "b"] s e))%nat
       /\ ((0 < 3)%nat -> removeDuplicateLines [u "a"; u "b"] 0 3 = None).
Proof.
  assert (H1 : [u "a"; u "a"; u "b"] <> []) by discriminate.
  assert (H2 : removeDuplicateLines [u "a"; u "a"; u "b"] 0 5
               = Some ([u "a"; u "b"], (0%nat, 3%nat))) by (vm_compute; reflexivity).
  split; [exact H1|]. split; [exact H2|].
  exact (removeDuplicateLines_spec _ _ _ _ _ _ H1 H2).
Defined.

Lemma trimTrailingSpaces_spec_witness :
  [u "a "; u "b"] <> []
  /\ trimTrailingSpaces [u "a "; u "b"] 0 4 = Some ([u "a"; u "b"], (0%nat, 3%nat))
  /\ exists s e,
       lineRange [u "a "; u "b"] 0 4 = (s, e)
       /\ [u "a"; u "b"] = firstn (s - 1) [u "a "; u "b"]
                           ++ map trimTrailing (linesBetween [u "a "; u "b"] s e)
                           ++ skipn e [u "a "; u "b"]
       /\ length [u "a"; u "b"] = length [u "a "; u "b"]
       /\ (forall l r c, In l (linesBetween [u "a"; u "b"] s e) -> l = r ++ [c] ->
                         isSpaceTab c = false)
       /\ ((0 < 3)%nat -> trimTrailingSpaces [u "a"; u "b"] 0 3 = None).
Proof.
  assert (H1 : [u "a "; u "b"] <> []) by discriminate.
  assert (H2 : trimTrailingSpaces [u "a "; u "b"] 0 4
               = Some ([u "a"; u "b"], (0%nat, 3%nat))) by (vm_compute; reflexivity).
  split; [exact H1|]. split; [exact H2|].
  exact (trimTrailingSpaces_spec _ _ _ _ _ _ H1 H2).
Defined.

Lemma removeBlankLines_spec_witness :
  [u "a"; []; u "b"] <> []
  /\ removeBlankLines [u "a"; []; u "b"] 0 4 = Some ([u "a"; u "b"], (0%nat, 3%nat))
  /\ exists s e,
       lineRange [u "a"; []; u "b"] 0 4 = (s, e)
       /\ let kept := filter (fun l => negb (isBlank l)) (linesBetween [u "a"; []; u "b"] s e) in
          (kept <> [] -> [u "a"; u "b"] = firstn (s - 1) [u "a"; []; u "b"] ++ kept
                                           ++ skipn e [u "a"; []; u "b"]
                         /\ (length kept < length (linesBetween [u "a"; []; u "b"] s e))%nat)
          /\ (kept = [] -> [u "a"; u "b"] = firstn (s - 1) [u "a"; []; u "b"] ++ [[]]
                                            ++ skipn e [u "a"; []; u "b"] /\ 0%nat = 3%nat)
          /\ ((0 < 3)%nat -> removeBlankLines [u "a"; u "b"] 0 3 = None).
Proof.
  assert (H1 : [u "a"; []; u "b"] <> []) by discriminate.
  assert (H2 : removeBlankLines [u "a"; []; u "b"] 0 4
               = Some ([u "a"; u "b"], (0%nat, 3%nat))) by (vm_compute; reflexivity).
  split; [exact H1|]. split; [exact H2|].
  exact (removeBlankLines_spec _ _ _ _ _ _ H1 H2).
Defined.

Lemma convertToCRLF_no_effect_witness :
  In LF (setContent (u "a" ++ [CR; LF] ++ u "b"))
  /\ convertToCRLF (setContent (u "a" ++ [CR; LF] ++ u "b")) <> None.
Proof.
  assert (H : In LF (setContent (u "a" ++ [CR; LF] ++ u "b"))) by (simpl; auto).
  split; [exact H|].
  exact (proj1 (convertToCRLF_no_effect (u "a" ++ [CR; LF] ++ u "b")) H).
Defined.

Lemma convertToCR_no_effect_witness :
  In LF (setContent (u "a" ++ [CR; LF] ++ u "b"))
  /\ convertToCR (setContent (u "a" ++ [CR; LF] ++ u "b")) <> None.
Proof.
  assert (H : In LF (setContent (u "a" ++ [CR; LF] ++ u "b"))) by (simpl; auto).
  split; [exact H|].
  exact (proj1 (convertToCR_no_effect (u "a" ++ [CR; LF] ++ u "b")) H).
Defined.

Lemma bookmarkUpdate_invariant_witness :
  [u "a"; u "b"] <> [] /\ (forall b, In b [1; 3]%nat -> (1 <= b)%nat)
  /\ (forall l, In (ToggleBookmark l) [ToggleBookmark 2] -> (1 <= l <= length [u "a"; u "b"])%nat)
  /\ NoDup (bookmarkUpdate [1; 3]%nat [u "a"; u "b"] [ToggleBookmark 2])
  /\ forall b, In b (bookmarkUpdate [1; 3]%nat [u "a"; u "b"] [ToggleBookmark 2]) ->
               (1 <= b <= length [u "a"; u "b"])%nat.
Proof.
  assert (H1 : [u "a"; u "b"] <> []) by discriminate.
  assert (H2 : forall b, In b [1; 3]%nat -> (1 <= b)%nat).
  { intros b [<-|[<-|[]]]; lia. }
  assert (H3 : forall l, In (ToggleBookmark l) [ToggleBookmark 2] ->
                         (1 <= l <= length [u "a"; u "b"])%nat).
  { intros l [E|[]]. injection E as <-. simpl. lia. }
  split; [exact H1|]. split; [exact H2|]. split; [exact H3|].
  exact (bookmarkUpdate_invariant _ _ _ H1 H2 H3).
Defined.

Lemma bookmarkUpdate_keeps_numbers_witness :
  [u "a"; u "b"] <> [] /\ (forall b, In b [1; 3]%nat -> (1 <= b)%nat)
  /\ (In 2%nat (bookmarkUpdate [1; 3]%nat [u "a"; u "b"] [])
      <-> exists b, In b [1; 3]%nat /\ 2%nat = Nat.min b (length [u "a"; u "b"])).
Proof.
  assert (H1 : [u "a"; u "b"] <> []) by discriminate.
  assert (H2 : forall b, In b [1; 3]%nat -> (1 <= b)%nat).
  { intros b [<-|[<-|[]]]; lia. }
  split; [exact H1|]. split; [exact H2|].
  exact (bookmarkUpdate_keeps_numbers _ _ 2 H1 H2).
Defined.

Lemma toggleBookmark_twice_witness :
  [u "a"; u "b"] <> [] /\ (forall b, In b [2]%nat -> (1 <= b <= length [u "a"; u "b"])%nat)
  /\ (In (lineAt [u "a"; u "b"] 0) (toggleBookmark [u "a"; u "b"] [2]%nat 0)
      <-> ~ In (lineAt [u "a"; u "b"] 0) [2]%nat)
  /\ forall y, In y (toggleBookmark [u "a"; u "b"] (toggleBookmark [u "a"; u "b"] [2]%nat 0) 0)
               <-> In y [2]%nat.
Proof.
  assert (H1 : [u "a"; u "b"] <> []) by discriminate.
  assert (H2 : forall b, In b [2]%nat -> (1 <= b <= length [u "a"; u "b"])%nat).
  { intros b [<-|[]]. simpl. lia. }
  split; [exact H1|]. split; [exact H2|].
  exact (toggleBookmark_twice _ _ 0 H1 H2).
Defined.

Lemma nextBookmark_target_witness :
  [2; 5]%nat <> []
  /\ exists t, nextBookmark [u "a"; u "b"; u "c"; u "d"; u "e"] [2; 5]%nat 0
               = Some (lineFrom [u "a"; u "b"; u "c"; u "d"; u "e"] t)
               /\ In t [2; 5]%nat.
Proof.
  assert (H : [2; 5]%nat <> []) by discriminate.
  split; [exact H|].
  destruct (nextBookmark_target [u "a"; u "b"; u "c"; u "d"; u "e"] _ 0 H) as (t & Ht & Hin & _).
  exists t. split; [exact Ht|exact Hin].
Defined.

Lemma previousBookmark_target_witness :
  [2; 5]%nat <> []
  /\ exists t, previousBookmark [u "a"; u "b"; u "c"; u "d"; u "e"] [2; 5]%nat 0
               = Some (lineFrom [u "a"; u "b"; u "c"; u "d"; u "e"] t)
               /\ In t [2; 5]%nat.
Proof.
  assert (H : [2; 5]%nat <> []) by discriminate.
  split; [exact H|].
  destruct (previousBookmark_target [u "a"; u "b"; u "c"; u "d"; u "e"] _ 0 H)
    as (t & Ht & Hin & _).
  exists t. split; [exact Ht|exact Hin].
Defined.

Lemma convertToTitleCase_twice_witness :
  (0 <= 11 <= length (u "hello world"))%nat
  /\ convertToTitleCase (u "hello world") 0 11 = Some (u "Hello World", (0%nat, 11%nat))
  /\ convertToTitleCase (u "Hello World") 0 11 = Some (u "Hello World", (0%nat, 11%nat)).
Proof.
  assert (H1 : (0 <= 11 <= length (u "hello world"))%nat) by (vm_compute; lia).
  assert (H2 : convertToTitleCase (u "hello world") 0 11
               = Some (u "Hello World", (0%nat, 11%nat))) by (vm_compute; reflexivity).
  split; [exact H1|]. split; [exact H2|].
  exact (proj2 (proj2 (proj2 (proj2 (convertToTitleCase_twice _ _ _ _ _ _ H1 H2))))).
Defined.

Lemma customSearchHighlight_plain_witness :
  u "ab" <> [] /\ literalScan 10 (u "abxab") (u "ab") true = Some [0; 3]%nat
  /\ customSearchHighlight _ Frag.compile Frag.exec_at 10 (u "abxab")
       (Some {| cs_search := u "ab"; cs_caseSensitive := true; cs_regexp := false;
                cs_wholeWord := false; cs_cursorPos := 4 |}) =
     Some (if N.of_nat (length [0; 3]%nat) <=? maxArrayLength
           then map (fun p => (p, (p + length (u "ab"))%nat,
                               Nat.leb p 4 && Nat.leb 4 (p + length (u "ab")))) [0; 3]%nat
           else []).
Proof.
  assert (H : u "ab" <> []) by discriminate.
  assert (H2 : literalScan 10 (u "abxab") (u "ab") true = Some [0; 3]%nat) by reflexivity.
  split; [exact H|]. split; [exact H2|].
  exact (proj1 (customSearchHighlight_plain 10 (u "abxab") (u "ab") 4 [0; 3]%nat H H2)).
Defined.
